(** * CPMpy solver back ends: Glasgow Constraint Solver (API) and MiniZinc (DSL)

    A shallow embedding of [cpmpy/solvers/glasgowconstraintsolver.py] and
    [cpmpy/solvers/minizinc.py].  Each solver object is a record of its
    attributes; every method is a function in a state-and-exception monad
    over that record, so that a raised Python exception leaves behind exactly
    the mutations performed before it. *)

From Stdlib Require Import Ascii String.
From stdpp Require Import gmap strings list pretty.

#[local] Set Warnings "-register-all".

Open Scope Z_scope.
Open Scope string_scope.
Open Scope list_scope.

(** ** Python exceptions and the method monad *)

Inductive exn :=
| NotImplementedError
| AssertionError
| AttributeError
| IndexError
| TypeError
| RecursionError
| UnboundLocalError
| Exception (msg : string).

Inductive res (A : Type) :=
| Ok (a : A)
| Raise (e : exn).
Arguments Ok {A} a.
Arguments Raise {A} e.

(** A method body over an object of type [S]: it returns or raises, and in
    both cases hands back the (possibly mutated) object. *)
Definition M (S A : Type) : Type := S -> res A * S.

Definition ret {S A} (a : A) : M S A := fun s => (Ok a, s).
Definition raise {S A} (e : exn) : M S A := fun s => (Raise e, s).
Definition bind {S A B} (m : M S A) (k : A -> M S B) : M S B :=
  fun s => match m s with
           | (Ok a, s') => k a s'
           | (Raise e, s') => (Raise e, s')
           end.
Definition get {S} : M S S := fun s => (Ok s, s).
Definition modify {S} (f : S -> S) : M S unit := fun s => (Ok tt, f s).
Definition lift_option {S A} (e : exn) (o : option A) : M S A :=
  match o with Some a => ret a | None => raise e end.

Notation "x <~ m ;; k" := (bind m (fun x => k))
  (at level 100, m at next level, right associativity).
Notation "m >>> k" := (bind m (fun _ => k))
  (at level 100, right associativity).

(** [\[f(x) for x in xs\]], left to right. *)
Definition mapM {S A B} (f : A -> M S B) : list A -> M S (list B) :=
  fix go (l : list A) : M S (list B) :=
    match l with
    | [] => ret []
    | x :: r => y <~ f x ;; ys <~ go r ;; ret (y :: ys)
    end.

(** [for x in xs: f(x)]. *)
Definition forM {S A} (f : A -> M S unit) : list A -> M S unit :=
  fix go (l : list A) : M S unit :=
    match l with
    | [] => ret tt
    | x :: r => f x >>> go r
    end.

(** ** Expressions (cpmpy.expressions)

    The class hierarchy of [expressions/variables.py] and
    [expressions/core.py]: [NegBoolView] < [_BoolVarImpl] < [_IntVarImpl] <
    [_NumVarImpl] < [Expression], and [Operator], [Comparison],
    [GlobalConstraint] < [Expression].  A variable object carries the
    attributes the solvers read: [name], [lb], [ub]; a view also carries
    [_bv], the Boolean variable it negates (given here by its name). *)

Inductive cpm_var :=
| BoolVarImpl (name : string)
| IntVarImpl (lb ub : Z) (name : string)
| NegBoolView (name : string) (_bv : string).

Inductive expr :=
| Num (n : Z)
| PyBool (b : bool)
| Var (v : cpm_var)
| PyList (l : list expr)
| Operator (name : string) (args : list expr)
| Comparison (name : string) (lhs rhs : expr)
| GlobalConstraint (name : string) (args : list expr).

Global Instance cpm_var_eq_dec : EqDecision cpm_var.
Proof. solve_decision. Defined.

Global Instance cpm_var_countable : Countable cpm_var.
Proof.
  refine (inj_countable'
    (fun v => match v with
              | BoolVarImpl n => inl n
              | IntVarImpl lb ub n => inr (inl (lb, ub, n))
              | NegBoolView n b => inr (inr (n, b))
              end)
    (fun c => match c with
              | inl n => BoolVarImpl n
              | inr (inl (lb, ub, n)) => IntVarImpl lb ub n
              | inr (inr (n, b)) => NegBoolView n b
              end) _).
  by intros [].
Defined.

(** Structural induction on expressions, through the argument lists. *)
Section expr_induction.
Variable P : expr -> Prop.
Hypothesis HNum : forall n, P (Num n).
Hypothesis HBool : forall b, P (PyBool b).
Hypothesis HVar : forall v, P (Var v).
Hypothesis HList : forall l, Forall P l -> P (PyList l).
Hypothesis HOp : forall n a, Forall P a -> P (Operator n a).
Hypothesis HCmp : forall n l r, P l -> P r -> P (Comparison n l r).
Hypothesis HGlob : forall n a, Forall P a -> P (GlobalConstraint n a).

Fixpoint expr_nested_ind (e : expr) : P e :=
  let all := fix all (l : list expr) : Forall P l :=
    match l with
    | [] => List.Forall_nil P
    | x :: r => List.Forall_cons P x r (expr_nested_ind x) (all r)
    end in
  match e with
  | Num n => HNum n
  | PyBool b => HBool b
  | Var v => HVar v
  | PyList l => HList l (all l)
  | Operator n a => HOp n a (all a)
  | Comparison n l r => HCmp n l r (expr_nested_ind l) (expr_nested_ind r)
  | GlobalConstraint n a => HGlob n a (all a)
  end.
End expr_induction.

Global Instance expr_eq_dec : EqDecision expr.
Proof.
  unfold EqDecision, Decision.
  fix IH 1. intros x y.
  pose proof (@list_eq_dec _ IH) as Hl. unfold EqDecision, Decision in Hl.
  decide equality; try apply (decide (_ = _)).
Defined.

(** Expressions are hashable (they can be dictionary keys): an encoding
    into stdpp's generic trees makes them countable. *)
Definition expr_leaf : Type := Z + bool + cpm_var + string.

Fixpoint expr_encode (e : expr) : gen_tree expr_leaf :=
  match e with
  | Num n => GenLeaf (inl (inl (inl n)))
  | PyBool b => GenLeaf (inl (inl (inr b)))
  | Var v => GenLeaf (inl (inr v))
  | PyList l => GenNode 0 (map expr_encode l)
  | Operator n a => GenNode 1 (GenLeaf (inr n) :: map expr_encode a)
  | Comparison n l r =>
      GenNode 2 [GenLeaf (inr n); expr_encode l; expr_encode r]
  | GlobalConstraint n a => GenNode 3 (GenLeaf (inr n) :: map expr_encode a)
  end.

Fixpoint expr_decode (t : gen_tree expr_leaf) : expr :=
  match t with
  | GenLeaf (inl (inl (inl n))) => Num n
  | GenLeaf (inl (inl (inr b))) => PyBool b
  | GenLeaf (inl (inr v)) => Var v
  | GenLeaf (inr _) => Num 0
  | GenNode 0 l => PyList (map expr_decode l)
  | GenNode 1 (GenLeaf (inr n) :: a) => Operator n (map expr_decode a)
  | GenNode 2 [GenLeaf (inr n); l; r] =>
      Comparison n (expr_decode l) (expr_decode r)
  | GenNode 3 (GenLeaf (inr n) :: a) =>
      GlobalConstraint n (map expr_decode a)
  | GenNode _ _ => Num 0
  end.

Global Instance expr_countable : Countable expr.
Proof.
  refine (inj_countable' expr_encode expr_decode _).
  intros e. induction e as [| | |l IH|n a IH|n l r IHl IHr|n a IH]
    using expr_nested_ind; simpl; try done.
  - f_equal. induction IH; simpl; [done | congruence].
  - f_equal. induction IH; simpl; [done | congruence].
  - congruence.
  - f_equal. induction IH; simpl; [done | congruence].
Defined.

Definition var_name (v : cpm_var) : string :=
  match v with
  | BoolVarImpl n => n
  | IntVarImpl _ _ n => n
  | NegBoolView n _ => n
  end.

(** [v.lb] and [v.ub]; Boolean variables are 0/1 integer variables. *)
Definition var_lb (v : cpm_var) : Z :=
  match v with IntVarImpl lb _ _ => lb | _ => 0 end.
Definition var_ub (v : cpm_var) : Z :=
  match v with IntVarImpl _ ub _ => ub | _ => 1 end.

(** [isinstance(v, _BoolVarImpl)]. *)
Definition is_BoolVarImpl (v : cpm_var) : bool :=
  match v with IntVarImpl _ _ _ => false | _ => true end.

(** [isinstance(v, NegBoolView)]. *)
Definition is_view (v : cpm_var) : bool :=
  match v with NegBoolView _ _ => true | _ => false end.

(** Modelled from the spec: [is_num] of [expressions/utils.py] (not among the
    sources) recognises the numeric constants of the canonical IR.  Python's
    [True] and [False] are [int]s, with values 1 and 0. *)
Definition is_num (e : expr) : option Z :=
  match e with
  | Num n => Some n
  | PyBool b => Some (Z.b2z b)
  | _ => None
  end.

Definition is_number (e : expr) : bool :=
  match is_num e with Some _ => true | None => false end.

(** [x in l] for strings. *)
Definition in_list (x : string) (l : list string) : bool :=
  existsb (String.eqb x) l.

(** The atoms of the canonical IR: plain variables and constants. *)
Definition is_atom (e : expr) : bool :=
  match e with Num _ | PyBool _ | Var _ => true | _ => false end.

(** Modelled from the spec: [is_any_list] of [expressions/utils.py] (not
    among the sources) recognises a sequence of expressions. *)
Definition is_any_list (e : expr) : option (list expr) :=
  match e with PyList l => Some l | _ => None end.

(** [isinstance(e, Expression)]: everything but plain Python numbers,
    Booleans and lists.  Variables are expressions, which is why
    [_convert_expression] has to test for [_NumVarImpl] next to it. *)
Definition is_Expression (e : expr) : bool :=
  match e with
  | Num _ | PyBool _ | PyList _ => false
  | _ => true
  end.

(** [e.name]; [None] is Python's [AttributeError]. *)
Definition attr_name (e : expr) : option string :=
  match e with
  | Var v => Some (var_name v)
  | Operator n _ | GlobalConstraint n _ => Some n
  | Comparison n _ _ => Some n
  | _ => None
  end.

(** Values reported by a backend for a variable. *)
Inductive value :=
| VInt (z : Z)
| VBool (b : bool).

(** Unified exit status ([ExitStatus] of [solver_interface.py]). *)
Inductive ExitStatus :=
| NOT_RUN
| OPTIMAL
| FEASIBLE
| UNSATISFIABLE
| ERROR
| UNKNOWN.

(** Modelled from the spec: [SolverInterface._solve_return] (not among the
    sources) is the "solution found" flag of the solve contract: true
    exactly on FEASIBLE and OPTIMAL. *)
Definition _solve_return (st : ExitStatus) : bool :=
  match st with
  | OPTIMAL | FEASIBLE => true
  | _ => false
  end.

(** ** Keys of dicts and sets

    Modelled from the spec: [__hash__] and [__eq__] of expression objects
    ([expressions/core.py] and [expressions/variables.py], not among the
    sources).  A variable object is hashed by its name, and [==] between
    expressions does not compare: it builds a comparison object, which is
    truthy.  A dict or a set therefore finds a variable under the first
    key of the same name, whatever its kind and its bounds.  Names with
    the same hash are taken to be the same name, and the text by which any
    other expression is hashed to be the text of no other key. *)
Inductive dict_key :=
| KName (name : string)
| KExpr (e : expr).

Global Instance dict_key_eq_dec : EqDecision dict_key.
Proof. solve_decision. Defined.

Global Instance dict_key_countable : Countable dict_key.
Proof.
  refine (inj_countable'
    (fun k => match k with KName n => inl n | KExpr e => inr e end)
    (fun c => match c with inl n => KName n | inr e => KExpr e end) _).
  by intros [].
Defined.

Definition key_of (e : expr) : dict_key :=
  match e with
  | Var v => KName (var_name v)
  | _ => KExpr e
  end.

(** [v in s] for a set of variable objects. *)
Definition tracked (s : list cpm_var) (v : cpm_var) : bool :=
  in_list (var_name v) (var_name <$> s).

(** [set.add] and [set.update]: a variable that is found in the set is
    not added.  The set is kept in the order of insertion. *)
Definition set_add (s : list cpm_var) (v : cpm_var) : list cpm_var :=
  if tracked s v then s else s ++ [v].

Definition set_update (s new : list cpm_var) : list cpm_var :=
  foldl set_add s new.

(** ** Upstream collaborators

    The flattening pipeline, the variable collector and the attributes of
    expression objects that no source file under study defines.  The
    solvers only consume their results, so they are an interface here. *)
Class Upstream := {
  get_variables : expr -> list cpm_var;
  flatten_constraint : expr -> list expr;
  reify_rewrite : list expr -> list expr;
  only_numexpr_equality : list expr -> list expr;
  only_bv_implies : list expr -> list expr;
  flatten_objective : expr -> expr * list expr;
  get_or_make_var : expr -> cpm_var * list expr;
  (** [e.decompose()] of a global constraint *)
  decompose : string -> list expr -> list expr;
  (** [v.args] of a variable object; [None] when the attribute is missing *)
  var_args : cpm_var -> option (list expr);
  (** [e.is_bool()] *)
  is_bool : expr -> bool;
  (** [str(e)] of a compound expression *)
  expr_repr : expr -> string;
}.

(** * The Glasgow Constraint Solver back end (direct API lowering) *)

Module Glasgow.

(** ** The native solver object [gcspy.GlasgowConstraintSolver]

    The library is a black box: it is represented by the handles it gives
    out and the log of calls that declare variables, post constraints, set
    the objective and solve.  [create_integer_constant], [negate] and
    [add_constant] only build new handles from old ones. *)

Inductive handle :=
| HVar (id : nat)                      (* result of create_integer_variable *)
| HConst (c : Z)                       (* create_integer_constant(c) *)
| HNeg (h : handle)                    (* negate(h) *)
| HAddConst (h : handle) (k : Z).      (* add_constant(h, k) *)

(** What [solver_vars] returns: a handle, or a list of such results. *)
Inductive hval :=
| H (h : handle)
| HL (l : list hval).

(** A positional argument of a native call. *)
Inductive arg :=
| AH (v : hval)          (* handles *)
| APy (e : expr)         (* a plain Python value: number, flag, list of numbers *)
| ARange (lo hi : Z)     (* range(lo, hi) *)
| AStr (s : string).

Record call := Call { method : string; call_args : list arg }.

(** The reply of one run of the native [solve]: the statistics dictionary
    and the solution it lets [get_solution_value] read. *)
Record gcs_reply := {
  solutions : Z;
  solution_value : arg -> Z;
}.

Record solver := {
  gcs : list call;                (* calls made on self.gcs, oldest first *)
  gcs_fresh : nat;                (* number of native variables created *)
  has_objective : bool;
  objective_var : option arg;
  _varmap : gmap string handle;   (* the cache, by the name of the key *)
  user_vars : list cpm_var;
  cpm_status : ExitStatus;
  objective_value_ : option Z;
  _value : gmap cpm_var Z;        (* the value slots of the variable objects *)
}.

Definition set_gcs (f : list call -> list call) (s : solver) : solver :=
  {| gcs := f (gcs s); gcs_fresh := gcs_fresh s;
     has_objective := has_objective s; objective_var := objective_var s;
     _varmap := _varmap s; user_vars := user_vars s;
     cpm_status := cpm_status s; objective_value_ := objective_value_ s;
     _value := _value s |}.
Definition set_fresh (n : nat) (s : solver) : solver :=
  {| gcs := gcs s; gcs_fresh := n;
     has_objective := has_objective s; objective_var := objective_var s;
     _varmap := _varmap s; user_vars := user_vars s;
     cpm_status := cpm_status s; objective_value_ := objective_value_ s;
     _value := _value s |}.
Definition set_objective (o : arg) (s : solver) : solver :=
  {| gcs := gcs s; gcs_fresh := gcs_fresh s;
     has_objective := true; objective_var := Some o;
     _varmap := _varmap s; user_vars := user_vars s;
     cpm_status := cpm_status s; objective_value_ := objective_value_ s;
     _value := _value s |}.
Definition set_varmap (f : gmap string handle -> gmap string handle)
    (s : solver) : solver :=
  {| gcs := gcs s; gcs_fresh := gcs_fresh s;
     has_objective := has_objective s; objective_var := objective_var s;
     _varmap := f (_varmap s); user_vars := user_vars s;
     cpm_status := cpm_status s; objective_value_ := objective_value_ s;
     _value := _value s |}.
Definition set_user_vars (f : list cpm_var -> list cpm_var)
    (s : solver) : solver :=
  {| gcs := gcs s; gcs_fresh := gcs_fresh s;
     has_objective := has_objective s; objective_var := objective_var s;
     _varmap := _varmap s; user_vars := f (user_vars s);
     cpm_status := cpm_status s; objective_value_ := objective_value_ s;
     _value := _value s |}.
Definition set_status (st : ExitStatus) (s : solver) : solver :=
  {| gcs := gcs s; gcs_fresh := gcs_fresh s;
     has_objective := has_objective s; objective_var := objective_var s;
     _varmap := _varmap s; user_vars := user_vars s;
     cpm_status := st; objective_value_ := objective_value_ s;
     _value := _value s |}.
Definition set_objective_value (o : option Z) (s : solver) : solver :=
  {| gcs := gcs s; gcs_fresh := gcs_fresh s;
     has_objective := has_objective s; objective_var := objective_var s;
     _varmap := _varmap s; user_vars := user_vars s;
     cpm_status := cpm_status s; objective_value_ := o;
     _value := _value s |}.
Definition set_value (f : gmap cpm_var Z -> gmap cpm_var Z)
    (s : solver) : solver :=
  {| gcs := gcs s; gcs_fresh := gcs_fresh s;
     has_objective := has_objective s; objective_var := objective_var s;
     _varmap := _varmap s; user_vars := user_vars s;
     cpm_status := cpm_status s; objective_value_ := objective_value_ s;
     _value := f (_value s) |}.

(** [__init__] without a model: a fresh native solver, no objective, and
    the empty caches the parent constructor sets up. *)
Definition __init__ : solver :=
  {| gcs := []; gcs_fresh := 0%nat;
     has_objective := false; objective_var := None;
     _varmap := ∅; user_vars := [];
     cpm_status := NOT_RUN; objective_value_ := None;
     _value := ∅ |}.

(** A call on [self.gcs] that is recorded. *)
Definition native (m : string) (args : list arg) : M solver unit :=
  modify (set_gcs (fun l => l ++ [Call m args])).

(** [self.gcs.create_integer_variable(dom, name)]: a fresh handle. *)
Definition create_integer_variable (dom : arg) (name : string)
    : M solver handle :=
  s <~ get ;;
  native "create_integer_variable" [dom; AStr name] >>>
  modify (set_fresh (S (gcs_fresh s))) >>>
  ret (HVar (gcs_fresh s)).

(** Lines 117-129 of [solver_var]: look the variable up, declaring it on a
    miss.  The dict finds it under a key of the same name.
    [str(cpm_var)] is the variable's name. *)
Definition solver_var_cached (v : cpm_var) : M solver handle :=
  s <~ get ;;
  match _varmap s !! var_name v with
  | Some h => ret h
  | None =>
      revar <~ (if is_BoolVarImpl v
                then create_integer_variable
                       (APy (PyList [Num 0; Num 1])) (var_name v)
                else create_integer_variable
                       (ARange (var_lb v) (var_ub v + 1)) (var_name v)) ;;
      modify (set_varmap (insert (var_name v) revar)) >>>
      ret revar
  end.

(** [solver_var]: constants are wrapped, a negation view is resolved on its
    underlying variable as [-x + 1], anything else goes through the cache.
    A list is not hashable; other objects are "not a known var". *)
Definition solver_var (cpm_var : expr) : M solver handle :=
  match is_num cpm_var with
  | Some c => ret (HConst c)
  | None =>
      match cpm_var with
      | Var (NegBoolView _ bv) =>
          h <~ solver_var_cached (BoolVarImpl bv) ;;
          ret (HAddConst (HNeg h) 1)
      | Var v => solver_var_cached v
      | PyList _ => raise TypeError
      | _ => raise NotImplementedError
      end
  end.

(** Modelled from the spec: [SolverInterface.solver_vars] (not among the
    sources) consults the binding cache for every element of a possibly
    nested list, in order, keeping the list structure. *)
Fixpoint solver_vars (cpm_vars : expr) : M solver hval :=
  match cpm_vars with
  | PyList l => hs <~ mapM solver_vars l ;; ret (HL hs)
  | _ => h <~ solver_var cpm_vars ;; ret (H h)
  end.

(** [*self.solver_vars(\[...\])]: the list result spread over positional
    arguments. *)
Definition star (args : list expr) : M solver (list arg) :=
  hs <~ mapM solver_vars args ;; ret (map AH hs).

Section Posting.
Context {U : Upstream}.

(** [e.args]; [None] is Python's [AttributeError].  A comparison holds its
    two sides as a two-element list. *)
Definition attr_args (e : expr) : option (list expr) :=
  match e with
  | Var v => var_args v
  | Operator _ a | GlobalConstraint _ a => Some a
  | Comparison _ l r => Some [l; r]
  | _ => None
  end.

(** [l\[i\]]. *)
Definition item (l : list expr) (i : nat) : M solver expr :=
  lift_option IndexError (l !! i).

Definition is_bv (e : expr) : bool :=
  match e with Var v => is_BoolVarImpl v | _ => false end.

Definition is_NumVarImpl (e : expr) : bool :=
  match e with Var _ => true | _ => false end.

(** Python's [assert]. *)
Definition assert (b : bool) : M solver unit :=
  if b then ret tt else raise AssertionError.

(** The ['->'] branch of [_post_constraint] (lines 213-251). *)
Definition post_reified (args : list expr) : M solver unit :=
  bool_lhs <~ item args 0 ;;
  assert (is_bv bool_lhs) >>>
  reif_var <~ solver_var bool_lhs ;;
  bool_expr <~ item args 1 ;;
  if is_bv bool_expr then
    hs <~ solver_vars (PyList [bool_lhs; bool_expr]) ;;
    native "post_implies" [AH hs]
  else
    match bool_expr with
    | Operator name bargs =>
        if (name =? "and")%string then
          hs <~ solver_vars (PyList bargs) ;;
          native "post_and_if" [AH hs; AH (H reif_var)]
        else if (name =? "or")%string then
          hs <~ solver_vars (PyList bargs) ;;
          native "post_or_if" [AH hs; AH (H reif_var)]
        else if (name =? "->")%string then
          hs <~ solver_vars (PyList bargs) ;;
          native "post_implies_if" [AH hs; AH (H reif_var)]
        else if (name =? "xor")%string then
          hs <~ solver_vars (PyList bargs) ;;
          native "post_xor_if" [AH hs; AH (H reif_var)]
        else raise NotImplementedError
    | Comparison name lhs rhs =>
        if (name =? "==")%string then
          xs <~ star [lhs; rhs] ;;
          native "post_equals_if" (xs ++ [AH (H reif_var)])
        else if (name =? "<=")%string then
          xs <~ star [lhs; rhs] ;;
          native "post_compare_less_if"
            (xs ++ [AH (H reif_var); APy (PyBool true)])
        else if (name =? "<")%string then
          xs <~ star [lhs; rhs] ;;
          native "post_compare_less_if"
            (xs ++ [AH (H reif_var); APy (PyBool false)])
        else if (name =? ">=")%string then
          xs <~ star [rhs; lhs] ;;
          native "post_compare_less_if"
            (xs ++ [AH (H reif_var); APy (PyBool true)])
        else if (name =? ">")%string then
          xs <~ star [rhs; lhs] ;;
          native "post_compare_less_if"
            (xs ++ [AH (H reif_var); APy (PyBool false)])
        else raise NotImplementedError
    | _ => raise NotImplementedError
    end.

(** The [Comparison] branch (lines 254-295).  With a variable on the left
    the operands of every operator but [==] are taken from [lhs.args]. *)
Definition post_comparison (name : string) (lhs rhs : expr)
    : M solver unit :=
  if is_NumVarImpl lhs then
    assert (is_NumVarImpl rhs || is_number rhs) >>>
    if (name =? "==")%string then
      xs <~ star [lhs; rhs] ;;
      native "post_equals" xs
    else if (name =? "!=")%string then
      a <~ lift_option AttributeError (attr_args lhs) ;;
      xs <~ star (a ++ [rhs]) ;;
      native "post_not_equals" xs
    else if (name =? "<=")%string then
      a <~ lift_option AttributeError (attr_args lhs) ;;
      xs <~ star (a ++ [rhs]) ;;
      native "post_compare_less" (xs ++ [APy (PyBool true)])
    else if (name =? "<")%string then
      a <~ lift_option AttributeError (attr_args lhs) ;;
      xs <~ star (a ++ [rhs]) ;;
      native "post_compare_less" (xs ++ [APy (PyBool false)])
    else if (name =? ">=")%string then
      a <~ lift_option AttributeError (attr_args lhs) ;;
      xs <~ star (rev a ++ [rhs]) ;;
      native "post_compare_less" (xs ++ [APy (PyBool true)])
    else if (name =? ">")%string then
      a <~ lift_option AttributeError (attr_args lhs) ;;
      xs <~ star (rev a ++ [rhs]) ;;
      native "post_compare_less" (xs ++ [APy (PyBool false)])
    else raise NotImplementedError
  else if (name =? "==")%string then
    lname <~ lift_option AttributeError (attr_name lhs) ;;
    if (lname =? "abs")%string then
      a <~ lift_option AttributeError (attr_args lhs) ;;
      xs <~ star (a ++ [rhs]) ;;
      native "post_abs" xs
    else if in_list lname ["mul"; "div"; "pow"; "mod"; "abs"] then
      a <~ lift_option AttributeError (attr_args lhs) ;;
      xs <~ star (a ++ [rhs]) ;;
      native "post_arithmetic" (xs ++ [AStr lname])
    else if (lname =? "sub")%string then
      a <~ lift_option AttributeError (attr_args lhs) ;;
      a0 <~ item a 0 ;;
      var1 <~ solver_var a0 ;;
      a1 <~ item a 1 ;;
      h2 <~ solver_var a1 ;;
      r <~ solver_var rhs ;;
      native "post_arithmetic"
        [AH (H var1); AH (H (HNeg h2)); AH (H r); AStr "sum"]
    else if (lname =? "sum")%string then
      a <~ lift_option AttributeError (attr_args lhs) ;;
      if (length a =? 2)%nat then
        a0 <~ item a 0 ;;
        var1 <~ solver_var a0 ;;
        a1 <~ item a 1 ;;
        var2 <~ solver_var a1 ;;
        r <~ solver_var rhs ;;
        native "post_arithmetic"
          [AH (H var1); AH (H var2); AH (H r); AStr "sum"]
      else if (2 <? length a)%nat then
        summands <~ mapM solver_vars a ;;
        r <~ solver_var rhs ;;
        let summands := summands ++ [H (HNeg r)] in
        native "post_linear_equality"
          [AH (HL summands);
           APy (PyList (replicate (length summands) (Num 1)));
           APy (Num 0)]
      else raise NotImplementedError
    else if (lname =? "wsum")%string then
      a <~ lift_option AttributeError (attr_args lhs) ;;
      a1 <~ item a 1 ;;
      sv <~ solver_vars a1 ;;
      match sv with
      | H _ => raise AttributeError            (* no [append] on a handle *)
      | HL summands =>
          r <~ solver_var rhs ;;
          let summands := summands ++ [H (HNeg r)] in
          a0 <~ item a 0 ;;
          match a0 with
          | PyList w =>
              native "post_linear_equality"
                [AH (HL summands); APy (PyList (w ++ [Num 1])); APy (Num 0)]
          | _ => raise TypeError
          end
      end
    else raise NotImplementedError
  else raise NotImplementedError.

(** [_post_constraint]; [self_add] is the [self += ...] of the last branch. *)
Definition _post_constraint (self_add : expr -> M solver unit)
    (cpm_expr : expr) : M solver unit :=
  if is_bv cpm_expr then
    h <~ solver_var cpm_expr ;;
    native "post_or" [AH (HL [H h])] >>>
    raise NotImplementedError       (* no return: falls to the last line *)
  else
    match cpm_expr with
    | Operator name args =>
        if (name =? "and")%string then
          hs <~ solver_vars (PyList args) ;;
          native "post_and" [AH hs]
        else if (name =? "or")%string then
          hs <~ solver_vars (PyList args) ;;
          native "post_or" [AH hs]
        else if (name =? "->")%string then post_reified args
        else raise NotImplementedError
    | Comparison name lhs rhs => post_comparison name lhs rhs
    | _ =>
        name <~ lift_option AttributeError (attr_name cpm_expr) ;;
        if (name =? "alldifferent")%string then
          a <~ lift_option AttributeError (attr_args cpm_expr) ;;
          hs <~ solver_vars (PyList a) ;;
          native "post_alldifferent" [AH hs]
        else
          match cpm_expr with
          | GlobalConstraint n a => self_add (PyList (decompose n a))
          | _ => raise AttributeError         (* no [decompose] method *)
          end
    end.

(** [__add__]: track the variables, run the transformations, post each
    primitive constraint.  [depth] bounds the nesting of decompositions, as
    the interpreter's recursion limit does. *)
Fixpoint __add__ (depth : nat) (cpm_con : expr) : M solver unit :=
  modify (set_user_vars (fun u => set_update u (get_variables cpm_con))) >>>
  let cpm_cons :=
    only_bv_implies
      (only_numexpr_equality (reify_rewrite (flatten_constraint cpm_con))) in
  forM (_post_constraint
          (match depth with
           | O => fun _ => raise RecursionError
           | S d => __add__ d
           end)) cpm_cons.

(** [_make_numexpr]: a number is returned as it is, a variable is bound,
    anything else is replaced by an auxiliary variable whose defining
    constraints are posted. *)
Definition _make_numexpr (depth : nat) (cpm_expr : expr) : M solver arg :=
  match is_num cpm_expr with
  | Some _ => ret (APy cpm_expr)
  | None =>
      if is_NumVarImpl cpm_expr then
        h <~ solver_var cpm_expr ;; ret (AH (H h))
      else
        let '(obj_var, obj_cons) := get_or_make_var cpm_expr in
        __add__ depth (PyList obj_cons) >>>
        h <~ solver_var (Var obj_var) ;; ret (AH (H h))
  end.

Definition objective (depth : nat) (expr : expr) (minimize : bool)
    : M solver unit :=
  let '(flat_obj, flat_cons) := flatten_objective expr in
  __add__ depth (PyList flat_cons) >>>
  modify (set_user_vars (fun u => set_update u (get_variables flat_obj))) >>>
  obj <~ _make_numexpr depth flat_obj ;;
  modify (set_objective obj) >>>
  if minimize then native "minimise" [obj] else native "maximise" [obj].

(** [solve]; [reply] is what this run of the native solver answers. *)
Definition solve {T} (time_limit : option T) (kwargs : list arg)
    (reply : gcs_reply) : M solver bool :=
  match time_limit with
  | Some _ => raise NotImplementedError
  | None =>
      native "solve" kwargs >>>
      modify (set_status
                (if (solutions reply =? 0)%Z then UNSATISFIABLE else FEASIBLE)) >>>
      s <~ get ;;
      let has_sol := _solve_return (cpm_status s) in
      modify (set_objective_value None) >>>
      (if has_sol then
         forM (fun cpm_var =>
                 sol_var <~ solver_var (Var cpm_var) ;;
                 modify (set_value
                   (insert cpm_var (solution_value reply (AH (H sol_var))))))
              (user_vars s) >>>
         if has_objective s then
           obj <~ lift_option TypeError (objective_var s) ;;
           modify (set_objective_value (Some (solution_value reply obj)))
         else ret tt
       else ret tt) >>>
      ret has_sol
  end.

(** The sessions a client can produce: a new solver object, then any
    sequence of calls, whatever their outcome. *)
Inductive reachable (T : Type) : solver -> Prop :=
| reach_init : reachable T __init__
| reach_add s depth cpm_con :
    reachable T s -> reachable T (__add__ depth cpm_con s).2
| reach_objective s depth expr minimize :
    reachable T s -> reachable T (objective depth expr minimize s).2
| reach_solve s (time_limit : option T) kwargs reply :
    reachable T s -> reachable T (solve time_limit kwargs reply s).2.

End Posting.

End Glasgow.

(** * The MiniZinc back end (textual DSL lowering) *)

Module MiniZinc.

(** ** Text *)

Definition nl : string := String "010"%char EmptyString.
Definition dquote : string := String "034"%char EmptyString.

(** [sep.join(strs)]. *)
Definition join (sep : string) (strs : list string) : string :=
  String.concat sep strs.

(** [s.replace(old, new)] for a one-character [old]. *)
Fixpoint replace (old : ascii) (new : string) (s : string) : string :=
  match s with
  | EmptyString => EmptyString
  | String c r =>
      if Ascii.eqb c old then new +:+ replace old new r
      else String c (replace old new r)
  end.

(** [s.endswith(suffix)]. *)
Definition endswith (s suffix : string) : bool :=
  (String.length suffix <=? String.length s)%nat &&
  (substring (String.length s - String.length suffix)
             (String.length suffix) s =? suffix)%string.

(** A fragment of the program is a solve item, or a variable declaration,
    when it starts with the keyword. *)
Definition is_solve_item (txt : string) : bool := String.prefix "solve " txt.
Definition is_declaration (txt : string) : bool := String.prefix "var " txt.

(** [str(n)] of a Python number or Boolean. *)
Definition num_str (e : expr) : string :=
  match e with
  | Num n => pretty n
  | PyBool true => "True"
  | PyBool false => "False"
  | _ => EmptyString
  end.

(** ** The external compiler and runtime

    [minizinc.result.Status], the result object of a run, and the instance
    (solver plus program text) a run is started on.  The program is kept as
    the sequence of fragments handed to [add_string]. *)

Module Status.
Inductive t :=
| ERROR | UNKNOWN | UNBOUNDED | UNSAT_OR_UNBOUNDED
| UNSATISFIABLE | SATISFIED | ALL_SOLUTIONS | OPTIMAL_SOLUTION.
End Status.

Inductive mzn_solution :=
| Solution (vals : gmap string value)
| Solutions (l : list (gmap string value)).

Record mzn_result := {
  status : Status.t;
  solution : option mzn_solution;
  result_objective : option value;
  statistics_time : option Z;
}.

Record mzn_instance := {
  inst_solver : string;
  inst_program : list string;
}.

(** A keyword argument handed on to the runtime. *)
Inductive kwarg (T : Type) :=
| timedelta (seconds : T)
| KwPy (e : expr).
Arguments timedelta {T} seconds.
Arguments KwPy {T} e.

(** ** The solver object *)

Record solver := {
  name : string;
  mzn_solver : string;
  mzn_model : list string;        (* fragments added so far, oldest first *)
  mzn_txt_solve : string;
  _varmap : gmap dict_key string;
  user_vars : list cpm_var;
  cpm_status : ExitStatus;
  runtime : option Z;
  objective_value_ : option value;
  _value : gmap cpm_var value;    (* the value slots of the variable objects *)
}.

(** [self.mzn_model.add_string(txt)]. *)
Definition add_string (txt : string) : M solver unit :=
  modify (fun s =>
    {| name := name s; mzn_solver := mzn_solver s;
       mzn_model := mzn_model s ++ [txt]; mzn_txt_solve := mzn_txt_solve s;
       _varmap := _varmap s; user_vars := user_vars s;
       cpm_status := cpm_status s; runtime := runtime s;
       objective_value_ := objective_value_ s; _value := _value s |}).
Definition set_txt_solve (txt : string) : M solver unit :=
  modify (fun s =>
    {| name := name s; mzn_solver := mzn_solver s;
       mzn_model := mzn_model s; mzn_txt_solve := txt;
       _varmap := _varmap s; user_vars := user_vars s;
       cpm_status := cpm_status s; runtime := runtime s;
       objective_value_ := objective_value_ s; _value := _value s |}).
Definition set_varmap (k : dict_key) (v : string) : M solver unit :=
  modify (fun s =>
    {| name := name s; mzn_solver := mzn_solver s;
       mzn_model := mzn_model s; mzn_txt_solve := mzn_txt_solve s;
       _varmap := <[k:=v]> (_varmap s); user_vars := user_vars s;
       cpm_status := cpm_status s; runtime := runtime s;
       objective_value_ := objective_value_ s; _value := _value s |}).
Definition update_user_vars (new : list cpm_var) : M solver unit :=
  modify (fun s =>
    {| name := name s; mzn_solver := mzn_solver s;
       mzn_model := mzn_model s; mzn_txt_solve := mzn_txt_solve s;
       _varmap := _varmap s; user_vars := set_update (user_vars s) new;
       cpm_status := cpm_status s; runtime := runtime s;
       objective_value_ := objective_value_ s; _value := _value s |}).
Definition set_status (st : ExitStatus) (rt : option Z) : M solver unit :=
  modify (fun s =>
    {| name := name s; mzn_solver := mzn_solver s;
       mzn_model := mzn_model s; mzn_txt_solve := mzn_txt_solve s;
       _varmap := _varmap s; user_vars := user_vars s;
       cpm_status := st; runtime := rt;
       objective_value_ := objective_value_ s; _value := _value s |}).
Definition set_objective_value (o : option value) : M solver unit :=
  modify (fun s =>
    {| name := name s; mzn_solver := mzn_solver s;
       mzn_model := mzn_model s; mzn_txt_solve := mzn_txt_solve s;
       _varmap := _varmap s; user_vars := user_vars s;
       cpm_status := cpm_status s; runtime := runtime s;
       objective_value_ := o; _value := _value s |}).
Definition set_value (v : cpm_var) (x : value) : M solver unit :=
  modify (fun s =>
    {| name := name s; mzn_solver := mzn_solver s;
       mzn_model := mzn_model s; mzn_txt_solve := mzn_txt_solve s;
       _varmap := _varmap s; user_vars := user_vars s;
       cpm_status := cpm_status s; runtime := runtime s;
       objective_value_ := objective_value_ s;
       _value := <[v:=x]> (_value s) |}).

(** [s.split(sep)] for a one-character separator: never empty. *)
Fixpoint split (sep : ascii) (s : string) : list string :=
  match s with
  | EmptyString => [EmptyString]
  | String c r =>
      if Ascii.eqb c sep then EmptyString :: split sep r
      else match split sep r with
           | x :: xs => String c x :: xs
           | [] => [String c EmptyString]
           end
  end.

(** [solvernames]; [out_lst] holds the [id] of every solver the driver
    reports, in its order. *)
Definition solvernames (out_lst : list string) : list string :=
  List.filter
    (fun name => negb (in_list name ["findmus"; "gist"; "globalizer"]))
    (map (fun id => List.last (split "." id) EmptyString) out_lst).

Definition preamble : string :=
  "% Generated by CPMpy" +:+ nl +:+
  "include " +:+ dquote +:+ "globals.mzn" +:+ dquote +:+ ";" +:+ nl +:+ nl.

(** [__init__] without a model.  The subsolver name is normalised, the
    model starts with the preamble and the solve item is kept apart. *)
Definition __init__ (subsolver : option string) : solver :=
  let subsolver :=
    match subsolver with
    | None => "gecode"
    | Some sub =>
        if (sub =? "minizinc")%string then "gecode"
        else if String.prefix "minizinc:" sub
             then substring 9 (String.length sub - 9) sub
             else sub
    end in
  {| name := "minizinc:" +:+ subsolver; mzn_solver := subsolver;
     mzn_model := [preamble]; mzn_txt_solve := "solve satisfy;";
     _varmap := ∅; user_vars := [];
     cpm_status := NOT_RUN; runtime := None;
     objective_value_ := None; _value := ∅ |}.

(** The name clean-up of [solver_var]. *)
Definition sanitize (varname : string) : string :=
  replace "]" EmptyString
    (replace "[" "_" (replace " " "_" (replace "." "_"
       (replace "," "_" varname)))).

(** [solver_var]: a number is printed; any other hashable object goes
    through the cache, where a variable is found under a key of the same
    name, and is, on a miss, declared if it is a variable and cached under
    its cleaned name. *)
Definition solver_var (cpm_var : expr) : M solver string :=
  match is_num cpm_var with
  | Some _ => ret (num_str cpm_var)
  | None =>
      match cpm_var with
      | PyList _ => raise TypeError          (* unhashable *)
      | _ =>
          s <~ get ;;
          match _varmap s !! key_of cpm_var with
          | Some mzn_var => ret mzn_var
          | None =>
              varname <~ lift_option AttributeError (attr_name cpm_var) ;;
              let mzn_var := sanitize varname in
              match cpm_var with
              | Var v =>
                  if is_BoolVarImpl v then
                    add_string ("var bool: " +:+ mzn_var +:+ ";" +:+ nl)
                  else
                    add_string ("var " +:+ pretty (var_lb v) +:+ ".." +:+
                                pretty (var_ub v) +:+ ": " +:+ mzn_var +:+
                                ";" +:+ nl)
              | _ => ret tt
              end >>>
              set_varmap (key_of cpm_var) mzn_var >>>
              ret mzn_var
          end
      end
  end.

Section Lowering.
Context {U : Upstream}.

(** [str(x)] of a table entry. *)
Definition py_str (e : expr) : string :=
  match e with
  | Num _ | PyBool _ => num_str e
  | Var v => var_name v
  | _ => expr_repr e
  end.

(** The literal matrix of [table]. *)
Definition table_rows (tbl : expr) : M solver string :=
  match tbl with
  | PyList rows =>
      body <~ mapM (fun row =>
                match row with
                | PyList r => ret (join "," (map py_str r) +:+ " |")
                | _ => raise TypeError
                end) rows ;;
      ret ("[|" +:+ nl +:+ join EmptyString body +:+ nl +:+ "|]")
  | _ => raise TypeError
  end.

Definition render_table (str_vars : string) (tbl : expr) : M solver string :=
  str_tbl <~ table_rows tbl ;;
  ret ("table(" +:+ str_vars +:+ ", " +:+ str_tbl +:+ ")").

(** "wrap args that are a subexpression in ()": the test is
    [isinstance(arg, Expression)]. *)
Definition wrap (arg : expr) (arg_str : string) : string :=
  if is_Expression arg then "(" +:+ arg_str +:+ ")" else arg_str.

Definition printmap (op : string) : string :=
  if (op =? "and")%string then "/\"
  else if (op =? "or")%string then "\/"
  else if (op =? "sum")%string then "+"
  else if (op =? "sub")%string then "-"
  else if (op =? "mul")%string then "*"
  else if (op =? "pow")%string then "^"
  else op.

Definition printnary (op : string) : option string :=
  if (op =? "and")%string then Some "forall"
  else if (op =? "or")%string then Some "exists"
  else if (op =? "sum")%string then Some "sum"
  else None.

(** The infix, n-ary and prefix renderings of an operator. *)
Definition render_operator (op : string) (args : list expr)
    (args_str : list string) : string :=
  let op_str := printmap op in
  if (length args_str =? 2)%nat then
    let wrapped := zip_with wrap args args_str in
    default EmptyString (wrapped !! 0%nat) +:+ " " +:+ op_str +:+ " " +:+
    default EmptyString (wrapped !! 1%nat)
  else
    match printnary op with
    | Some nary => nary +:+ "([" +:+ join "," args_str +:+ "])"
    | None => op_str +:+ "(" +:+ join "," args_str +:+ ")"
    end.

Definition print_map (nm : string) : string :=
  if (nm =? "allequal")%string then "all_equal"
  else if (nm =? "xor")%string then "xorall"
  else nm.

Definition is_IntVarImpl_lb0 (e : expr) : bool :=
  match e with Var v => (var_lb v =? 0)%Z | _ => false end.

Definition is_pybool (e : expr) : bool :=
  match e with PyBool _ => true | _ => false end.

(** The let-binding of [element]. *)
Definition render_element (arr : list expr) (args_str : list string)
    : M solver string :=
  let subtype :=
    if forallb (fun v => is_pybool v || (is_Expression v && is_bool v)) arr
    then "bool" else "int" in
  idx <~ lift_option IndexError (args_str !! 1%nat) ;;
  a0 <~ lift_option IndexError (args_str !! 0%nat) ;;
  ret (nl +:+ "    let { array[int] of var " +:+ subtype +:+
       ": arr=array1d(0.." +:+ pretty (Z.of_nat (length arr) - 1) +:+ "," +:+
       a0 +:+ ") } in" +:+ nl +:+ "      arr[" +:+ idx +:+ "]").

(** [_convert_expression]. *)
Fixpoint _convert_expression (expr : expr) : M solver string :=
  match expr with
  | PyList [e] =>
      (* unary special case: carry on with the element, past the list test *)
      match e with
      | PyList _ => raise TypeError
      | _ => _convert_expression e
      end
  | PyList l =>
      expr_str <~ mapM _convert_expression l ;;
      ret ("[" +:+ join "," expr_str +:+ "]")
  | PyBool true => ret "true"
  | PyBool false => ret "false"
  | Var (NegBoolView _ bv) =>
      x <~ solver_var (Var (BoolVarImpl bv)) ;;
      ret ("not " +:+ x)
  | Num _ | Var _ => solver_var expr
  | Comparison op lhs rhs =>
      if (op =? "table")%string then
        str_vars <~ _convert_expression lhs ;;
        render_table str_vars rhs
      else
        l <~ _convert_expression lhs ;;
        r <~ _convert_expression rhs ;;
        ret (wrap lhs l +:+ " " +:+ op +:+ " " +:+ wrap rhs r)
  | Operator op args =>
      if (op =? "table")%string then
        match args with
        | [] => raise IndexError
        | a0 :: rest =>
            str_vars <~ _convert_expression a0 ;;
            tbl <~ lift_option IndexError (rest !! 0%nat) ;;
            render_table str_vars tbl
        end
      else
        args_str <~ mapM _convert_expression args ;;
        s <~ get ;;
        if (name s =? "-")%string then
          a0 <~ lift_option IndexError (args_str !! 0%nat) ;;
          ret ("-" +:+ a0)
        else if (op =? "wsum")%string then
          match args with
          | PyList ws :: rest =>
              w <~ mapM _convert_expression ws ;;
              match rest with
              | PyList xs :: _ =>
                  x <~ mapM _convert_expression xs ;;
                  ret ("sum([" +:+
                       join "," (zip_with (fun wi xi => wi +:+ "*" +:+ xi) w x)
                       +:+ "])")
              | _ :: _ => raise TypeError
              | [] => raise IndexError
              end
          | _ :: _ => raise TypeError
          | [] => raise IndexError
          end
        else ret (render_operator op args args_str)
  | GlobalConstraint nm args =>
      if (nm =? "table")%string then
        match args with
        | [] => raise IndexError
        | a0 :: rest =>
            str_vars <~ _convert_expression a0 ;;
            tbl <~ lift_option IndexError (rest !! 0%nat) ;;
            render_table str_vars tbl
        end
      else
        args_str <~ mapM _convert_expression args ;;
        if (nm =? "element")%string then
          a0 <~ lift_option IndexError (args !! 0%nat) ;;
          match a0 with
          | PyList arr => render_element arr args_str
          | _ => raise TypeError
          end
        else
          args_str <~ (if endswith nm "circuit" &&
                          existsb is_IntVarImpl_lb0 args
                       then mapM (fun e => x <~ _convert_expression e ;;
                                           ret (x +:+ "+1")) args
                       else ret args_str) ;;
          ret (print_map nm +:+ "([" +:+ join "," args_str +:+ "])")
  end.

(** [_post_constraint]: one [constraint] item per posted constraint. *)
Definition _post_constraint (cpm_expr : expr) : M solver unit :=
  txt <~ _convert_expression cpm_expr ;;
  add_string ("constraint " +:+ txt +:+ ";" +:+ nl).

(** Modelled from the spec: [flatlist] of [expressions/utils.py] (not among
    the sources) unpacks a possibly nested list of constraints into one
    flat list. *)
Fixpoint flat (e : expr) : list expr :=
  match e with
  | PyList l => concat (map flat l)
  | _ => [e]
  end.
Definition flatlist (l : list expr) : list expr := concat (map flat l).

Definition __add__ (cpm_con : expr) : M solver unit :=
  update_user_vars (get_variables cpm_con) >>>
  let cpm_con :=
    match is_any_list cpm_con with
    | Some l => flatlist l
    | None => [cpm_con]
    end in
  forM _post_constraint cpm_con.

(** [objective]: the expression is rendered into the solve item; nothing is
    added to the model. *)
Definition objective (expr : expr) (minimize : bool) : M solver unit :=
  update_user_vars (get_variables expr) >>>
  obj <~ _convert_expression expr ;;
  if minimize
  then set_txt_solve ("solve minimize " +:+ obj +:+ ";" +:+ nl)
  else set_txt_solve ("solve maximize " +:+ obj +:+ ";" +:+ nl).

(** ** Solving *)

Section Driver.
Context {T : Type}.

Local Abbreviation kwargs_t := (gmap string (kwarg T)).

(** [_pre_solve]: the solve item goes into a copy of the model, from which
    the instance is made; the object itself is only read. *)
Definition _pre_solve (time_limit : option T) (kwargs : kwargs_t)
    : M solver (kwargs_t * mzn_instance) :=
  let kwargs :=
    match time_limit with
    | Some t => <["timeout" := timedelta t]> kwargs
    | None => kwargs
    end in
  s <~ get ;;
  let copy_model := mzn_model s ++ [mzn_txt_solve s] in
  let mzn_inst :=
    {| inst_solver := mzn_solver s; inst_program := copy_model |} in
  ret (<["output-time" := KwPy (PyBool true)]> kwargs, mzn_inst).

(** [_post_solve]: a new status object, the run time when reported, and
    the translated exit status. *)
Definition _post_solve (mzn_result : mzn_result) : M solver ExitStatus :=
  let rt := statistics_time mzn_result in
  set_status NOT_RUN rt >>>
  match status mzn_result with
  | Status.SATISFIED => set_status FEASIBLE rt >>> ret FEASIBLE
  | Status.ALL_SOLUTIONS => set_status FEASIBLE rt >>> ret FEASIBLE
  | Status.OPTIMAL_SOLUTION => set_status OPTIMAL rt >>> ret OPTIMAL
  | Status.UNSATISFIABLE => set_status UNSATISFIABLE rt >>> ret UNSATISFIABLE
  | Status.ERROR =>
      set_status ERROR rt >>>
      raise (Exception "MiniZinc solver returned with status 'Error'")
  | Status.UNKNOWN => set_status ERROR rt >>> ret ERROR
  | _ => raise NotImplementedError
  end.

(** Reading the solution back into the value slots of the tracked
    variables; a variable the solution does not mention only gets a warning
    printed. *)
Definition fill_values (mznsol : gmap string value) : M solver unit :=
  s <~ get ;;
  forM (fun cpm_var =>
          sol_var <~ solver_var (Var cpm_var) ;;
          match mznsol !! sol_var with
          | Some x => set_value cpm_var x
          | None => ret tt
          end) (user_vars s).

(** [solve]; [mzn_run] is the external compiler and runtime, a function of
    the instance it is started on. *)
Definition solve (time_limit : option T) (kwargs : kwargs_t)
    (mzn_run : mzn_instance -> kwargs_t -> mzn_result) : M solver bool :=
  pre <~ _pre_solve time_limit kwargs ;;
  let mzn_result := mzn_run pre.2 pre.1 in
  st <~ _post_solve mzn_result ;;
  let has_sol := _solve_return st in
  set_objective_value None >>>
  (if has_sol then
     mznsol <~ match solution mzn_result with
               | Some (Solutions l) => lift_option IndexError (last l)
               | Some (Solution m) => ret m
               | None => ret ∅
               end ;;
     fill_values mznsol >>>
     set_objective_value (result_objective mzn_result)
   else ret tt) >>>
  ret has_sol.

(** The loop of [_solveAll] over the results the runtime yields.  It stops
    at a result without solution or at the limit; otherwise it posts the
    nogood, which is the Python built-in [any] of a list of comparison
    objects: [True] unless no variable is tracked.  [display] tells whether
    a display was asked for (what it prints is not part of the object). *)
Fixpoint enumerate (display : bool) (solution_limit : option nat)
    (results : list mzn_result) (solution_count : nat)
    (last : option mzn_result) : M solver (nat * option mzn_result) :=
  match results with
  | [] => ret (solution_count, last)
  | mzn_result :: rest =>
      match solution mzn_result with
      | None => ret (solution_count, Some mzn_result)
      | Some mznsol =>
          (if display then
             fill_values (match mznsol with
                          | Solution m => m
                          | Solutions _ => ∅
                          end)
           else ret tt) >>>
          let solution_count := S solution_count in
          if bool_decide (Some solution_count = solution_limit) then
            ret (solution_count, Some mzn_result)
          else
            s <~ get ;;
            __add__ (PyBool (negb (bool_decide (user_vars s = [])))) >>>
            enumerate display solution_limit rest solution_count
              (Some mzn_result)
      end
  end.

Definition _solveAll (display : bool) (time_limit : option T)
    (solution_limit : option nat) (kwargs : kwargs_t)
    (mzn_solutions : mzn_instance -> kwargs_t -> list mzn_result)
    : M solver nat :=
  pre <~ _pre_solve time_limit kwargs ;;
  let kwargs := <["all_solutions" := KwPy (PyBool true)]> pre.1 in
  r <~ enumerate display solution_limit (mzn_solutions pre.2 kwargs)
         0%nat None ;;
  mzn_result <~ lift_option UnboundLocalError r.2 ;;
  _post_solve mzn_result >>>
  ret r.1.

(** [solveAll] runs the coroutine to completion. *)
Definition solveAll := _solveAll.

(** The sessions a client can produce: a new solver object, then any
    sequence of calls, whatever their outcome. *)
Inductive reachable : solver -> Prop :=
| reach_init subsolver : reachable (__init__ subsolver)
| reach_add s cpm_con :
    reachable s -> reachable (__add__ cpm_con s).2
| reach_objective s expr minimize :
    reachable s -> reachable (objective expr minimize s).2
| reach_solve s time_limit kwargs mzn_run :
    reachable s -> reachable (solve time_limit kwargs mzn_run s).2
| reach_solveAll s display time_limit solution_limit kwargs mzn_solutions :
    reachable s ->
    reachable (solveAll display time_limit solution_limit kwargs
                 mzn_solutions s).2.

End Driver.

End Lowering.

(** The model only gains variable declarations. *)
Definition only_declares (s s' : solver) : Prop :=
  exists decls, mzn_model s' = mzn_model s ++ decls /\
                Forall (fun d => is_declaration d = true) decls.

(** An argument of a binary comparison or operator is put in parentheses
    when it is a variable (a negation view included) or a compound
    expression; numbers, Booleans and lists are not. *)
Definition is_variable (e : expr) : bool :=
  match e with Var _ => true | _ => false end.
Definition is_compound (e : expr) : bool :=
  match e with
  | Operator _ _ | Comparison _ _ _ | GlobalConstraint _ _ => true
  | _ => false
  end.
Definition parenthesized (arg : expr) (txt : string) : string :=
  if is_compound arg || is_variable arg then "(" +:+ txt +:+ ")" else txt.

End MiniZinc.

(** * Inputs in canonical form

    Collaborators that do what the pipeline does on constraints that are
    already flat: the list of constraints is returned unchanged, an
    auxiliary variable is an integer variable with its defining equality,
    and variable objects have no argument list.  They serve to run the two
    back ends on concrete models. *)

Fixpoint vars_of (e : expr) : list cpm_var :=
  match e with
  | Var (NegBoolView _ bv) => [BoolVarImpl bv]
  | Var v => [v]
  | PyList l | Operator _ l | GlobalConstraint _ l => concat (map vars_of l)
  | Comparison _ l r => vars_of l ++ vars_of r
  | _ => []
  end.

Definition aux_var (lb ub : Z) : cpm_var := IntVarImpl lb ub "IV0".

Definition canonical (lb ub : Z) : Upstream := {|
  get_variables := vars_of;
  flatten_constraint := MiniZinc.flat;
  reify_rewrite := id;
  only_numexpr_equality := id;
  only_bv_implies := id;
  flatten_objective := fun e => (e, []);
  get_or_make_var := fun e =>
    (aux_var lb ub, [Comparison "==" e (Var (aux_var lb ub))]);
  decompose := fun _ _ => [];
  var_args := fun _ => None;
  is_bool := fun e => match e with
                      | Var v => is_BoolVarImpl v
                      | Comparison _ _ _ => true
                      | _ => false
                      end;
  expr_repr := fun _ => EmptyString;
|}.

(** * Scenarios

    Scenario E: integer variables [a] and [b] in 0..5, objective
    [minimize sum(\[a,b\])], no constraint; the auxiliary variable of the
    sum ranges over 0..10.  Each back end is a new solver object on which
    the objective has been set. *)

Definition var_a : expr := Var (IntVarImpl 0 5 "a").
Definition var_b : expr := Var (IntVarImpl 0 5 "b").
Definition var_x : expr := Var (BoolVarImpl "x").
Definition sum_a_b : expr := Operator "sum" [var_a; var_b].

Definition glasgow_E : Glasgow.solver :=
  (Glasgow.objective (U:=canonical 0 10) 1 sum_a_b true Glasgow.__init__).2.

Definition minizinc_E : MiniZinc.solver :=
  (MiniZinc.objective (U:=canonical 0 10) sum_a_b true
     (MiniZinc.__init__ None)).2.

(** A reply of the native solver that found a solution in which every
    handle has value 0. *)
Definition all_zero : Glasgow.gcs_reply :=
  {| Glasgow.solutions := 1; Glasgow.solution_value := fun _ => 0 |}.

(** A reply of the runtime that proved the optimum 0. *)
Definition optimum_zero : MiniZinc.mzn_result :=
  {| MiniZinc.status := MiniZinc.Status.OPTIMAL_SOLUTION;
     MiniZinc.solution :=
       Some (MiniZinc.Solution {["a" := VInt 0; "b" := VInt 0]});
     MiniZinc.result_objective := Some (VInt 0);
     MiniZinc.statistics_time := None |}.

(** A model with one Boolean variable, posted as a constraint, and the two
    results an enumeration of it can yield: a solution, then the end. *)
Definition minizinc_x : MiniZinc.solver :=
  (MiniZinc.__add__ (U:=canonical 0 1) var_x (MiniZinc.__init__ None)).2.

Definition x_true : MiniZinc.mzn_result :=
  {| MiniZinc.status := MiniZinc.Status.SATISFIED;
     MiniZinc.solution :=
       Some (MiniZinc.Solution {["x" := VBool true]});
     MiniZinc.result_objective := None;
     MiniZinc.statistics_time := None |}.

Definition no_more : MiniZinc.mzn_result :=
  {| MiniZinc.status := MiniZinc.Status.ALL_SOLUTIONS;
     MiniZinc.solution := None;
     MiniZinc.result_objective := None;
     MiniZinc.statistics_time := None |}.

(** * Reasoning about method bodies *)

Section Keeps.
Context {S : Type} (R : relation S) `{!PreOrder R}.

(** Whatever the outcome, the object after the call is [R]-related to the
    object before it. *)
Definition keeps {A} (m : M S A) : Prop := forall s, R s (m s).2.

Lemma keeps_ret {A} (a : A) : keeps (ret a).
Proof. intros s. reflexivity. Qed.

Lemma keeps_raise {A} (e : exn) : keeps (@raise S A e).
Proof. intros s. reflexivity. Qed.

Lemma keeps_get : keeps get.
Proof. intros s. reflexivity. Qed.

Lemma keeps_lift_option {A} e (o : option A) : keeps (lift_option e o).
Proof. destruct o; [apply keeps_ret | apply keeps_raise]. Qed.

Lemma keeps_modify (f : S -> S) : (forall s, R s (f s)) -> keeps (modify f).
Proof. intros Hf s. apply Hf. Qed.

Lemma keeps_bind {A B} (m : M S A) (k : A -> M S B) :
  keeps m -> (forall a, keeps (k a)) -> keeps (bind m k).
Proof.
  intros Hm Hk s. unfold bind. specialize (Hm s).
  destruct (m s) as [[a|e] s1]; simpl in *; [| done].
  etrans; [exact Hm | apply Hk].
Qed.

Lemma keeps_mapM {A B} (f : A -> M S B) (l : list A) :
  Forall (fun x => keeps (f x)) l -> keeps (mapM f l).
Proof.
  induction 1 as [|x l Hx _ IH]; simpl; [apply keeps_ret |].
  apply keeps_bind; [done | intros y].
  apply keeps_bind; [done | intros ys]. apply keeps_ret.
Qed.

Lemma keeps_forM {A} (f : A -> M S unit) (l : list A) :
  Forall (fun x => keeps (f x)) l -> keeps (forM f l).
Proof.
  induction 1 as [|x l Hx _ IH]; simpl; [apply keeps_ret |].
  apply keeps_bind; [done | intros _; done].
Qed.

End Keeps.

(** The result of a bind whose first part is known. *)
Lemma bind_ok {S A B} (m : M S A) (k : A -> M S B) s a s1 :
  m s = (Ok a, s1) -> bind m k s = k a s1.
Proof. intros E. unfold bind. by rewrite E. Qed.

Lemma bind_raise {S A B} (m : M S A) (k : A -> M S B) s e s1 :
  m s = (Raise e, s1) -> bind m k s = (Raise e, s1).
Proof. intros E. unfold bind. by rewrite E. Qed.

Lemma bind_inv {S A B} (m : M S A) (k : A -> M S B) s b s2 :
  bind m k s = (Ok b, s2) ->
  exists a s1, m s = (Ok a, s1) /\ k a s1 = (Ok b, s2).
Proof.
  unfold bind. destruct (m s) as [[a|e] s1]; [eauto | done].
Qed.

Ltac keeps_step :=
  lazymatch goal with
  | |- keeps _ (bind _ _) => refine (keeps_bind _ _ _ _ _); [| intros ?]
  | |- keeps _ (ret _) => refine (keeps_ret _ _)
  | |- keeps _ (raise _) => refine (keeps_raise _ _)
  | |- keeps _ get => refine (keeps_get _)
  | |- keeps _ (lift_option _ _) => refine (keeps_lift_option _ _ _)
  | |- keeps _ (if ?b then _ else _) => destruct b
  | |- keeps _ (match ?x with _ => _ end) => destruct x
  end.

Create HintDb keeps.

Ltac keeps_auto :=
  repeat first [ assumption | solve [eauto with keeps] | keeps_step
               | progress cbv zeta ].

(** A loop whose body always returns, returns. *)
Lemma forM_ok {S A} (P : S -> Prop) (f : A -> M S unit) (l : list A) s :
  (forall x s, P s -> exists s', f x s = (Ok tt, s') /\ P s') ->
  P s -> exists s', forM f l s = (Ok tt, s') /\ P s'.
Proof.
  intros Hf. revert s. induction l as [|x l IH]; intros s Hs; simpl.
  - by exists s.
  - destruct (Hf x s Hs) as (s1 & E & H1).
    rewrite (bind_ok _ _ _ _ _ E). by apply IH.
Qed.

Module GlasgowProofs.
Import Glasgow.

Lemma solver_var_cached_hit v s h :
  _varmap s !! var_name v = Some h -> solver_var_cached v s = (Ok h, s).
Proof.
  intros E. unfold solver_var_cached, bind, get. by rewrite E.
Qed.

(** The domain handed to [create_integer_variable]. *)
Definition domain_arg (v : cpm_var) : arg :=
  if is_BoolVarImpl v then APy (PyList [Num 0; Num 1])
  else ARange (var_lb v) (var_ub v + 1).

(** The solver object after a cache miss on [v]: one native variable more,
    created under the variable's name and cached. *)
Definition declared (v : cpm_var) (s : solver) : solver :=
  set_varmap (insert (var_name v) (HVar (gcs_fresh s)))
    (set_fresh (S (gcs_fresh s))
       (set_gcs (fun l => l ++ [Call "create_integer_variable"
                                  [domain_arg v; AStr (var_name v)]]) s)).

Lemma solver_var_cached_miss v s :
  _varmap s !! var_name v = None ->
  solver_var_cached v s = (Ok (HVar (gcs_fresh s)), declared v s).
Proof.
  intros E. unfold solver_var_cached, bind, get. rewrite E.
  unfold declared, domain_arg. by destruct (is_BoolVarImpl v).
Qed.

(** Relations on solver objects that every lowering step respects:
    recording a native call, declaring a variable that is not in the
    cache, tracking variables. *)
Class Step (R : relation solver) := {
  step_preorder :: PreOrder R;
  step_native m a s :
    m <> "create_integer_variable" ->
    R s (set_gcs (fun l => l ++ [Call m a]) s);
  step_declared v s :
    is_view v = false -> _varmap s !! var_name v = None ->
    R s (declared v s);
  step_user new s : R s (set_user_vars (fun u => set_update u new) s);
}.

(** The call log only grows. *)
Definition log_grows (s s' : solver) : Prop := gcs s `prefix_of` gcs s'.

Global Instance log_grows_step : Step log_grows.
Proof.
  split; unfold log_grows.
  - split; [intros s; done | intros s1 s2 s3 ? ?; by etrans].
  - intros. simpl. by apply prefix_app_r.
  - intros. simpl. by apply prefix_app_r.
  - done.
Qed.

(** Lowering leaves the status and the objective alone. *)
Definition same_objective (s s' : solver) : Prop :=
  cpm_status s' = cpm_status s /\ has_objective s' = has_objective s /\
  objective_var s' = objective_var s /\
  objective_value_ s' = objective_value_ s.

Global Instance same_objective_step : Step same_objective.
Proof.
  split; unfold same_objective; try done.
  split; [done | intros s1 s2 s3 (?&?&?&?) (?&?&?&?); repeat split; congruence].
Qed.

Lemma solver_var_cached_total v s :
  exists h s1, solver_var_cached v s = (Ok h, s1) /\
               _varmap s1 !! var_name v = Some h.
Proof.
  destruct (_varmap s !! var_name v) as [h|] eqn:E.
  - exists h, s. by rewrite (solver_var_cached_hit _ _ _ E).
  - unfold solver_var_cached, bind, get. rewrite E.
    destruct (is_BoolVarImpl v); simpl; eexists _, _; (split; [reflexivity|]);
      simpl; apply lookup_insert_eq.
Qed.

(** Binding is idempotent: the second call finds the cache entry. *)
Lemma solver_var_cached_twice v s :
  exists h s1, solver_var_cached v s = (Ok h, s1) /\
               solver_var_cached v s1 = (Ok h, s1).
Proof.
  destruct (solver_var_cached_total v s) as (h & s1 & E & L).
  exists h, s1. split; [done |]. by apply solver_var_cached_hit.
Qed.

Lemma solver_var_view n bv :
  solver_var (Var (NegBoolView n bv)) =
  (h <~ solver_var_cached (BoolVarImpl bv) ;; ret (HAddConst (HNeg h) 1)).
Proof. reflexivity. Qed.

Lemma solver_var_twice v s :
  exists h s1, solver_var (Var v) s = (Ok h, s1) /\
               solver_var (Var v) s1 = (Ok h, s1).
Proof.
  destruct v as [n|lb ub n|n bv].
  - apply solver_var_cached_twice.
  - apply solver_var_cached_twice.
  - rewrite solver_var_view.
    destruct (solver_var_cached_twice (BoolVarImpl bv) s) as (h & s1 & E1 & E2).
    exists (HAddConst (HNeg h) 1), s1.
    by rewrite (bind_ok _ _ _ _ _ E1), (bind_ok _ _ _ _ _ E2).
Qed.




Lemma solver_var_atom e s :
  is_atom e -> exists h s1, solver_var e s = (Ok h, s1).
Proof.
  destruct e as [n|b|v| | | |]; try done; intros _.
  - by eexists _, _.
  - by eexists _, _.
  - destruct (solver_var_twice v s) as (h & s1 & E & _). eauto.
Qed.

Lemma solver_vars_atom e :
  is_atom e -> solver_vars e = (h <~ solver_var e ;; ret (H h)).
Proof. by destruct e. Qed.

Ltac run_with E := unfold bind at 1; rewrite ?E; cbn [fst snd].

Section S.
Context {U : Upstream}.

Section Steps.
Context (R : relation solver) `{!Step R}.

Lemma keeps_native m a :
  m <> "create_integer_variable" -> keeps R (native m a).
Proof. intros Hm. apply keeps_modify. intros s. by apply step_native. Qed.
Hint Extern 1 (keeps _ (native _ _)) =>
  apply keeps_native; discriminate : keeps.

Lemma keeps_solver_var_cached v :
  is_view v = false -> keeps R (solver_var_cached v).
Proof.
  intros Hv s. destruct (_varmap s !! var_name v) as [h|] eqn:E.
  - by rewrite (solver_var_cached_hit _ _ _ E).
  - rewrite (solver_var_cached_miss _ _ E). by apply step_declared.
Qed.
Hint Extern 1 (keeps _ (solver_var_cached _)) =>
  apply keeps_solver_var_cached; reflexivity : keeps.

Lemma keeps_solver_var e : keeps R (solver_var e).
Proof. unfold solver_var. keeps_auto. Qed.
Hint Resolve keeps_solver_var : keeps.

Lemma keeps_solver_vars e : keeps R (solver_vars e).
Proof.
  induction e as [| | |l IH| | |] using expr_nested_ind;
    cbn [solver_vars]; keeps_auto.
  refine (keeps_mapM _ _ _ _). exact IH.
Qed.
Hint Resolve keeps_solver_vars : keeps.

Lemma keeps_solver_vars_list l : keeps R (mapM solver_vars l).
Proof.
  refine (keeps_mapM _ _ _ _). apply Forall_forall. intros.
  apply keeps_solver_vars.
Qed.
Hint Resolve keeps_solver_vars_list : keeps.

Lemma keeps_star l : keeps R (star l).
Proof. unfold star. keeps_auto. Qed.
Hint Resolve keeps_star : keeps.

Lemma keeps_item l i : keeps R (item l i).
Proof. unfold item. keeps_auto. Qed.
Hint Resolve keeps_item : keeps.

Lemma keeps_assert b : keeps R (assert b).
Proof. unfold assert. keeps_auto. Qed.
Hint Resolve keeps_assert : keeps.

Lemma keeps_post_reified args : keeps R (post_reified args).
Proof. unfold post_reified. keeps_auto. Qed.

Lemma keeps_post_comparison op lhs rhs : keeps R (post_comparison op lhs rhs).
Proof. unfold post_comparison. keeps_auto. Qed.
Hint Resolve keeps_post_reified keeps_post_comparison : keeps.

Lemma keeps_post_constraint self_add e :
  (forall c, keeps R (self_add c)) -> keeps R (_post_constraint self_add e).
Proof. intros Hs. unfold _post_constraint. keeps_auto. Qed.

Lemma keeps_add depth e : keeps R (__add__ depth e).
Proof.
  revert e. induction depth as [|d IH]; intros e; cbn [__add__].
  - keeps_step; [apply keeps_modify; intros s; apply step_user|].
    refine (keeps_forM _ _ _ _). apply Forall_forall. intros c _.
    apply keeps_post_constraint. intros. keeps_auto.
  - keeps_step; [apply keeps_modify; intros s; apply step_user|].
    refine (keeps_forM _ _ _ _). apply Forall_forall. intros c _.
    by apply keeps_post_constraint.
Qed.
Hint Resolve keeps_add : keeps.
End Steps.

Lemma star3 x y r s h1 s1 h2 s2 hr s3 :
  is_atom x -> is_atom y -> is_atom r ->
  solver_var x s = (Ok h1, s1) ->
  solver_var y s1 = (Ok h2, s2) ->
  solver_var r s2 = (Ok hr, s3) ->
  star [x; y; r] s = (Ok [AH (H h1); AH (H h2); AH (H hr)], s3).
Proof.
  intros Hx Hy Hr E1 E2 E3. unfold star. cbn [mapM].
  rewrite !solver_vars_atom by done.
  unfold bind, ret. rewrite E1, E2, E3. reflexivity.
Qed.

Lemma post_arith self_add kind x y r s h1 s1 h2 s2 hr s3 :
  kind ∈ ["mul"; "div"; "pow"; "mod"] ->
  is_atom x -> is_atom y -> is_atom r ->
  solver_var x s = (Ok h1, s1) ->
  solver_var y s1 = (Ok h2, s2) ->
  solver_var r s2 = (Ok hr, s3) ->
  _post_constraint self_add (Comparison "==" (Operator kind [x; y]) r) s =
    (Ok tt, set_gcs (fun l => l ++ [Call "post_arithmetic"
              [AH (H h1); AH (H h2); AH (H hr); AStr kind]]) s3).
Proof.
  intros Hk Hx Hy Hr E1 E2 E3.
  pose proof (star3 x y r s _ _ _ _ _ _ Hx Hy Hr E1 E2 E3) as St.
  unfold _post_constraint, post_comparison.
  cbn [is_bv is_NumVarImpl attr_name attr_args lift_option].
  repeat (apply elem_of_cons in Hk as [->|Hk]); [..|by apply elem_of_nil in Hk];
    cbn -[star]; unfold bind; rewrite St; reflexivity.
Qed.

Lemma star2 x r s h1 s1 hr s2 :
  is_atom x -> is_atom r ->
  solver_var x s = (Ok h1, s1) ->
  solver_var r s1 = (Ok hr, s2) ->
  star [x; r] s = (Ok [AH (H h1); AH (H hr)], s2).
Proof.
  intros Hx Hr E1 E2. unfold star. cbn [mapM].
  rewrite !solver_vars_atom by done.
  unfold bind, ret. rewrite E1, E2. reflexivity.
Qed.

Lemma post_abs self_add x r s h1 s1 hr s2 :
  is_atom x -> is_atom r ->
  solver_var x s = (Ok h1, s1) ->
  solver_var r s1 = (Ok hr, s2) ->
  _post_constraint self_add (Comparison "==" (Operator "abs" [x]) r) s =
    (Ok tt, set_gcs (fun l => l ++ [Call "post_abs"
              [AH (H h1); AH (H hr)]]) s2).
Proof.
  intros Hx Hr E1 E2.
  pose proof (star2 x r s _ _ _ _ Hx Hr E1 E2) as St.
  unfold _post_constraint, post_comparison.
  cbn -[star]; unfold bind; rewrite St; reflexivity.
Qed.

Lemma post_reified_swap self_add op bv lhs rhs s hb s0 hr s1 hl s2 :
  op = ">=" \/ op = ">" ->
  is_BoolVarImpl bv -> is_atom lhs -> is_atom rhs ->
  solver_var (Var bv) s = (Ok hb, s0) ->
  solver_var rhs s0 = (Ok hr, s1) ->
  solver_var lhs s1 = (Ok hl, s2) ->
  _post_constraint self_add
    (Operator "->" [Var bv; Comparison op lhs rhs]) s =
    (Ok tt, set_gcs (fun l => l ++ [Call "post_compare_less_if"
              [AH (H hr); AH (H hl); AH (H hb);
               APy (PyBool (op =? ">=")%string)]]) s2).
Proof.
  intros Hop Hbv Hl Hr E0 E1 E2. apply Is_true_true in Hbv.
  pose proof (star2 rhs lhs s0 _ _ _ _ Hr Hl E1 E2) as St.
  unfold _post_constraint, post_reified.
  cbn [is_bv String.eqb Ascii.eqb Bool.eqb item lookup list_lookup lift_option].
  unfold bind at 1. cbn [ret]. unfold assert. cbn [is_bv]. rewrite Hbv.
  unfold bind at 1. cbn [ret].
  unfold bind at 1. rewrite E0.
  unfold bind at 1. cbn [ret].
  destruct Hop as [-> | ->]; cbn -[star]; unfold bind; rewrite St; reflexivity.
Qed.

Lemma keeps_make_numexpr R `{!Step R} depth e : keeps R (_make_numexpr depth e).
Proof.
  unfold _make_numexpr. destruct (get_or_make_var e). keeps_auto.
  all: eauto using keeps_solver_var, keeps_add.
Qed.

Lemma objective_log_grows depth e m : keeps log_grows (objective depth e m).
Proof.
  unfold objective. destruct (flatten_objective e) as [flat_obj flat_cons].
  keeps_step; [apply keeps_add, _|].
  keeps_step; [apply keeps_modify; intros s; apply step_user|].
  keeps_step; [apply keeps_make_numexpr, _|].
  keeps_step; [apply keeps_modify; intros s; by unfold log_grows|].
  destruct m; (apply keeps_native; [apply _ | discriminate]).
Qed.

(** What [_make_numexpr] does on a compound expression. *)
Lemma make_numexpr_compound depth e s o s' :
  is_atom e = false ->
  _make_numexpr depth e s = (Ok o, s') ->
  exists s2 h,
    __add__ depth (PyList (get_or_make_var e).2) s = (Ok tt, s2) /\
    solver_var (Var (get_or_make_var e).1) s2 = (Ok h, s') /\
    o = AH (H h).
Proof.
  intros Ha. unfold _make_numexpr.
  destruct (get_or_make_var e) as [obj_var obj_cons]; simpl.
  destruct e; try done; cbn [is_num is_NumVarImpl]; intros E;
    apply bind_inv in E as ([] & s2 & E1 & E);
    apply bind_inv in E as (h & s3 & E2 & E);
    injection E as <- <-; eauto.
Qed.

Lemma objective_compound depth e minimize s s' :
  is_atom (flatten_objective e).1 = false ->
  objective depth e minimize s = (Ok tt, s') ->
  let flat := flatten_objective e in
  let aux := get_or_make_var flat.1 in
  exists s0 s2 h s3,
    __add__ depth (PyList flat.2) s = (Ok tt, s0) /\
    __add__ depth (PyList aux.2)
      (set_user_vars (fun u => set_update u (get_variables flat.1)) s0)
      = (Ok tt, s2) /\
    solver_var (Var aux.1) s2 = (Ok h, s3) /\
    s' = set_gcs (fun l => l ++ [Call (if minimize then "minimise"
                                       else "maximise") [AH (H h)]])
           (set_objective (AH (H h)) s3).
Proof.
  intros Ha E. unfold objective in E.
  destruct (flatten_objective e) as [flat_obj flat_cons]; simpl in *.
  apply bind_inv in E as ([] & s0 & E0 & E).
  apply bind_inv in E as ([] & s1 & E1 & E). injection E1 as <-.
  apply bind_inv in E as (o & s3 & E2 & E).
  apply make_numexpr_compound in E2 as (s2 & h & E2 & E3 & ->); [|done].
  apply bind_inv in E as ([] & s4 & E4 & E). injection E4 as <-.
  exists s0, s2, h, s3. repeat split; try done.
  destruct minimize; by injection E as <-.
Qed.

(** A successful run of the native solver is reported as FEASIBLE, and the
    objective value is read off the objective handle. *)
Lemma solve_feasible {T} kwargs reply s o :
  solutions reply <> 0 ->
  has_objective s = true -> objective_var s = Some o ->
  exists s', solve (T:=T) None kwargs reply s = (Ok true, s') /\
             cpm_status s' = FEASIBLE /\
             objective_value_ s' = Some (solution_value reply o).
Proof.
  intros Hn Ho Hv. unfold solve.
  apply Z.eqb_neq in Hn. rewrite Hn.
  do 3 (erewrite bind_ok by reflexivity).
  cbn [_solve_return cpm_status set_status].
  erewrite bind_ok by reflexivity.
  set (s1 := set_objective_value None _).
  set (body := fun cpm_var : cpm_var => _).
  set (P := fun s : solver => cpm_status s = FEASIBLE /\
              has_objective s = true /\ objective_var s = Some o).
  destruct (forM_ok P body (user_vars s) s1) as (s2 & E & Hs & Ho2 & Hv2).
  { intros v t (H1 & H2 & H3). unfold body.
    destruct (solver_var_twice v t) as (h & t1 & Et & _).
    rewrite (bind_ok _ _ _ _ _ Et). eexists. split; [reflexivity|].
    destruct (keeps_solver_var same_objective (Var v) t) as (? & ? & ? & ?).
    rewrite Et in *. simpl in *. unfold P. simpl. repeat split; congruence. }
  { done. }
  cbn [user_vars set_status set_gcs has_objective objective_var].
  rewrite Ho, Hv. unfold bind at 1. unfold bind at 1. rewrite E.
  eexists. split; [reflexivity|]. simpl. by rewrite Hs.
Qed.

(** Without a time limit the native solver is called first. *)
Lemma solve_calls_native {T} kwargs reply s :
  (gcs s ++ [Call "solve" kwargs]) `prefix_of`
  gcs (solve (T:=T) None kwargs reply s).2.
Proof.
  unfold solve. erewrite bind_ok by reflexivity.
  match goal with
  | |- _ `prefix_of` gcs (?m ?x).2 =>
      assert (keeps log_grows m) as Hk; [| exact (Hk x)]
  end.
  keeps_step; [apply keeps_modify; intros t; by unfold log_grows|].
  keeps_step; [keeps_step|].
  keeps_step; [apply keeps_modify; intros t; by unfold log_grows|].
  keeps_step; [|keeps_step].
  destruct (_solve_return _); [|keeps_step].
  keeps_step.
  - refine (keeps_forM _ _ _ _). apply Forall_forall. intros v _.
    keeps_step; [apply keeps_solver_var, _|].
    apply keeps_modify; intros t; by unfold log_grows.
  - destruct (has_objective a0); [|keeps_step].
    keeps_step; [keeps_step|].
    apply keeps_modify; intros t; by unfold log_grows.
Qed.

End S.
End GlasgowProofs.

Lemma mapM_cons_ok {S A B} (f : A -> M S B) x l s y s1 ys s2 :
  f x s = (Ok y, s1) -> mapM f l s1 = (Ok ys, s2) ->
  mapM f (x :: l) s = (Ok (y :: ys), s2).
Proof.
  intros E1 E2. cbn [mapM]. rewrite (bind_ok _ _ _ _ _ E1).
  by rewrite (bind_ok _ _ _ _ _ E2).
Qed.

Lemma prefix_app p x : String.prefix p (p +:+ x) = true.
Proof.
  induction p as [|c p IH]; simpl; [by destruct x|].
  by destruct (ascii_dec c c).
Qed.

Module MiniZincProofs.
Import MiniZinc.

(** Relations that declaring a variable respects. *)
Class Decl (R : relation solver) := {
  decl_preorder :: PreOrder R;
  decl_add txt s : is_declaration txt = true -> R s (add_string txt s).2;
  decl_varmap k v s : R s (set_varmap k v s).2;
}.

Section Decls.
Context (R : relation solver) `{!Decl R}.

Lemma keeps_declare e : keeps R (solver_var e).
Proof.
  unfold solver_var. keeps_auto.
  all: try (intros s; apply decl_varmap).
  all: intros s; apply decl_add; first [reflexivity | apply (prefix_app "var ")].
Qed.
End Decls.

(** Relations that binding a variable respects. *)
Class Binds (R : relation solver) := {
  binds_preorder :: PreOrder R;
  binds_var v s : R s (solver_var (Var v) s).2;
}.

Global Instance decl_binds (R : relation solver) `{!Decl R} : Binds R.
Proof. split; [apply _ | intros v; apply keeps_declare, _]. Qed.

Section Bindings.
Context (R : relation solver) `{!Binds R}.

Lemma keeps_bind_var v : keeps R (solver_var (Var v)).
Proof. exact (binds_var v). Qed.
Hint Resolve keeps_bind_var : keeps.

Lemma keeps_bind_num n : keeps R (solver_var (Num n)).
Proof. apply keeps_ret, _. Qed.
Hint Resolve keeps_bind_num : keeps.

Context {U : Upstream}.

Lemma keeps_table_rows e : keeps R (table_rows e).
Proof.
  unfold table_rows. keeps_auto.
  refine (keeps_mapM _ _ _ _). apply Forall_forall. intros. keeps_auto.
Qed.
Hint Resolve keeps_table_rows : keeps.

Lemma keeps_render_table v e : keeps R (render_table v e).
Proof. unfold render_table. keeps_auto. Qed.
Hint Resolve keeps_render_table : keeps.

Lemma keeps_render_element a l : keeps R (render_element a l).
Proof. unfold render_element. keeps_auto. Qed.
Hint Resolve keeps_render_element : keeps.

Lemma keeps_convert_list l :
  Forall (fun x => keeps R (_convert_expression x)) l ->
  keeps R (mapM _convert_expression l).
Proof. intros. by refine (keeps_mapM _ _ _ _). Qed.

Lemma keeps_convert_nested e :
  keeps R (_convert_expression e) /\
  match e with
  | PyList l => Forall (fun x => keeps R (_convert_expression x)) l
  | _ => True
  end.
Proof.
  induction e as [n|b|v|l IH|op a IH|op lhs rhs IHl IHr|nm a IH]
    using expr_nested_ind.
  - split; [|done]. cbn. keeps_auto.
  - split; [|done]. destruct b; cbn; keeps_auto.
  - split; [|done]. destruct v; cbn [_convert_expression]; keeps_auto.
  - assert (Forall (fun x => keeps R (_convert_expression x)) l) as Hl
      by (eapply Forall_impl; [exact IH | by intros ? []]).
    split; [|done]. pose proof (keeps_convert_list l Hl) as Hm.
    destruct l as [|e [|e' l']].
    + cbn. keeps_auto.
    + apply Forall_cons in Hl as [He _].
      destruct e; try exact He. cbn. keeps_auto.
    + cbn [_convert_expression]. keeps_auto.
  - assert (Forall (fun x => keeps R (_convert_expression x)) a) as Ha
      by (eapply Forall_impl; [exact IH | by intros ? []]).
    split; [|done]. pose proof (keeps_convert_list a Ha) as Hm.
    cbn [_convert_expression].
    destruct (op =? "table")%string.
    + destruct a as [|a0 rest]; [keeps_auto|].
      apply Forall_cons in Ha as [Ha0 _]. keeps_auto.
    + keeps_step; [exact Hm|]. keeps_step; [keeps_auto|].
      destruct (name a1 =? "-")%string; [keeps_auto|].
      destruct (op =? "wsum")%string; [|keeps_auto].
      destruct a as [|[| | |ws| | |] rest]; try solve [keeps_auto].
      apply Forall_cons in IH as [[_ Hws] IH].
      keeps_step; [by apply keeps_convert_list|].
      destruct rest as [|[| | |xs| | |] rest]; try solve [keeps_auto].
      apply Forall_cons in IH as [[_ Hxs] IH].
      keeps_step; [by apply keeps_convert_list|]. keeps_auto.
  - destruct IHl as [IHl _], IHr as [IHr _]. split; [|done].
    cbn [_convert_expression]. keeps_auto.
  - assert (Forall (fun x => keeps R (_convert_expression x)) a) as Ha
      by (eapply Forall_impl; [exact IH | by intros ? []]).
    split; [|done]. pose proof (keeps_convert_list a Ha) as Hm.
    cbn [_convert_expression].
    destruct (nm =? "table")%string.
    + destruct a as [|a0 rest]; [keeps_auto|].
      apply Forall_cons in Ha as [Ha0 _]. keeps_auto.
    + keeps_step; [exact Hm|].
      destruct (nm =? "element")%string; [keeps_auto|].
      keeps_step; [|keeps_auto].
      destruct (_ && _); [|keeps_auto].
      refine (keeps_mapM _ _ _ _). eapply Forall_impl; [exact Ha|].
      intros x Hx. cbn beta. keeps_auto.
Qed.

Lemma keeps_convert e : keeps R (_convert_expression e).
Proof. apply keeps_convert_nested. Qed.
Hint Resolve keeps_convert : keeps.

Lemma keeps_constraint_item e :
  (forall txt s, is_solve_item txt = false -> R s (add_string txt s).2) ->
  keeps R (_post_constraint e).
Proof.
  intros Ha. unfold _post_constraint. keeps_auto. intros s. by apply Ha.
Qed.
End Bindings.

Global Instance only_declares_decl : Decl only_declares.
Proof.
  split.
  - split.
    + intros s. exists []. by rewrite app_nil_r.
    + intros s1 s2 s3 (d1 & E1 & F1) (d2 & E2 & F2). exists (d1 ++ d2).
      rewrite E2, E1, app_assoc. split; [done | by apply Forall_app].
  - intros txt s Ht. exists [txt]. split; [done | by constructor].
  - intros k v s. exists []. by rewrite app_nil_r.
Qed.

(** Everything but the model and the cache is left alone. *)
Definition same_session (s s' : solver) : Prop :=
  name s' = name s /\ mzn_solver s' = mzn_solver s /\
  mzn_txt_solve s' = mzn_txt_solve s /\ user_vars s' = user_vars s /\
  cpm_status s' = cpm_status s /\ objective_value_ s' = objective_value_ s /\
  runtime s' = runtime s.

Global Instance same_session_decl : Decl same_session.
Proof.
  split; [|done..].
  split; [done|].
  intros s1 s2 s3 (?&?&?&?&?&?&?) (?&?&?&?&?&?&?). repeat split; congruence.
Qed.

(** The session invariant: no fragment of the stored model is a solve
    item, and the solve item kept apart is one. *)
Definition separate_solve (s : solver) : Prop :=
  Forall (fun f => is_solve_item f = false) (mzn_model s) /\
  is_solve_item (mzn_txt_solve s) = true.

Definition keeps_separate (s s' : solver) : Prop :=
  separate_solve s -> separate_solve s'.

Lemma declaration_not_solve txt :
  is_declaration txt = true -> is_solve_item txt = false.
Proof.
  destruct txt as [|c txt]; [done|]. unfold is_declaration, is_solve_item.
  cbn [String.prefix]. destruct (ascii_dec "v" c) as [<-|]; [|done].
  intros _. by destruct (ascii_dec "s" "v").
Qed.

Lemma add_string_separate txt s :
  is_solve_item txt = false -> keeps_separate s (add_string txt s).2.
Proof.
  intros Ht [Hm Hs]. split; [|done]. simpl.
  apply Forall_app. split; [done | by constructor].
Qed.

Global Instance keeps_separate_decl : Decl keeps_separate.
Proof.
  split.
  - split; [intros s H; exact H | intros s1 s2 s3 H1 H2 H; exact (H2 (H1 H))].
  - intros txt s Ht. by apply add_string_separate, declaration_not_solve.
  - intros k v s H. exact H.
Qed.

Ltac same_model := apply keeps_modify; intros ? Hsep; exact Hsep.

Section Methods.
Context {U : Upstream} {T : Type}.

Lemma add_separate c : keeps keeps_separate (__add__ c).
Proof.
  unfold __add__. keeps_step; [same_model|].
  refine (keeps_forM _ _ _ _). apply Forall_forall. intros e _.
  apply keeps_constraint_item; [apply _|]. apply add_string_separate.
Qed.

Lemma objective_separate e m : keeps keeps_separate (objective e m).
Proof.
  unfold objective. keeps_step; [same_model|].
  keeps_step; [apply keeps_convert, _|].
  destruct m; apply keeps_modify; intros s [Hm _]; split; done.
Qed.

(** Relations that reading a solution back respects as well. *)
Class Quiet (R : relation solver) := {
  quiet_binds :: Binds R;
  quiet_status st rt s : R s (set_status st rt s).2;
  quiet_objective_value o s : R s (set_objective_value o s).2;
  quiet_value v x s : R s (set_value v x s).2;
}.

Global Instance keeps_separate_quiet : Quiet keeps_separate.
Proof. split; [apply _ | intros; intros Hsep; exact Hsep..]. Qed.

Global Instance only_declares_quiet : Quiet only_declares.
Proof.
  split; [apply _ | intros; exists []; by rewrite app_nil_r..].
Qed.

Lemma pre_solve_eq (tl : option T) (kw : gmap string (kwarg T)) s :
  exists kw',
    _pre_solve tl kw s =
    (Ok (kw', {| inst_solver := mzn_solver s;
                 inst_program := mzn_model s ++ [mzn_txt_solve s] |}), s).
Proof. unfold _pre_solve. by eexists. Qed.

Section Quiets.
Context (R : relation solver) `{!Quiet R}.

Lemma keeps_post_solve r : keeps R (_post_solve r).
Proof.
  unfold _post_solve. keeps_auto.
  all: apply keeps_modify; intros s; apply quiet_status.
Qed.

Lemma keeps_fill_values m : keeps R (fill_values m).
Proof.
  unfold fill_values. keeps_step; [keeps_step|].
  refine (keeps_forM _ _ _ _). apply Forall_forall. intros v _.
  keeps_step; [apply keeps_bind_var, _|].
  destruct (m !! a0); [|keeps_step]. intros s. apply quiet_value.
Qed.

Lemma keeps_solve (tl : option T) kw run : keeps R (solve tl kw run).
Proof.
  unfold solve. keeps_step.
  { intros s. destruct (pre_solve_eq tl kw s) as [kw' ->]. reflexivity. }
  keeps_step; [apply keeps_post_solve|].
  keeps_step; [apply keeps_modify; intros s; apply quiet_objective_value|].
  keeps_step; [|keeps_step].
  destruct (_solve_return a0); [|keeps_step].
  keeps_step.
  { destruct (solution _) as [[]|]; keeps_auto. }
  keeps_step; [apply keeps_fill_values|].
  apply keeps_modify; intros s; apply quiet_objective_value.
Qed.
End Quiets.

Lemma enumerate_separate d lim rs n last :
  keeps keeps_separate (enumerate d lim rs n last).
Proof.
  revert n last. induction rs as [|r rs IH]; intros n last; cbn [enumerate].
  - keeps_step.
  - destruct (solution r) as [sol|]; [|keeps_step].
    keeps_step.
    { destruct d; [|keeps_step]. apply keeps_fill_values, _. }
    destruct (bool_decide _); [keeps_step|].
    keeps_step; [keeps_step|]. keeps_step; [apply add_separate | apply IH].
Qed.

Lemma solveAll_separate d (tl : option T) lim kw sols :
  keeps keeps_separate (solveAll d tl lim kw sols).
Proof.
  unfold solveAll, _solveAll. keeps_step.
  { intros s. destruct (pre_solve_eq tl kw s) as [kw' ->]. done. }
  keeps_step; [apply enumerate_separate|].
  keeps_step; [keeps_step|].
  keeps_step; [apply keeps_post_solve, _ | keeps_step].
Qed.

End Methods.
Lemma solver_var_hit v s n :
  _varmap s !! KName (var_name v) = Some n ->
  solver_var (Var v) s = (Ok n, s).
Proof.
  intros E. unfold solver_var. cbn [is_num key_of].
  unfold bind, get. by rewrite E.
Qed.

Lemma solver_var_total v s :
  exists n s1, solver_var (Var v) s = (Ok n, s1) /\
               _varmap s1 !! KName (var_name v) = Some n.
Proof.
  destruct (_varmap s !! KName (var_name v)) as [n|] eqn:E.
  - exists n, s. by rewrite (solver_var_hit _ _ _ E).
  - unfold solver_var. cbn [is_num attr_name lift_option key_of].
    unfold bind, get. rewrite E. cbn [ret].
    destruct (is_BoolVarImpl v); simpl; eexists _, _;
      (split; [reflexivity|]); simpl; apply lookup_insert_eq.
Qed.

Lemma declare_twice v s :
  exists n s1, solver_var (Var v) s = (Ok n, s1) /\
               solver_var (Var v) s1 = (Ok n, s1).
Proof.
  destruct (solver_var_total v s) as (n & s1 & E & L).
  exists n, s1. split; [done |]. by apply solver_var_hit.
Qed.


Section Rendering.
Context {U : Upstream}.


Lemma wrap_parenthesized arg txt : wrap arg txt = parenthesized arg txt.
Proof. by destruct arg. Qed.

Lemma convert_comparison op lhs rhs s l s1 r s2 :
  op <> "table" ->
  _convert_expression lhs s = (Ok l, s1) ->
  _convert_expression rhs s1 = (Ok r, s2) ->
  _convert_expression (Comparison op lhs rhs) s =
    (Ok (parenthesized lhs l +:+ " " +:+ op +:+ " " +:+ parenthesized rhs r),
     s2).
Proof.
  intros Hop E1 E2. cbn [_convert_expression].
  apply String.eqb_neq in Hop. rewrite Hop.
  rewrite (bind_ok _ _ _ _ _ E1), (bind_ok _ _ _ _ _ E2).
  by rewrite !wrap_parenthesized.
Qed.

Lemma convert_binary op a b s l s1 r s2 :
  op <> "table" -> op <> "wsum" -> name s <> "-" ->
  _convert_expression a s = (Ok l, s1) ->
  _convert_expression b s1 = (Ok r, s2) ->
  _convert_expression (Operator op [a; b]) s =
    (Ok (parenthesized a l +:+ " " +:+ printmap op +:+ " " +:+
         parenthesized b r), s2).
Proof.
  intros Hop Hw Hn E1 E2. cbn [_convert_expression mapM].
  apply String.eqb_neq in Hop, Hw. rewrite Hop.
  assert (name s2 = name s) as Hn2.
  { pose proof (keeps_convert same_session a s) as (N1 & _).
    pose proof (keeps_convert same_session b s1) as (N2 & _).
    rewrite E1 in N1. rewrite E2 in N2. simpl in *. congruence. }
  assert (mapM _convert_expression [a; b] s = (Ok [l; r], s2)) as Em.
  { eapply mapM_cons_ok; [exact E1|].
    eapply mapM_cons_ok; [exact E2 | reflexivity]. }
  rewrite (bind_ok _ _ _ _ _ Em).
  erewrite bind_ok by reflexivity. rewrite Hn2.
  apply String.eqb_neq in Hn. rewrite Hn, Hw.
  unfold render_operator. cbn. by rewrite !wrap_parenthesized.
Qed.


Lemma fill_values_ok m s :
  exists s', fill_values m s = (Ok tt, s') /\ cpm_status s' = cpm_status s.
Proof.
  unfold fill_values. erewrite bind_ok by reflexivity.
  apply (forM_ok (fun t => cpm_status t = cpm_status s)); [|done].
  intros v t Ht.
  destruct (solver_var_total v t) as (n & t1 & E & _).
  rewrite (bind_ok _ _ _ _ _ E).
  pose proof (keeps_declare same_session (Var v) t) as (_&_&_&_&C&_).
  rewrite E in C. simpl in C.
  destruct (m !! n); eexists; (split; [reflexivity|]); simpl; congruence.
Qed.

(** An optimal reply is reported as OPTIMAL, with the objective value of
    the reply. *)
Lemma solve_optimal {T} (kw : gmap string (kwarg T)) r m s :
  status r = Status.OPTIMAL_SOLUTION ->
  solution r = Some (Solution m) ->
  exists s', solve None kw (fun _ _ => r) s = (Ok true, s') /\
             cpm_status s' = OPTIMAL /\
             objective_value_ s' = result_objective r.
Proof.
  intros Hst Hsol. unfold solve.
  destruct (pre_solve_eq None kw s) as [kw' E]. rewrite (bind_ok _ _ _ _ _ E).
  cbn [fst snd].
  assert (_post_solve r s =
          (Ok OPTIMAL, (set_status OPTIMAL (statistics_time r) s).2)) as Ep
    by (unfold _post_solve; by rewrite Hst).
  rewrite (bind_ok _ _ _ _ _ Ep). cbn [_solve_return]. rewrite Hsol.
  set (s0 := (set_status OPTIMAL (statistics_time r) s).2).
  destruct (fill_values_ok m (set_objective_value None s0).2)
    as (s2 & Ef & Hc).
  erewrite (bind_ok (set_objective_value None)) by reflexivity.
  assert ((mznsol <~ ret m ;; fill_values mznsol >>>
             set_objective_value (result_objective r))
            (set_objective_value None s0).2 =
          (Ok tt, (set_objective_value (result_objective r) s2).2)) as Eb.
  { erewrite bind_ok by reflexivity. by rewrite (bind_ok _ _ _ _ _ Ef). }
  rewrite (bind_ok _ _ _ _ _ Eb).
  eexists. split; [reflexivity|]. simpl. by rewrite Hc.
Qed.

(** The objective of the DSL back end is rendered in place: the model
    gains declarations only, and the text goes into the solve item. *)
Lemma objective_inline e minimize s :
  only_declares s (objective e minimize s).2 /\
  forall txt s1,
    _convert_expression e (update_user_vars (get_variables e) s).2
      = (Ok txt, s1) ->
    objective e minimize s =
      (Ok tt, (set_txt_solve ("solve " +:+
                 (if minimize then "minimize " else "maximize ") +:+
                 txt +:+ ";" +:+ nl) s1).2).
Proof.
  split.
  - revert s. change (keeps only_declares (objective e minimize)).
    unfold objective. keeps_step.
    { apply keeps_modify. intros s. exists []. by rewrite app_nil_r. }
    keeps_step; [apply keeps_convert, _|].
    destruct minimize; apply keeps_modify; intros s; exists [];
      by rewrite app_nil_r.
  - intros txt s1 E. unfold objective.
    erewrite bind_ok by reflexivity. rewrite (bind_ok _ _ _ _ _ E).
    by destruct minimize.
Qed.

End Rendering.

End MiniZincProofs.

(** * Sessions

    Invariants of a solver object over its whole life: what holds of a new
    object and is kept by every method, whatever the method's outcome. *)

(** An invariant, as a relation between the object before and after. *)
Definition preserves {S} (I : S -> Prop) : relation S :=
  fun s s' => I s -> I s'.

Global Instance preserves_preorder {S} (I : S -> Prop) :
  PreOrder (preserves I).
Proof.
  split; [intros s H; exact H | intros s1 s2 s3 H1 H2 H; exact (H2 (H1 H))].
Qed.

Lemma in_list_spec x l : in_list x l = true <-> x ∈ l.
Proof.
  unfold in_list. induction l as [|y l IH]; simpl.
  - split; [done | by intros ?%elem_of_nil].
  - rewrite orb_true_iff, IH, elem_of_cons, String.eqb_eq. tauto.
Qed.

Lemma tracked_spec s v : tracked s v = true <-> var_name v ∈ var_name <$> s.
Proof. apply in_list_spec. Qed.

Lemma set_add_names s v n :
  n ∈ var_name <$> set_add s v <-> n ∈ var_name <$> s \/ n = var_name v.
Proof.
  unfold set_add. destruct (tracked s v) eqn:E.
  - apply tracked_spec in E. split; [by left | by intros [?| ->]].
  - rewrite fmap_app, elem_of_app. simpl. by rewrite list_elem_of_singleton.
Qed.

Lemma set_update_names u new n :
  n ∈ var_name <$> set_update u new <->
  n ∈ var_name <$> u \/ n ∈ var_name <$> new.
Proof.
  unfold set_update. revert u. induction new as [|v new IH]; intros u; simpl.
  - split; [by left | by intros [?|?%elem_of_nil]].
  - rewrite IH, set_add_names, elem_of_cons. tauto.
Qed.

Lemma set_update_prefix u new : u `prefix_of` set_update u new.
Proof.
  unfold set_update. revert u. induction new as [|v new IH]; intros u; simpl.
  - done.
  - etrans; [|apply IH]. unfold set_add.
    destruct (tracked u v); [done | by apply prefix_app_r].
Qed.

Lemma set_update_keeps v u new : v ∈ u -> v ∈ set_update u new.
Proof.
  intros Hv. destruct (set_update_prefix u new) as [k ->].
  apply elem_of_app. by left.
Qed.

(** What [update] is given is found in the set afterwards. *)
Lemma set_update_tracked v u new :
  v ∈ new -> tracked (set_update u new) v = true.
Proof.
  intros Hv. apply tracked_spec, set_update_names. right.
  by apply list_elem_of_fmap_2.
Qed.

Lemma tracked_prefix v u u' :
  Forall (fun w => w ∈ u') u -> tracked u v = true -> tracked u' v = true.
Proof.
  rewrite !tracked_spec, Forall_forall. intros Hu Hv.
  apply list_elem_of_fmap in Hv as (w & -> & Hw).
  apply list_elem_of_fmap_2. by apply Hu.
Qed.

Lemma NoDup_set_update u new :
  NoDup (var_name <$> u) -> NoDup (var_name <$> set_update u new).
Proof.
  unfold set_update. revert u. induction new as [|v new IH]; intros u Hu;
    simpl; [done|].
  apply IH. unfold set_add. destruct (tracked u v) eqn:E; [done|].
  rewrite fmap_app. apply NoDup_app. split; [done|]. split.
  - intros n Hn ->%list_elem_of_singleton.
    apply tracked_spec in Hn. congruence.
  - apply NoDup_singleton.
Qed.

Lemma mapM_length {S A B} (f : A -> M S B) l s ys s' :
  mapM f l s = (Ok ys, s') -> length ys = length l.
Proof.
  revert s ys. induction l as [|x l IH]; intros s ys; cbn [mapM].
  - by intros [= <- <-].
  - intros E. apply bind_inv in E as (y & s1 & _ & E).
    apply bind_inv in E as (ys' & s2 & E & [= <- <-]).
    simpl. f_equal. by eapply IH.
Qed.

Module GlasgowSessions.
Import Glasgow GlasgowProofs.

(** Relations that the whole life of a session respects: lowering steps,
    and the attribute updates of [objective] and [solve]. *)
Class Session (R : relation solver) := {
  session_step :: Step R;
  session_objective o s : R s (set_objective o s);
  session_status st s :
    st = FEASIBLE \/ st = UNSATISFIABLE -> R s (set_status st s);
  session_objective_value o s : R s (set_objective_value o s);
  session_value v x s : R s (set_value (insert v x) s);
}.

(** The [self += ...] inside [_post_constraint], at a given depth. *)
Definition self_add {U : Upstream} (depth : nat) : expr -> M solver unit :=
  match depth with
  | O => fun _ => raise RecursionError
  | S d => __add__ d
  end.

(** The constraints [__add__] posts. *)
Definition primitives {U : Upstream} (cpm_con : expr) : list expr :=
  only_bv_implies
    (only_numexpr_equality (reify_rewrite (flatten_constraint cpm_con))).

Lemma add_eq {U : Upstream} depth c s :
  __add__ depth c s =
  forM (_post_constraint (self_add depth)) (primitives c)
    (set_user_vars (fun u => set_update u (get_variables c)) s).
Proof. by destruct depth. Qed.

Section Sessions.
Context {U : Upstream} (R : relation solver) `{!Session R}.

Lemma session_add depth e : keeps R (__add__ depth e).
Proof. apply keeps_add, _. Qed.

Lemma session_post_all depth l :
  keeps R (forM (_post_constraint (self_add depth)) l).
Proof.
  refine (keeps_forM _ _ _ _). apply Forall_forall. intros c _.
  apply keeps_post_constraint; [apply _|]. intros c'.
  destruct depth; [apply keeps_raise, _ | apply session_add].
Qed.

Lemma session_objective_call depth e m : keeps R (objective depth e m).
Proof.
  unfold objective. destruct (flatten_objective e) as [flat_obj flat_cons].
  keeps_step; [apply keeps_add, _|].
  keeps_step; [apply keeps_modify; intros s; apply step_user|].
  keeps_step; [apply keeps_make_numexpr, _|].
  keeps_step; [apply keeps_modify; intros s; apply session_objective|].
  destruct m; (apply keeps_native; [apply _ | discriminate]).
Qed.

Lemma session_solve {T} (tl : option T) kwargs reply :
  keeps R (solve tl kwargs reply).
Proof.
  unfold solve. destruct tl; [keeps_step|].
  keeps_step; [apply keeps_native; [apply _ | discriminate]|].
  keeps_step.
  { apply keeps_modify; intros s; apply session_status.
    destruct (solutions reply =? 0)%Z; auto. }
  keeps_step; [keeps_step|].
  keeps_step; [apply keeps_modify; intros s; apply session_objective_value|].
  keeps_step; [|keeps_step].
  destruct (_solve_return _); [|keeps_step].
  keeps_step.
  - refine (keeps_forM _ _ _ _). apply Forall_forall. intros v _.
    keeps_step; [apply keeps_solver_var, _|].
    apply keeps_modify; intros s; apply session_value.
  - destruct (has_objective _); [|keeps_step].
    keeps_step; [keeps_step|].
    apply keeps_modify; intros s; apply session_objective_value.
Qed.

Lemma reachable_related T s : reachable T s -> R __init__ s.
Proof.
  induction 1 as [|s d c _ IH|s d e m _ IH|s tl kw reply _ IH].
  - reflexivity.
  - etrans; [exact IH | apply session_add].
  - etrans; [exact IH | apply session_objective_call].
  - etrans; [exact IH | apply session_solve].
Qed.
End Sessions.

(** ** The binding cache of a session *)

Definition is_create (c : call) : bool :=
  (method c =? "create_integer_variable")%string.

(** The cache holds native variables only, one per name and none twice,
    each created by the call of its number under the name of its key, and
    every native variable ever created is in it. *)
Record cache_ok (s : solver) : Prop := {
  cache_handles k h :
    _varmap s !! k = Some h -> exists i, h = HVar i /\ (i < gcs_fresh s)%nat;
  cache_injective k1 k2 h :
    _varmap s !! k1 = Some h -> _varmap s !! k2 = Some h -> k1 = k2;
  cache_created_as k i :
    _varmap s !! k = Some (HVar i) ->
    exists dom,
      List.filter is_create (gcs s) !! i =
      Some (Call "create_integer_variable" [dom; AStr k]);
  cache_size : size (_varmap s) = gcs_fresh s;
  cache_created : length (List.filter is_create (gcs s)) = gcs_fresh s;
}.

Global Instance cache_ok_session : Session (preserves cache_ok).
Proof.
  assert (forall s s' : solver,
            _varmap s' = _varmap s -> gcs_fresh s' = gcs_fresh s ->
            gcs s' = gcs s -> preserves cache_ok s s') as Hsame.
  { intros s s' Em Ef Eg [H1 H2 H3 H4 H5].
    split; rewrite ?Em, ?Ef, ?Eg; assumption. }
  split; [split; [apply _| | |]| | | |];
    try (intros; by apply Hsame).
  - intros m a s Hm [H1 H2 H3 H4 H5].
    assert (List.filter is_create (gcs s ++ [Call m a]) =
            List.filter is_create (gcs s)) as Ef.
    { rewrite List.filter_app. simpl. unfold is_create at 2. simpl.
      apply String.eqb_neq in Hm. rewrite Hm. apply app_nil_r. }
    split; simpl; rewrite ?Ef; done.
  - intros v s Hv E [H1 H2 H3 H4 H5].
    assert (List.filter is_create
              (gcs s ++ [Call "create_integer_variable"
                           [domain_arg v; AStr (var_name v)]]) =
            List.filter is_create (gcs s) ++
              [Call "create_integer_variable"
                 [domain_arg v; AStr (var_name v)]]) as Ef
      by (by rewrite List.filter_app).
    split; simpl; rewrite ?Ef.
    + intros k h. destruct (decide (var_name v = k)) as [<-|Hne].
      * rewrite lookup_insert_eq. intros [= <-]. eexists. split; [done|lia].
      * rewrite lookup_insert_ne by done. intros Hw.
        destruct (H1 _ _ Hw) as (i & -> & Hi). eexists. split; [done|lia].
    + intros k1 k2 h.
      destruct (decide (var_name v = k1)) as [<-|Hne1],
               (decide (var_name v = k2)) as [<-|Hne2];
        rewrite ?lookup_insert_eq, ?lookup_insert_ne by done; try done.
      * intros [= <-] Hw. destruct (H1 _ _ Hw) as (i & [= ->] & Hi). lia.
      * intros Hw [= <-]. destruct (H1 _ _ Hw) as (i & [= ->] & Hi). lia.
      * apply H2.
    + intros k i. destruct (decide (var_name v = k)) as [<-|Hne].
      * rewrite lookup_insert_eq. intros [= <-]. exists (domain_arg v).
        rewrite lookup_app_r by (rewrite H5; lia).
        by rewrite H5, Nat.sub_diag.
      * rewrite lookup_insert_ne by done. intros Hk.
        destruct (H1 _ _ Hk) as (i' & [= <-] & Hi).
        destruct (H3 _ _ Hk) as [dom Hd]. exists dom.
        by rewrite lookup_app_l by (rewrite H5; lia).
    + rewrite map_size_insert_None by done. by rewrite H4.
    + rewrite length_app. simpl. lia.
Qed.

(** The call log, the binding cache and the set of tracked variables only
    grow. *)
Record grows (s s' : solver) : Prop := {
  grows_log : gcs s `prefix_of` gcs s';
  grows_cache : _varmap s ⊆ _varmap s';
  grows_user : Forall (fun v => v ∈ user_vars s') (user_vars s);
  grows_fresh : (gcs_fresh s <= gcs_fresh s')%nat;
}.

Global Instance grows_preorder : PreOrder grows.
Proof.
  split.
  - intros s. split; try done. by apply Forall_forall.
  - intros s1 s2 s3 [L1 C1 U1 F1] [L2 C2 U2 F2]. split.
    + by etrans.
    + by etrans.
    + rewrite Forall_forall in *. naive_solver.
    + lia.
Qed.

Global Instance grows_session : Session grows.
Proof.
  assert (forall s s' : solver,
            _varmap s' = _varmap s -> gcs_fresh s' = gcs_fresh s ->
            gcs s' = gcs s -> user_vars s' = user_vars s -> grows s s')
    as Hsame.
  { intros s s' Em Ef Eg Eu. split; rewrite ?Em, ?Ef, ?Eg, ?Eu; try done.
    by apply Forall_forall. }
  split; [split; [apply _| | |]| | | |]; try (intros; by apply Hsame).
  - intros m a s _. split; simpl; try done.
    + by apply prefix_app_r.
    + by apply Forall_forall.
  - intros v s _ E. split; simpl.
    + by apply prefix_app_r.
    + by apply insert_subseteq.
    + by apply Forall_forall.
    + lia.
  - intros new s. split; simpl; try done.
    apply Forall_forall. intros v Hv. by apply set_update_keeps.
Qed.

(** The tracked variables are kept, in the order they came. *)
Definition tracks_on (s s' : solver) : Prop :=
  user_vars s `prefix_of` user_vars s'.

Global Instance tracks_on_session : Session tracks_on.
Proof.
  unfold tracks_on.
  split; [split; [split; [by intros s | intros s1 s2 s3 ? ?; by etrans]| | |]
         | | | |]; try done.
  intros new s. simpl. apply set_update_prefix.
Qed.

(** The stored status is one of the two [solve] translates to, the
    objective flag goes with the objective handle, and the tracked
    variables are a set: no two of them have the same name. *)
Record session_ok (s : solver) : Prop := {
  ok_status :
    cpm_status s = NOT_RUN \/ cpm_status s = FEASIBLE \/
    cpm_status s = UNSATISFIABLE;
  ok_objective : has_objective s = true <-> is_Some (objective_var s);
  ok_user : NoDup (var_name <$> user_vars s);
}.

Global Instance session_ok_session : Session (preserves session_ok).
Proof.
  assert (forall s s' : solver,
            cpm_status s' = cpm_status s ->
            has_objective s' = has_objective s ->
            objective_var s' = objective_var s ->
            user_vars s' = user_vars s -> preserves session_ok s s') as Hsame.
  { intros s s' E1 E2 E3 E4 [H1 H2 H3].
    split; rewrite ?E1, ?E2, ?E3, ?E4; assumption. }
  split; [split; [apply _| | |]| | | |]; try (intros; by apply Hsame).
  - intros new s [H1 H2 H3]. split; try done. simpl.
    by apply NoDup_set_update.
  - intros o s [H1 H2 H3]. split; simpl; try done.
    all: try (split; [by eexists | done]).
  - intros st s Hst [H1 H2 H3]. split; try done. simpl. tauto.
Qed.

(** ** Handles *)

(** The handle of a variable in the cache; derived for a view. *)
Definition handle_of (s : solver) (v : cpm_var) : option handle :=
  match v with
  | NegBoolView _ bv =>
      (fun h => HAddConst (HNeg h) 1) <$> _varmap s !! bv
  | _ => _varmap s !! var_name v
  end.

Lemma handle_of_bound s v h :
  handle_of s v = Some h -> solver_var (Var v) s = (Ok h, s).
Proof.
  destruct v as [n|lb ub n|n bv]; simpl.
  - apply (solver_var_cached_hit (BoolVarImpl n)).
  - apply (solver_var_cached_hit (IntVarImpl lb ub n)).
  - destruct (_varmap s !! bv) as [h'|] eqn:E; [|done].
    intros [= <-]. rewrite solver_var_view.
    by rewrite (bind_ok _ _ _ _ _
                  (solver_var_cached_hit (BoolVarImpl bv) _ _ E)).
Qed.

Lemma handle_of_grows s s' v h :
  _varmap s ⊆ _varmap s' -> handle_of s v = Some h -> handle_of s' v = Some h.
Proof.
  intros Hg. destruct v as [n|lb ub n|n bv]; simpl.
  - intros E. by eapply lookup_weaken.
  - intros E. by eapply lookup_weaken.
  - destruct (_varmap s !! bv) as [h'|] eqn:E; [|done].
    intros [= <-]. by rewrite (lookup_weaken _ _ _ _ E Hg).
Qed.

(** Binding a variable returns its handle in the cache, and touches
    neither the values, the tracked variables nor the objective. *)
Lemma solver_var_handle_of v s :
  exists h t, solver_var (Var v) s = (Ok h, t) /\ handle_of t v = Some h /\
              _varmap s ⊆ _varmap t /\ _value t = _value s /\
              user_vars t = user_vars s /\ same_objective s t.
Proof.
  assert (forall w, exists h t,
             solver_var_cached w s = (Ok h, t) /\
             _varmap t !! var_name w = Some h /\
             _varmap s ⊆ _varmap t /\ _value t = _value s /\
             user_vars t = user_vars s /\ same_objective s t) as Hc.
  { intros w. destruct (_varmap s !! var_name w) as [h|] eqn:E.
    - exists h, s. by rewrite (solver_var_cached_hit _ _ _ E).
    - eexists _, _. split; [by apply solver_var_cached_miss|]. simpl.
      split; [apply lookup_insert_eq|]. split; [|done].
      by apply insert_subseteq. }
  destruct v as [n|lb ub n|n bv].
  - apply (Hc (BoolVarImpl n)).
  - apply (Hc (IntVarImpl lb ub n)).
  - destruct (Hc (BoolVarImpl bv)) as (h & t & E & L & G & V).
    exists (HAddConst (HNeg h) 1), t. rewrite solver_var_view.
    rewrite (bind_ok _ _ _ _ _ E). simpl in *. by rewrite L.
Qed.

Section Values.
Context (reply : gcs_reply).

(** The value slot of [v] holds what the reply gives to its handle. *)
Definition valued (s : solver) (v : cpm_var) : Prop :=
  exists h, handle_of s v = Some h /\
            _value s !! v = Some (solution_value reply (AH (H h))).

(** The body of the loop of [solve]. *)
Definition write_value (cpm_var : cpm_var) : M solver unit :=
  sol_var <~ solver_var (Var cpm_var) ;;
  modify (set_value (insert cpm_var (solution_value reply (AH (H sol_var))))).

Lemma write_value_spec x s :
  exists t, write_value x s = (Ok tt, t) /\ valued t x /\
            (forall v, valued s v -> valued t v) /\
            user_vars t = user_vars s /\ same_objective s t.
Proof.
  destruct (solver_var_handle_of x s) as (hx & t & E & Hx & G & V & Uv & So).
  eexists. unfold write_value. rewrite (bind_ok _ _ _ _ _ E).
  split; [reflexivity|]. split; [|split; [|done]].
  - exists hx. split; [done|]. simpl. apply lookup_insert_eq.
  - intros v (h & Hh & Hv). exists h.
    pose proof (handle_of_grows _ _ _ _ G Hh) as Hh'.
    split; [done|]. simpl. destruct (decide (x = v)) as [->|Hne].
    + rewrite lookup_insert_eq. congruence.
    + rewrite lookup_insert_ne by done. by rewrite V.
Qed.

Lemma write_values_spec l s :
  exists t, forM write_value l s = (Ok tt, t) /\
            (forall v, v ∈ l -> valued t v) /\
            (forall v, valued s v -> valued t v) /\
            user_vars t = user_vars s /\ same_objective s t.
Proof.
  revert s. induction l as [|x l IH]; intros s.
  - exists s. split; [done|]. split; [by intros v Hv%elem_of_nil|done].
  - destruct (write_value_spec x s) as (t1 & E1 & Hx & Hk & U1 & So1).
    destruct (IH t1) as (t & E & Hl & Hk' & U2 & So).
    exists t. cbn [forM]. rewrite (bind_ok _ _ _ _ _ E1).
    split; [exact E|]. split; [|split; [|split]].
    + intros v [->|Hv]%elem_of_cons; [by apply Hk'|by apply Hl].
    + intros v Hv. by apply Hk', Hk.
    + congruence.
    + by etrans.
Qed.

(** A run that found a solution. *)
Lemma solve_found {T} kwargs s :
  solutions reply <> 0 -> session_ok s ->
  exists s', solve (T:=T) None kwargs reply s = (Ok true, s') /\
             cpm_status s' = FEASIBLE /\ user_vars s' = user_vars s /\
             (forall v, v ∈ user_vars s -> valued s' v) /\
             objective_value_ s' = solution_value reply <$> objective_var s.
Proof.
  intros Hn [_ Hobj _]. unfold solve.
  apply Z.eqb_neq in Hn. rewrite Hn.
  do 3 (erewrite bind_ok by reflexivity).
  cbn [_solve_return cpm_status set_status].
  erewrite bind_ok by reflexivity.
  set (s1 := set_objective_value None _).
  destruct (write_values_spec (user_vars s) s1)
    as (s2 & E & Hv & _ & Uv & (St & Ho & Ov & Oval)).
  unfold write_value in E.
  cbn [user_vars set_status set_gcs has_objective objective_var].
  unfold bind at 1. unfold bind at 1. rewrite E.
  destruct (has_objective s) eqn:Hh.
  - destruct (proj1 Hobj eq_refl) as [o Eo]. rewrite Eo.
    eexists. split; [reflexivity|]. simpl. repeat split; try done.
  - destruct (objective_var s) as [o|] eqn:Eo.
    { assert (false = true) by (apply Hobj; by eexists). done. }
    eexists. split; [reflexivity|]. simpl. repeat split; try done.
Qed.
End Values.

End GlasgowSessions.

Module MiniZincSessions.
Import MiniZinc MiniZincProofs.

(** The declaration item of a variable. *)
Definition declaration (v : cpm_var) : string :=
  if is_BoolVarImpl v then
    "var bool: " +:+ sanitize (var_name v) +:+ ";" +:+ nl
  else
    "var " +:+ pretty (var_lb v) +:+ ".." +:+ pretty (var_ub v) +:+ ": " +:+
    sanitize (var_name v) +:+ ";" +:+ nl.

(** The solver object after a cache miss on [v]: its declaration is added
    to the model and its cleaned name is cached. *)
Definition declared (v : cpm_var) (s : solver) : solver :=
  (set_varmap (KName (var_name v)) (sanitize (var_name v))
     (add_string (declaration v) s).2).2.

Lemma solver_var_miss v s :
  _varmap s !! KName (var_name v) = None ->
  solver_var (Var v) s = (Ok (sanitize (var_name v)), declared v s).
Proof.
  intros E. unfold solver_var. cbn [is_num attr_name lift_option key_of].
  unfold bind, get. rewrite E. cbn [ret].
  unfold declared, declaration. by destruct (is_BoolVarImpl v).
Qed.

Definition is_constraint (txt : string) : bool :=
  String.prefix "constraint " txt.

(** Relations that the whole life of a session respects. *)
Class MznSession (R : relation solver) := {
  mzn_preorder :: PreOrder R;
  mzn_declared v s :
    _varmap s !! KName (var_name v) = None -> R s (declared v s);
  mzn_constraint txt s :
    R s (add_string ("constraint " +:+ txt +:+ ";" +:+ nl) s).2;
  mzn_user new s : R s (update_user_vars new s).2;
  mzn_solve_item (minimize : bool) obj s :
    R s (set_txt_solve ("solve " +:+
           (if minimize then "minimize " else "maximize ") +:+
           obj +:+ ";" +:+ nl) s).2;
  mzn_status st rt s : R s (set_status st rt s).2;
  mzn_objective_value o s : R s (set_objective_value o s).2;
  mzn_value v x s : R s (set_value v x s).2;
}.

Global Instance mzn_session_binds (R : relation solver) `{!MznSession R} :
  Binds R.
Proof.
  split; [apply _|]. intros v s.
  destruct (_varmap s !! KName (var_name v)) as [n|] eqn:E.
  - by rewrite (solver_var_hit _ _ _ E).
  - rewrite (solver_var_miss _ _ E). by apply mzn_declared.
Qed.

Global Instance mzn_session_quiet (R : relation solver) `{!MznSession R} :
  Quiet R.
Proof.
  split; [apply _ | apply mzn_status | apply mzn_objective_value
         | apply mzn_value].
Qed.

Section Sessions.
Context {U : Upstream} {T : Type} (R : relation solver) `{!MznSession R}.

Lemma mzn_post_constraint e : keeps R (_post_constraint e).
Proof.
  unfold _post_constraint. keeps_step; [apply keeps_convert, _|].
  intros s. apply mzn_constraint.
Qed.

Lemma mzn_post_all l : keeps R (forM _post_constraint l).
Proof.
  refine (keeps_forM _ _ _ _). apply Forall_forall. intros e _.
  apply mzn_post_constraint.
Qed.

Lemma mzn_add c : keeps R (__add__ c).
Proof.
  unfold __add__. keeps_step; [intros s; apply mzn_user|].
  apply mzn_post_all.
Qed.

Lemma mzn_objective e m : keeps R (objective e m).
Proof.
  unfold objective. keeps_step; [intros s; apply mzn_user|].
  keeps_step; [apply keeps_convert, _|].
  destruct m; intros s.
  - exact (mzn_solve_item true a0 s).
  - exact (mzn_solve_item false a0 s).
Qed.

Lemma mzn_solve (tl : option T) kw run : keeps R (solve tl kw run).
Proof. apply keeps_solve, _. Qed.

Lemma mzn_enumerate d lim rs n last :
  keeps R (enumerate d lim rs n last).
Proof.
  revert n last. induction rs as [|r rs IH]; intros n last; cbn [enumerate].
  - keeps_step.
  - destruct (solution r) as [sol|]; [|keeps_step].
    keeps_step.
    { destruct d; [|keeps_step]. apply keeps_fill_values, _. }
    destruct (bool_decide _); [keeps_step|].
    keeps_step; [keeps_step|]. keeps_step; [apply mzn_add | apply IH].
Qed.

Lemma mzn_solveAll d (tl : option T) lim kw sols :
  keeps R (solveAll d tl lim kw sols).
Proof.
  unfold solveAll, _solveAll. keeps_step.
  { intros s. destruct (pre_solve_eq tl kw s) as [kw' ->]. reflexivity. }
  keeps_step; [apply mzn_enumerate|].
  keeps_step; [keeps_step|].
  keeps_step; [apply keeps_post_solve, _ | keeps_step].
Qed.

Lemma mzn_reachable s :
  reachable (T:=T) s -> exists subsolver, R (__init__ subsolver) s.
Proof.
  induction 1 as [sub|s c _ [sub IH]|s e m _ [sub IH]|s tl kw run _ [sub IH]
                 |s d tl lim kw sols _ [sub IH]]; exists sub.
  - reflexivity.
  - etrans; [exact IH | apply mzn_add].
  - etrans; [exact IH | apply mzn_objective].
  - etrans; [exact IH | apply mzn_solve].
  - etrans; [exact IH | apply mzn_solveAll].
Qed.
End Sessions.

(** ** The stored program *)

Lemma declaration_is_declaration v : is_declaration (declaration v) = true.
Proof.
  unfold declaration. destruct (is_BoolVarImpl v);
    [reflexivity | apply (prefix_app "var ")].
Qed.

Lemma constraint_is_constraint txt :
  is_constraint ("constraint " +:+ txt +:+ ";" +:+ nl) = true.
Proof. apply (prefix_app "constraint "). Qed.

Lemma constraint_not_declaration txt :
  is_declaration ("constraint " +:+ txt +:+ ";" +:+ nl) = false.
Proof. reflexivity. Qed.

Lemma declaration_not_constraint txt :
  is_declaration txt = true -> is_constraint txt = false.
Proof.
  destruct txt as [|c txt]; [done|]. unfold is_declaration, is_constraint.
  cbn [String.prefix]. destruct (ascii_dec "v" c) as [<-|]; [|done].
  intros _. by destruct (ascii_dec "c" "v").
Qed.

(** The program of a session: the preamble, then declarations and
    constraint items; the keys of the cache are names of variables, each
    cached with its cleaned form and declared once in the program, for the
    variable object that was bound first under that name; the solver's
    name is the subsolver's behind [minizinc:]. *)
Record model_ok (s : solver) : Prop := {
  model_items :
    exists items, mzn_model s = preamble :: items /\
      Forall (fun f => is_declaration f || is_constraint f = true) items;
  model_keys k n :
    _varmap s !! k = Some n ->
    exists v, k = KName (var_name v) /\ n = sanitize (var_name v) /\
              declaration v ∈ mzn_model s;
  model_declared :
    length (List.filter is_declaration (mzn_model s)) = size (_varmap s);
  model_name : name s = "minizinc:" +:+ mzn_solver s;
  model_solve_item : is_solve_item (mzn_txt_solve s) = true;
}.

Global Instance model_ok_session : MznSession (preserves model_ok).
Proof.
  assert (forall s s' : solver,
            mzn_model s' = mzn_model s -> _varmap s' = _varmap s ->
            name s' = name s -> mzn_solver s' = mzn_solver s ->
            mzn_txt_solve s' = mzn_txt_solve s -> preserves model_ok s s')
    as Hsame.
  { intros s s' E1 E2 E3 E4 E5 [H1 H2 H3 H4 H5].
    split; rewrite ?E1, ?E2, ?E3, ?E4, ?E5; assumption. }
  split; [apply _|..]; try (intros; by apply Hsame).
  - intros v s E [(items & Em & Hi) H2 H3 H4 H5]. split; simpl; try done.
    + exists (items ++ [declaration v]). rewrite Em. split; [done|].
      apply Forall_app. split; [done|]. constructor; [|done].
      by rewrite declaration_is_declaration.
    + intros e n. destruct (decide (KName (var_name v) = e)) as [<-|Hne].
      * rewrite lookup_insert_eq. intros [= <-]. exists v.
        split; [done|]. split; [done|]. apply elem_of_app. right.
        apply list_elem_of_here.
      * rewrite lookup_insert_ne by done. intros He.
        destruct (H2 _ _ He) as (w & -> & -> & Hin). exists w.
        split; [done|]. split; [done|]. apply elem_of_app. by left.
    + rewrite List.filter_app, length_app. simpl.
      rewrite declaration_is_declaration. simpl.
      rewrite map_size_insert_None by done. lia.
  - intros txt s [(items & Em & Hi) H2 H3 H4 H5]. split; simpl; try done.
    + exists (items ++ ["constraint " +:+ txt +:+ ";" +:+ nl]).
      rewrite Em. split; [done|].
      apply Forall_app. split; [done|]. constructor; [|done].
      rewrite constraint_is_constraint. apply orb_true_r.
    + intros e n He. destruct (H2 _ _ He) as (w & -> & -> & Hin). exists w.
      split; [done|]. split; [done|]. apply elem_of_app. by left.
    + rewrite List.filter_app, length_app. simpl. lia.
  - intros m obj s [H1 H2 H3 H4 H5]. split; simpl; try done.
    apply (prefix_app "solve ").
Qed.

Lemma init_model_ok subsolver : model_ok (__init__ subsolver).
Proof.
  split; simpl; try done.
  exists []. split; [done | constructor].
Qed.

(** The program, the cache and the tracked variables only grow, and the
    solver keeps its name and subsolver. *)
Record mzn_grows (s s' : solver) : Prop := {
  mzn_grows_model : mzn_model s `prefix_of` mzn_model s';
  mzn_grows_cache : _varmap s ⊆ _varmap s';
  mzn_grows_user : Forall (fun v => v ∈ user_vars s') (user_vars s);
  mzn_grows_name : name s' = name s /\ mzn_solver s' = mzn_solver s;
}.

Global Instance mzn_grows_session : MznSession mzn_grows.
Proof.
  assert (forall s s' : solver,
            mzn_model s' = mzn_model s -> _varmap s' = _varmap s ->
            user_vars s' = user_vars s -> name s' = name s ->
            mzn_solver s' = mzn_solver s -> mzn_grows s s') as Hsame.
  { intros s s' E1 E2 E3 E4 E5. split; rewrite ?E1, ?E2, ?E3, ?E4, ?E5;
      try done. by apply Forall_forall. }
  split; try (intros; by apply Hsame).
  - split; [intros s; by apply Hsame|].
    intros s1 s2 s3 [M1 C1 U1 [N1 S1]] [M2 C2 U2 [N2 S2]]. split.
    + by etrans.
    + by etrans.
    + rewrite Forall_forall in *. intros v Hv. by apply U2, U1.
    + split; congruence.
  - intros v s E. split; simpl; try done.
    + by apply prefix_app_r.
    + by apply insert_subseteq.
    + by apply Forall_forall.
  - intros txt s. split; simpl; try done.
    + by apply prefix_app_r.
    + by apply Forall_forall.
  - intros new s. split; simpl; try done.
    apply Forall_forall. intros v Hv. by apply set_update_keeps.
Qed.

End MiniZincSessions.

Module MiniZincRuns.
Import MiniZinc MiniZincProofs MiniZincSessions.

(** What [_pre_solve] hands to the runtime. *)
Definition instance_of (s : solver) : mzn_instance :=
  {| inst_solver := mzn_solver s;
     inst_program := mzn_model s ++ [mzn_txt_solve s] |}.

Definition solve_kwargs {T} (time_limit : option T)
    (kwargs : gmap string (kwarg T)) : gmap string (kwarg T) :=
  <["output-time" := KwPy (PyBool true)]>
    (match time_limit with
     | Some t => <["timeout" := timedelta t]> kwargs
     | None => kwargs
     end).

Lemma pre_solve_run {T} (tl : option T) kw s :
  _pre_solve tl kw s = (Ok (solve_kwargs tl kw, instance_of s), s).
Proof. reflexivity. Qed.

(** The solution [solve] reads the values from: the last one of a list. *)
Definition chosen (r : mzn_result) : option (gmap string value) :=
  match solution r with
  | Some (Solutions l) => last l
  | Some (Solution m) => Some m
  | None => Some ∅
  end.

(** The value slot after reading solution [m] back. *)
Definition read_back (m : gmap string value) (old : gmap cpm_var value)
    (v : cpm_var) : option value :=
  match m !! sanitize (var_name v) with
  | Some x => Some x
  | None => old !! v
  end.

Lemma solver_var_named v s :
  model_ok s ->
  exists t, solver_var (Var v) s = (Ok (sanitize (var_name v)), t) /\
            model_ok t /\ _value t = _value s /\ same_session s t.
Proof.
  intros Hok. destruct (_varmap s !! KName (var_name v)) as [n|] eqn:E.
  - exists s. destruct (model_keys s Hok _ _ E) as (w & [= Hw] & -> & _).
    rewrite (solver_var_hit _ _ _ E). by rewrite Hw.
  - exists (declared v s). rewrite (solver_var_miss _ _ E).
    split; [done|]. split; [|done].
    by apply (mzn_declared (R:=preserves model_ok)).
Qed.

Definition fill_value (mznsol : gmap string value) (cpm_var : cpm_var)
    : M solver unit :=
  sol_var <~ solver_var (Var cpm_var) ;;
  match mznsol !! sol_var with
  | Some x => set_value cpm_var x
  | None => ret tt
  end.

Lemma fill_loop m l s :
  model_ok s ->
  exists s', forM (fill_value m) l s = (Ok tt, s') /\ model_ok s' /\
             same_session s s' /\
             forall v, _value s' !! v =
                       if decide (v ∈ l) then read_back m (_value s) v
                       else _value s !! v.
Proof.
  revert s. induction l as [|x l IH]; intros s Hok.
  - exists s. split; [done|]. split; [done|]. split; [done|].
    intros v. by rewrite decide_False by apply not_elem_of_nil.
  - destruct (solver_var_named x s Hok) as (t & E & Hokt & Vt & St).
    set (s1 := match m !! sanitize (var_name x) with
               | Some y => (set_value x y t).2
               | None => t
               end).
    assert (fill_value m x s = (Ok tt, s1)) as E1.
    { unfold fill_value. rewrite (bind_ok _ _ _ _ _ E). unfold s1.
      by destruct (m !! sanitize (var_name x)). }
    assert (model_ok s1) as Hok1.
    { unfold s1. destruct (m !! sanitize (var_name x)); [|done].
      by apply (mzn_value (R:=preserves model_ok)). }
    assert (same_session s s1) as Ss1.
    { etrans; [exact St|]. unfold s1.
      by destruct (m !! sanitize (var_name x)). }
    destruct (IH s1 Hok1) as (s' & E' & Hok' & Ss' & Hv).
    exists s'. cbn [forM]. rewrite (bind_ok _ _ _ _ _ E1).
    split; [exact E'|]. split; [done|]. split; [by etrans|].
    intros v. rewrite Hv. unfold read_back.
    assert (_value s1 !! v =
            if decide (v = x) then read_back m (_value s) v
            else _value s !! v) as Hs1.
    { unfold s1, read_back. destruct (decide (v = x)) as [->|Hne].
      - destruct (m !! sanitize (var_name x)); simpl;
          [by rewrite lookup_insert_eq | by rewrite Vt].
      - destruct (m !! sanitize (var_name x)); simpl;
          [rewrite lookup_insert_ne by done|]; by rewrite Vt. }
    unfold read_back in Hs1.
    destruct (decide (v ∈ l)) as [Hl|Hl].
    + rewrite decide_True by (by apply elem_of_cons; right).
      destruct (m !! sanitize (var_name v)) eqn:Em; [done|].
      rewrite Hs1. by destruct (decide (v = x)).
    + rewrite Hs1. destruct (decide (v = x)) as [->|Hne].
      * by rewrite decide_True by apply list_elem_of_here.
      * rewrite decide_False; [done|].
        intros [?|?]%elem_of_cons; done.
Qed.

Lemma fill_values_spec m s :
  model_ok s ->
  exists s', fill_values m s = (Ok tt, s') /\ model_ok s' /\
             same_session s s' /\
             forall v, _value s' !! v =
                       if decide (v ∈ user_vars s)
                       then read_back m (_value s) v
                       else _value s !! v.
Proof.
  intros Hok. unfold fill_values. erewrite bind_ok by reflexivity.
  apply (fill_loop m (user_vars s) s Hok).
Qed.

Lemma fill_values_status m s :
  exists s', fill_values m s = (Ok tt, s') /\
             cpm_status s' = cpm_status s /\ runtime s' = runtime s.
Proof.
  unfold fill_values. erewrite bind_ok by reflexivity.
  apply (forM_ok (fun t => cpm_status t = cpm_status s /\
                           runtime t = runtime s)); [|done].
  intros v t [Hc Hr].
  destruct (solver_var_total v t) as (n & t1 & E & _).
  rewrite (bind_ok _ _ _ _ _ E).
  pose proof (keeps_declare same_session (Var v) t) as (_&_&_&_&C&_&R).
  rewrite E in C, R. simpl in C, R.
  destruct (m !! n); eexists; (split; [reflexivity|]); simpl;
    split; congruence.
Qed.

(** [solve], once the status of the run has been translated to one that
    has a solution. *)
Lemma solve_with_solution {T} (tl : option T) kw run s st s0 m s2 :
  let r := run (instance_of s) (solve_kwargs tl kw) in
  _post_solve r s = (Ok st, s0) -> _solve_return st = true ->
  chosen r = Some m ->
  fill_values m (set_objective_value None s0).2 = (Ok tt, s2) ->
  solve tl kw run s =
    (Ok true, (set_objective_value (result_objective r) s2).2).
Proof.
  intros r Ep Hst Hm Ef. unfold solve.
  rewrite (bind_ok _ _ _ _ _ (pre_solve_run tl kw s)). cbn [fst snd].
  fold r. rewrite (bind_ok _ _ _ _ _ Ep). rewrite Hst.
  erewrite (bind_ok (set_objective_value None)) by reflexivity.
  assert ((mznsol <~ match solution r with
                     | Some (Solutions l) => lift_option IndexError (last l)
                     | Some (Solution m) => ret m
                     | None => ret ∅
                     end ;;
           fill_values mznsol >>> set_objective_value (result_objective r))
            (set_objective_value None s0).2 =
          (Ok tt, (set_objective_value (result_objective r) s2).2)) as Eb.
  { unfold chosen in Hm.
    destruct (solution r) as [[m'|l]|]; simplify_eq.
    - erewrite bind_ok by reflexivity. by rewrite (bind_ok _ _ _ _ _ Ef).
    - rewrite Hm. erewrite bind_ok by reflexivity.
      by rewrite (bind_ok _ _ _ _ _ Ef).
    - erewrite bind_ok by reflexivity. by rewrite (bind_ok _ _ _ _ _ Ef). }
  by rewrite (bind_ok _ _ _ _ _ Eb).
Qed.

Lemma solve_empty_solutions {T} (tl : option T) kw run s st s0 :
  let r := run (instance_of s) (solve_kwargs tl kw) in
  _post_solve r s = (Ok st, s0) -> _solve_return st = true ->
  chosen r = None ->
  solve tl kw run s = (Raise IndexError, (set_objective_value None s0).2).
Proof.
  intros r Ep Hst Hm. unfold solve.
  rewrite (bind_ok _ _ _ _ _ (pre_solve_run tl kw s)). cbn [fst snd].
  fold r. rewrite (bind_ok _ _ _ _ _ Ep). rewrite Hst.
  erewrite (bind_ok (set_objective_value None)) by reflexivity.
  unfold chosen in Hm. destruct (solution r) as [[m'|l]|]; simplify_eq.
  rewrite Hm. reflexivity.
Qed.

Lemma solve_without_solution {T} (tl : option T) kw run s st s0 :
  let r := run (instance_of s) (solve_kwargs tl kw) in
  _post_solve r s = (Ok st, s0) -> _solve_return st = false ->
  solve tl kw run s = (Ok false, (set_objective_value None s0).2).
Proof.
  intros r Ep Hst. unfold solve.
  rewrite (bind_ok _ _ _ _ _ (pre_solve_run tl kw s)). cbn [fst snd].
  fold r. rewrite (bind_ok _ _ _ _ _ Ep). rewrite Hst.
  reflexivity.
Qed.

Lemma solve_status_raises {T} (tl : option T) kw run s e s0 :
  let r := run (instance_of s) (solve_kwargs tl kw) in
  _post_solve r s = (Raise e, s0) ->
  solve tl kw run s = (Raise e, s0).
Proof.
  intros r Ep. unfold solve.
  rewrite (bind_ok _ _ _ _ _ (pre_solve_run tl kw s)). cbn [fst snd].
  fold r. by rewrite (bind_raise _ _ _ _ _ Ep).
Qed.

(** ** Enumeration *)

(** The number of results that carry a solution, up to the first that
    does not. *)
Fixpoint found (rs : list mzn_result) : nat :=
  match rs with
  | [] => O
  | r :: rest =>
      match solution r with
      | Some _ => S (found rest)
      | None => O
      end
  end.

(** The count at which the loop stops, from count [n] on. *)
Definition stops_at (lim : option nat) (n k : nat) : nat :=
  match lim with
  | Some L => if (n <? L)%nat && (L <=? n + k)%nat then L else (n + k)%nat
  | None => (n + k)%nat
  end.

Section Enumeration.
Context {U : Upstream}.

Lemma add_nogood b s : exists s', __add__ (PyBool b) s = (Ok tt, s').
Proof.
  destruct b; eexists; unfold __add__; unfold bind at 1;
    unfold update_user_vars at 1, modify at 1; cbn [is_any_list forM];
    unfold _post_constraint; cbn [_convert_expression];
    unfold bind, ret, add_string, modify; reflexivity.
Qed.

Lemma enumerate_count d lim rs n last s :
  exists last' s',
    enumerate d lim rs n last s = (Ok (stops_at lim n (found rs), last'), s') /\
    match last' with
    | Some r => Some r = last \/ r ∈ rs
    | None => rs = [] /\ last = None
    end.
Proof.
  revert n last s. induction rs as [|r rs IH]; intros n last s;
    cbn [enumerate found].
  - exists last, s. split.
    + unfold stops_at, ret. rewrite Nat.add_0_r.
      destruct lim as [L|]; [|done].
      destruct (n <? L)%nat eqn:E1, (L <=? n)%nat eqn:E2; simpl; try done.
      apply Nat.ltb_lt in E1. apply Nat.leb_le in E2. lia.
    + destruct last; [by left | done].
  - destruct (solution r) as [sol|] eqn:Es.
    + assert (exists s1,
                (if d then fill_values (match sol with
                                        | Solution m => m
                                        | Solutions _ => ∅
                                        end)
                 else ret tt) s = (Ok tt, s1)) as [s1 E1].
      { destruct d; [|by eexists].
        destruct (fill_values_ok (match sol with
                                  | Solution m => m
                                  | Solutions _ => ∅
                                  end) s) as (s1 & E & _). by exists s1. }
      rewrite (bind_ok _ _ _ _ _ E1).
      destruct (bool_decide (Some (S n) = lim)) eqn:El.
      * apply bool_decide_eq_true in El. subst lim.
        exists (Some r), s1. split; [|right; apply list_elem_of_here].
        unfold stops_at, ret.
        assert ((n <? S n)%nat && (S n <=? n + S (found rs))%nat = true) as ->;
          [|done].
        apply andb_true_iff. split; [apply Nat.ltb_lt | apply Nat.leb_le]; lia.
      * apply bool_decide_eq_false in El.
        erewrite bind_ok by reflexivity.
        destruct (add_nogood (negb (bool_decide (user_vars s1 = []))) s1)
          as [s2 E2].
        rewrite (bind_ok _ _ _ _ _ E2).
        destruct (IH (S n) (Some r) s2) as (last' & s' & E & Hl).
        exists last', s'. split.
        -- rewrite E. do 3 f_equal. unfold stops_at.
           destruct lim as [L|]; [|lia].
           assert (L <> S n) by congruence.
           destruct (S n <? L)%nat eqn:A1, (L <=? S n + found rs)%nat eqn:A2,
                    (n <? L)%nat eqn:B1, (L <=? n + S (found rs))%nat eqn:B2;
             simpl; try lia;
             repeat match goal with
                    | H : (_ <? _)%nat = true |- _ => apply Nat.ltb_lt in H
                    | H : (_ <? _)%nat = false |- _ => apply Nat.ltb_ge in H
                    | H : (_ <=? _)%nat = true |- _ => apply Nat.leb_le in H
                    | H : (_ <=? _)%nat = false |- _ => apply Nat.leb_gt in H
                    end; lia.
        -- destruct last' as [r'|].
           ++ destruct Hl as [[= ->]|Hl]; right;
                [apply list_elem_of_here | by apply elem_of_cons; right].
           ++ by destruct Hl.
    + exists (Some r), s. split; [|right; apply list_elem_of_here].
      unfold stops_at, ret. rewrite Nat.add_0_r.
      destruct lim as [L|]; [|done].
      destruct (n <? L)%nat eqn:E1, (L <=? n)%nat eqn:E2; simpl; try done.
      apply Nat.ltb_lt in E1. apply Nat.leb_le in E2. lia.
Qed.
End Enumeration.

End MiniZincRuns.

(** * Text *)

Module MiniZincText.
Import MiniZinc.

Lemma chars_app a b :
  list_ascii_of_string (a +:+ b) =
  list_ascii_of_string a ++ list_ascii_of_string b.
Proof. induction a as [|c a IH]; simpl; [done | by rewrite IH]. Qed.

Lemma chars_replace old new s c :
  c ∈ list_ascii_of_string (replace old new s) ->
  (c ∈ list_ascii_of_string s /\ c <> old) \/ c ∈ list_ascii_of_string new.
Proof.
  induction s as [|a s IH]; cbn [replace list_ascii_of_string].
  - by intros ?%elem_of_nil.
  - destruct (Ascii.eqb a old) eqn:E.
    + rewrite chars_app, elem_of_app. intros [H|H]; [by right|].
      destruct (IH H) as [[? ?]|?]; [left | by right].
      split; [by apply elem_of_cons; right | done].
    + apply Ascii.eqb_neq in E. cbn [list_ascii_of_string].
      intros [->|H]%elem_of_cons.
      * left. split; [apply list_elem_of_here | done].
      * destruct (IH H) as [[? ?]|?]; [left | by right].
        split; [by apply elem_of_cons; right | done].
Qed.

Lemma replace_clean old new s :
  old ∉ list_ascii_of_string s -> replace old new s = s.
Proof.
  induction s as [|a s IH]; cbn [replace list_ascii_of_string]; [done|].
  intros Hn. apply not_elem_of_cons in Hn as [Hne Hn].
  assert (Ascii.eqb a old = false) as -> by (apply Ascii.eqb_neq; congruence).
  by rewrite IH.
Qed.

(** The characters [solver_var] cleans a name of. *)
Definition unclean : list ascii := [","; "."; " "; "["; "]"]%char.

Lemma sanitize_chars varname c :
  c ∈ list_ascii_of_string (sanitize varname) -> c ∉ unclean.
Proof.
  unfold sanitize. intros H.
  apply chars_replace in H as [[H N5]|H]; [|by apply elem_of_nil in H].
  assert (c = "_"%char \/
          (c <> "," /\ c <> "." /\ c <> " " /\ c <> "[" /\ c <> "]")%char)
    as Hc.
  { apply chars_replace in H as [[H N4]|H];
      [|left; by apply list_elem_of_singleton in H].
    apply chars_replace in H as [[H N3]|H];
      [|left; by apply list_elem_of_singleton in H].
    apply chars_replace in H as [[H N2]|H];
      [|left; by apply list_elem_of_singleton in H].
    apply chars_replace in H as [[H N1]|H];
      [|left; by apply list_elem_of_singleton in H].
    by right. }
  unfold unclean. rewrite !not_elem_of_cons.
  destruct Hc as [->|(?&?&?&?&?)]; repeat split; try done.
  all: apply not_elem_of_nil.
Qed.

Lemma sanitize_clean varname :
  Forall (fun c => c ∉ unclean) (list_ascii_of_string varname) ->
  sanitize varname = varname.
Proof.
  intros Hc. unfold sanitize.
  assert (forall c, c ∈ unclean -> c ∉ list_ascii_of_string varname) as Hn.
  { intros c Hin Hc'. rewrite Forall_forall in Hc. by apply (Hc c). }
  rewrite (replace_clean "," "_" varname)
    by (apply Hn; unfold unclean; set_solver).
  rewrite (replace_clean "." "_" varname)
    by (apply Hn; unfold unclean; set_solver).
  rewrite (replace_clean " " "_" varname)
    by (apply Hn; unfold unclean; set_solver).
  rewrite (replace_clean "[" "_" varname)
    by (apply Hn; unfold unclean; set_solver).
  apply replace_clean, Hn. unfold unclean. set_solver.
Qed.

Lemma substring_all s : substring 0 (String.length s) s = s.
Proof. induction s as [|c s IH]; simpl; [done | by rewrite IH]. Qed.

Lemma last_elem_of {A} (l : list A) d : l <> [] -> List.last l d ∈ l.
Proof.
  induction l as [|a [|b l] IH]; [done | intros _; apply list_elem_of_here|].
  intros _. apply elem_of_cons. right. by apply IH.
Qed.

Lemma split_nonempty sep s : split sep s <> [].
Proof.
  destruct s as [|c s]; cbn [split]; [done|].
  destruct (Ascii.eqb c sep); [done|]. by destruct (split sep s).
Qed.

Lemma join_split sep s :
  join (String sep EmptyString) (split sep s) = s.
Proof.
  unfold join. induction s as [|c s IH]; cbn [split]; [done|].
  pose proof (split_nonempty sep s) as Hne.
  destruct (Ascii.eqb c sep) eqn:E.
  - apply Ascii.eqb_eq in E as ->.
    destruct (split sep s) as [|x xs]; [done|].
    cbn [String.concat] in *. by rewrite IH.
  - destruct (split sep s) as [|x xs]; [done|].
    destruct xs as [|y ys]; cbn [String.concat] in *; by rewrite <- IH.
Qed.

Lemma split_chars sep s :
  Forall (fun x => sep ∉ list_ascii_of_string x) (split sep s).
Proof.
  induction s as [|c s IH]; cbn [split].
  - constructor; [apply not_elem_of_nil | constructor].
  - destruct (Ascii.eqb c sep) eqn:E.
    + constructor; [apply not_elem_of_nil | done].
    + apply Ascii.eqb_neq in E.
      destruct (split sep s) as [|x xs].
      * constructor; [|constructor]. simpl.
        rewrite not_elem_of_cons. split; [congruence | apply not_elem_of_nil].
      * apply Forall_cons in IH as [Hx Hxs]. constructor; [|done].
        simpl. rewrite not_elem_of_cons. split; [congruence | done].
Qed.

Lemma split_last_suffix sep s :
  exists p, s = p +:+ List.last (split sep s) EmptyString.
Proof.
  induction s as [|c s [p IH]]; cbn [split].
  - by exists EmptyString.
  - pose proof (join_split sep s) as Hj.
    destruct (Ascii.eqb c sep).
    + exists (String c p). destruct (split sep s) as [|x xs] eqn:Es.
      { by apply split_nonempty in Es. }
      change (List.last ("" :: x :: xs) "") with (List.last (x :: xs) "").
      change (String c s = String c (p +:+ List.last (x :: xs) "")).
      by rewrite <- IH.
    + destruct (split sep s) as [|x [|y ys]] eqn:Es.
      * by apply split_nonempty in Es.
      * exists EmptyString. unfold join in Hj. simpl in Hj. by subst x.
      * exists (String c p).
        change (List.last (String c x :: y :: ys) "")
          with (List.last (x :: y :: ys) "").
        change (String c s = String c (p +:+ List.last (x :: y :: ys) "")).
        by rewrite <- IH.
Qed.
End MiniZincText.

(** * Properties of the two back ends *)

Section GlasgowClaims.
Import Glasgow.

(** C1 (reified half, and what the plain half does instead): when a
    comparison [lhs >= rhs] or [lhs > rhs] between atoms is the consequent
    of an implication whose antecedent is a Boolean variable, posting binds
    the antecedent, then [rhs], then [lhs], and emits
    [post_compare_less_if(rhs, lhs, antecedent, flag)] with the inclusive
    flag for [>=] and the strict one for [>].  Posted on its own, the same
    comparison with a variable on the left takes its operands from
    [lhs.args]; a variable object has no such attribute, so the call raises
    AttributeError and nothing is posted. *)
Theorem greater_comparison_lowering (U : Upstream)
    (self_add : expr -> M solver unit) (op : string) (bv v : cpm_var)
    (lhs rhs : expr) (s : solver) :
  op = ">=" \/ op = ">" ->
  is_BoolVarImpl bv -> is_atom lhs -> is_atom rhs ->
  var_args v = None ->
  (exists hb s0 hr s1 hl s2,
      solver_var (Var bv) s = (Ok hb, s0) /\
      solver_var rhs s0 = (Ok hr, s1) /\
      solver_var lhs s1 = (Ok hl, s2) /\
      _post_constraint self_add
        (Operator "->" [Var bv; Comparison op lhs rhs]) s =
      (Ok tt, set_gcs (fun l => l ++ [Call "post_compare_less_if"
                 [AH (H hr); AH (H hl); AH (H hb);
                  APy (PyBool (op =? ">=")%string)]]) s2)) /\
  _post_constraint self_add (Comparison op (Var v) rhs) s =
    (Raise AttributeError, s).
Proof.
  intros Hop Hbv Hl Hr Hv. split.
  - destruct (GlasgowProofs.solver_var_atom (Var bv) s I) as (hb & s0 & E0).
    destruct (GlasgowProofs.solver_var_atom rhs s0 Hr) as (hr & s1 & E1).
    destruct (GlasgowProofs.solver_var_atom lhs s1 Hl) as (hl & s2 & E2).
    exists hb, s0, hr, s1, hl, s2. repeat split; try done.
    eapply GlasgowProofs.post_reified_swap; eauto.
  - unfold _post_constraint, post_comparison.
    cbn [is_bv is_NumVarImpl attr_args].
    assert (is_NumVarImpl rhs || is_number rhs = true) as ->
      by (by destruct rhs).
    rewrite Hv. by destruct Hop as [-> | ->].
Qed.

(** The same, on a new solver: [x -> (a >= b)] and [a >= b]. *)
Lemma greater_comparison_lowering_witness :
  (exists hb s0 hr s1 hl s2,
      solver_var var_x __init__ = (Ok hb, s0) /\
      solver_var var_b s0 = (Ok hr, s1) /\
      solver_var var_a s1 = (Ok hl, s2) /\
      _post_constraint (U:=canonical 0 10) (fun _ => ret tt)
        (Operator "->" [var_x; Comparison ">=" var_a var_b]) __init__ =
      (Ok tt, set_gcs (fun l => l ++ [Call "post_compare_less_if"
                 [AH (H hr); AH (H hl); AH (H hb); APy (PyBool true)]]) s2)) /\
  _post_constraint (U:=canonical 0 10) (fun _ => ret tt)
    (Comparison ">=" var_a var_b) __init__ =
    (Raise AttributeError, __init__).
Proof.
  exact (greater_comparison_lowering (canonical 0 10) (fun _ => ret tt) ">="
           (BoolVarImpl "x") (IntVarImpl 0 5 "a") var_a var_b __init__
           (or_introl eq_refl) I I I eq_refl).
Defined.

(** C9: on the API back end a time limit that is not [None] makes [solve]
    raise NotImplementedError at once: the solver object, and with it the
    log of native calls, is left as it was.  Without a time limit, the
    first thing [solve] does is the native call. *)
Theorem solve_rejects_time_limit (T : Type) (t : T) (kwargs : list arg)
    (reply : gcs_reply) (s : solver) :
  solve (Some t) kwargs reply s = (Raise NotImplementedError, s) /\
  (gcs s ++ [Call "solve" kwargs]) `prefix_of`
    gcs (solve (T:=T) None kwargs reply s).2.
Proof.
  split; [reflexivity|]. apply GlasgowProofs.solve_calls_native.
Qed.

(** C7 as the code has it: an equality whose left-hand side is [mul],
    [div], [pow] or [mod] of two atoms is lowered to the single call
    [post_arithmetic(operand1, operand2, result, kind)], after the three
    operands have been bound in that order; an equality on [abs] goes to
    the dedicated [post_abs(operand, result)]. *)
Theorem arithmetic_equality_lowering (U : Upstream)
    (self_add : expr -> M solver unit) (kind : string) (x y r : expr)
    (s : solver) :
  kind ∈ ["mul"; "div"; "pow"; "mod"] ->
  is_atom x -> is_atom y -> is_atom r ->
  (exists h1 s1 h2 s2 hr s3,
      solver_var x s = (Ok h1, s1) /\
      solver_var y s1 = (Ok h2, s2) /\
      solver_var r s2 = (Ok hr, s3) /\
      _post_constraint self_add (Comparison "==" (Operator kind [x; y]) r) s =
      (Ok tt, set_gcs (fun l => l ++ [Call "post_arithmetic"
                 [AH (H h1); AH (H h2); AH (H hr); AStr kind]]) s3)) /\
  (exists h1 s1 hr s2,
      solver_var x s = (Ok h1, s1) /\
      solver_var r s1 = (Ok hr, s2) /\
      _post_constraint self_add (Comparison "==" (Operator "abs" [x]) r) s =
      (Ok tt, set_gcs (fun l => l ++ [Call "post_abs"
                 [AH (H h1); AH (H hr)]]) s2)).
Proof.
  intros Hk Hx Hy Hr.
  destruct (GlasgowProofs.solver_var_atom x s Hx) as (h1 & s1 & E1). split.
  - destruct (GlasgowProofs.solver_var_atom y s1 Hy) as (h2 & s2 & E2).
    destruct (GlasgowProofs.solver_var_atom r s2 Hr) as (hr & s3 & E3).
    exists h1, s1, h2, s2, hr, s3. repeat split; try done.
    eapply GlasgowProofs.post_arith; eauto.
  - destruct (GlasgowProofs.solver_var_atom r s1 Hr) as (hr & s2 & E2).
    exists h1, s1, hr, s2. repeat split; try done.
    eapply GlasgowProofs.post_abs; eauto.
Qed.

(** The same, on a new solver: [a * b == 3] and [abs(a) == 3]. *)
Lemma arithmetic_equality_lowering_witness :
  (exists h1 s1 h2 s2 hr s3,
      solver_var var_a __init__ = (Ok h1, s1) /\
      solver_var var_b s1 = (Ok h2, s2) /\
      solver_var (Num 3) s2 = (Ok hr, s3) /\
      _post_constraint (U:=canonical 0 10) (fun _ => ret tt)
        (Comparison "==" (Operator "mul" [var_a; var_b]) (Num 3)) __init__ =
      (Ok tt, set_gcs (fun l => l ++ [Call "post_arithmetic"
                 [AH (H h1); AH (H h2); AH (H hr); AStr "mul"]]) s3)) /\
  (exists h1 s1 hr s2,
      solver_var var_a __init__ = (Ok h1, s1) /\
      solver_var (Num 3) s1 = (Ok hr, s2) /\
      _post_constraint (U:=canonical 0 10) (fun _ => ret tt)
        (Comparison "==" (Operator "abs" [var_a]) (Num 3)) __init__ =
      (Ok tt, set_gcs (fun l => l ++ [Call "post_abs"
                 [AH (H h1); AH (H hr)]]) s2)).
Proof.
  refine (arithmetic_equality_lowering (canonical 0 10) (fun _ => ret tt)
            "mul" var_a var_b (Num 3) __init__ _ I I I).
  apply list_elem_of_here.
Defined.

(** C7, counterexample: posting [abs(a) == b] on a new solver declares the
    two variables and calls [post_abs] on their handles; no
    [post_arithmetic] call with opcode [abs] is made. *)
Lemma abs_is_not_an_arithmetic_call :
  let r := _post_constraint (U:=canonical 0 10) (fun _ => ret tt)
             (Comparison "==" (Operator "abs" [var_a]) var_b) __init__ in
  r.1 = Ok tt /\
  gcs r.2 =
    [Call "create_integer_variable" [ARange 0 6; AStr "a"];
     Call "create_integer_variable" [ARange 0 6; AStr "b"];
     Call "post_abs" [AH (H (HVar 0)); AH (H (HVar 1))]] /\
  Forall (fun c => method c <> "post_arithmetic") (gcs r.2).
Proof.
  vm_compute. repeat split; repeat constructor; discriminate.
Qed.


(** C2, counterexample: on the API back end, solving Scenario E with a
    native reply that reports one solution in which everything is 0
    returns [True] with objective value 0, but the status is FEASIBLE, not
    OPTIMAL. *)
Lemma scenario_E_glasgow_is_feasible :
  let r := solve (T:=unit) None [] all_zero glasgow_E in
  r.1 = Ok true /\ cpm_status r.2 = FEASIBLE /\ cpm_status r.2 <> OPTIMAL /\
  objective_value_ r.2 = Some 0.
Proof. vm_compute. repeat split; discriminate. Qed.

(** C2 as the code has it: for Scenario E, the API back end reports any
    run that found a solution as FEASIBLE (its status translation knows
    only FEASIBLE and UNSATISFIABLE), with the value the solution gives to
    the objective handle; the DSL back end reports a reply of status
    OPTIMAL_SOLUTION as OPTIMAL, with the objective value of the reply.
    With a solution of value 0 both return [True] and objective value 0. *)
Theorem scenario_E_solve (T : Type) :
  (forall kwargs reply,
      solutions reply <> 0 ->
      solution_value reply (AH (H (HVar 2))) = 0 ->
      exists s', solve (T:=T) None kwargs reply glasgow_E = (Ok true, s') /\
                 cpm_status s' = FEASIBLE /\
                 objective_value_ s' = Some 0) /\
  (forall (kw : gmap string (MiniZinc.kwarg T)) r m,
      MiniZinc.status r = MiniZinc.Status.OPTIMAL_SOLUTION ->
      MiniZinc.solution r = Some (MiniZinc.Solution m) ->
      MiniZinc.result_objective r = Some (VInt 0) ->
      exists s', MiniZinc.solve None kw (fun _ _ => r) minizinc_E
                   = (Ok true, s') /\
                 MiniZinc.cpm_status s' = OPTIMAL /\
                 MiniZinc.objective_value_ s' = Some (VInt 0)).
Proof.
  split.
  - intros kwargs reply Hn Hv.
    destruct (GlasgowProofs.solve_feasible (T:=T) kwargs reply glasgow_E
                (AH (H (HVar 2))) Hn eq_refl eq_refl) as (s' & E & St & Ov).
    exists s'. by rewrite <- Hv.
  - intros kw r m Hst Hsol Hobj.
    destruct (MiniZincProofs.solve_optimal kw r m minizinc_E Hst Hsol)
      as (s' & E & St & Ov).
    exists s'. by rewrite <- Hobj.
Qed.

(** The same, for a native reply and a runtime reply of value 0. *)
Lemma scenario_E_solve_witness :
  (exists s', solve (T:=unit) None [] all_zero glasgow_E = (Ok true, s') /\
              cpm_status s' = FEASIBLE /\ objective_value_ s' = Some 0) /\
  (exists s', MiniZinc.solve (T:=unit) None ∅ (fun _ _ => optimum_zero)
                minizinc_E = (Ok true, s') /\
              MiniZinc.cpm_status s' = OPTIMAL /\
              MiniZinc.objective_value_ s' = Some (VInt 0)).
Proof.
  split.
  - apply (proj1 (scenario_E_solve unit)); [discriminate | reflexivity].
  - apply (proj2 (scenario_E_solve unit) ∅ optimum_zero
             {["a" := VInt 0; "b" := VInt 0]}); reflexivity.
Defined.

(** C3, counterexample: on the DSL back end, setting the objective
    [sum(\[a,b\])] on a new solver declares [a] and [b] and nothing else:
    no constraint item is added, no auxiliary variable is bound, and the
    solve item holds the rendered sum itself. *)
Lemma minizinc_objective_is_rendered_inline :
  let r := MiniZinc.objective (U:=canonical 0 10) sum_a_b true
             (MiniZinc.__init__ None) in
  r.1 = Ok tt /\
  MiniZinc.mzn_model r.2 =
    [MiniZinc.preamble; "var 0..5: a;" +:+ MiniZinc.nl;
     "var 0..5: b;" +:+ MiniZinc.nl] /\
  MiniZinc.mzn_txt_solve r.2 = "solve minimize (a) + (b);" +:+ MiniZinc.nl /\
  size (MiniZinc._varmap r.2) = 2%nat /\
  MiniZinc._varmap r.2 !! key_of (Var (aux_var 0 10)) = None.
Proof. vm_compute. repeat split. Qed.

(** C3 as the code has it.  API back end: when the flattened objective is
    neither a variable nor a constant and [objective] returns, the
    constraints of the flattening have been posted, then the defining
    constraints of the auxiliary variable through [__add__], the auxiliary
    variable has been bound and its handle is the stored objective; the
    calls made while posting stay in the log, also when the objective is
    set again.  DSL back end: no auxiliary variable and no defining
    constraint; the model gains declarations only and the rendered
    expression becomes the solve item. *)
Theorem objective_materialization (U : Upstream) (depth : nat) (e : expr)
    (minimize : bool) :
  (forall s s',
      is_atom (flatten_objective e).1 = false ->
      objective depth e minimize s = (Ok tt, s') ->
      let flat := flatten_objective e in
      let aux := get_or_make_var flat.1 in
      exists s0 s2 h s3,
        __add__ depth (PyList flat.2) s = (Ok tt, s0) /\
        __add__ depth (PyList aux.2)
          (set_user_vars (fun u => set_update u (get_variables flat.1)) s0)
          = (Ok tt, s2) /\
        solver_var (Var aux.1) s2 = (Ok h, s3) /\
        objective_var s' = Some (AH (H h)) /\ has_objective s' = true /\
        gcs s' = gcs s3 ++ [Call (if minimize then "minimise"
                                  else "maximise") [AH (H h)]] /\
        gcs s2 `prefix_of` gcs s' /\
        forall depth' e' minimize',
          gcs s' `prefix_of` gcs (objective depth' e' minimize' s').2) /\
  (forall s,
      MiniZinc.only_declares s (MiniZinc.objective e minimize s).2 /\
      forall txt s1,
        MiniZinc._convert_expression e
          (MiniZinc.update_user_vars (get_variables e) s).2 = (Ok txt, s1) ->
        MiniZinc.objective e minimize s =
          (Ok tt, (MiniZinc.set_txt_solve ("solve " +:+
                     (if minimize then "minimize " else "maximize ") +:+
                     txt +:+ ";" +:+ MiniZinc.nl) s1).2)).
Proof.
  split.
  - intros s s' Ha E flat aux.
    destruct (GlasgowProofs.objective_compound depth e minimize s s' Ha E)
      as (s0 & s2 & h & s3 & E0 & E2 & E3 & ->).
    exists s0, s2, h, s3. repeat split; try done.
    + pose proof (GlasgowProofs.keeps_solver_var GlasgowProofs.log_grows
                    (Var aux.1) s2) as Hg.
      fold flat aux in E3. rewrite E3 in Hg. unfold GlasgowProofs.log_grows in Hg.
      simpl in *. by apply prefix_app_r.
    + intros. apply GlasgowProofs.objective_log_grows.
  - intros s. apply MiniZincProofs.objective_inline.
Qed.

(** The API half on Scenario E. *)
Lemma objective_materialization_witness :
  exists s0 s2 h s3,
    __add__ (U:=canonical 0 10) 1 (PyList []) __init__ = (Ok tt, s0) /\
    __add__ (U:=canonical 0 10) 1
      (PyList [Comparison "==" sum_a_b (Var (aux_var 0 10))])
      (set_user_vars (fun u => set_update u (vars_of sum_a_b)) s0)
      = (Ok tt, s2) /\
    solver_var (Var (aux_var 0 10)) s2 = (Ok h, s3) /\
    objective_var glasgow_E = Some (AH (H h)) /\
    has_objective glasgow_E = true /\
    gcs glasgow_E = gcs s3 ++ [Call "minimise" [AH (H h)]] /\
    gcs s2 `prefix_of` gcs glasgow_E /\
    forall depth' e' minimize',
      gcs glasgow_E `prefix_of`
      gcs (objective (U:=canonical 0 10) depth' e' minimize' glasgow_E).2.
Proof.
  refine (proj1 (objective_materialization (canonical 0 10) 1 sum_a_b true)
            __init__ glasgow_E _ _); [reflexivity | vm_compute; reflexivity].
Defined.

End GlasgowClaims.

Section MiniZincClaims.
Import MiniZinc.



(** C5: on either back end, binding a variable returns a handle and a
    second binding in the resulting session returns the same handle and
    leaves the solver object as it is: nothing is declared again. *)
Theorem binding_is_idempotent (v : cpm_var) :
  (forall s, exists h s1,
      Glasgow.solver_var (Var v) s = (Ok h, s1) /\
      Glasgow.solver_var (Var v) s1 = (Ok h, s1)) /\
  (forall s, exists x s1,
      solver_var (Var v) s = (Ok x, s1) /\
      solver_var (Var v) s1 = (Ok x, s1)).
Proof.
  split; intros s.
  - apply GlasgowProofs.solver_var_twice.
  - apply MiniZincProofs.declare_twice.
Qed.

(** C6, counterexample: UNBOUNDED is a status of the runtime that the
    table does not translate: [_post_solve] raises NotImplementedError and
    the stored status is the NOT_RUN of the new status object. *)
Lemma unbounded_status_is_not_translated :
  let r := {| status := Status.UNBOUNDED; solution := None;
              result_objective := None; statistics_time := None |} in
  let out := _post_solve r (__init__ None) in
  out.1 = Raise NotImplementedError /\ cpm_status out.2 = NOT_RUN /\
  out.1 <> Ok ERROR /\ cpm_status out.2 <> ERROR.
Proof. vm_compute. repeat split; discriminate. Qed.

(** C6 as the code has it: the status translation of the DSL back end,
    for every status of the runtime and every solver object.  The status
    returned is the status stored: SATISFIED and ALL_SOLUTIONS give
    FEASIBLE, OPTIMAL_SOLUTION gives OPTIMAL, UNSATISFIABLE gives
    UNSATISFIABLE, UNKNOWN gives ERROR; ERROR stores ERROR and raises; the
    two statuses left, UNBOUNDED and UNSAT_OR_UNBOUNDED, raise
    NotImplementedError with NOT_RUN stored.  The run time of the result
    is stored with the status, and nothing else of the solver object
    changes. *)
Theorem status_translation (r : mzn_result) (s : solver) :
  let out := _post_solve r s in
  match status r with
  | Status.SATISFIED | Status.ALL_SOLUTIONS =>
      out.1 = Ok FEASIBLE /\ cpm_status out.2 = FEASIBLE
  | Status.OPTIMAL_SOLUTION =>
      out.1 = Ok OPTIMAL /\ cpm_status out.2 = OPTIMAL
  | Status.UNSATISFIABLE =>
      out.1 = Ok UNSATISFIABLE /\ cpm_status out.2 = UNSATISFIABLE
  | Status.UNKNOWN =>
      out.1 = Ok ERROR /\ cpm_status out.2 = ERROR
  | Status.ERROR =>
      out.1 = Raise (Exception "MiniZinc solver returned with status 'Error'")
      /\ cpm_status out.2 = ERROR
  | Status.UNBOUNDED | Status.UNSAT_OR_UNBOUNDED =>
      out.1 = Raise NotImplementedError /\ cpm_status out.2 = NOT_RUN
  end /\
  runtime out.2 = statistics_time r /\
  name out.2 = name s /\ mzn_solver out.2 = mzn_solver s /\
  mzn_model out.2 = mzn_model s /\ mzn_txt_solve out.2 = mzn_txt_solve s /\
  _varmap out.2 = _varmap s /\ user_vars out.2 = user_vars s /\
  objective_value_ out.2 = objective_value_ s /\ _value out.2 = _value s.
Proof.
  intros out. unfold out, _post_solve.
  destruct (status r); simpl; repeat split.
Qed.

(** C8, counterexample: the comparison [x > 3] with a plain Boolean
    variable [x] is rendered with the variable in parentheses. *)
Lemma plain_variable_is_parenthesized :
  (_convert_expression (U:=canonical 0 1) (Comparison ">" var_x (Num 3))
     (__init__ None)).1 = Ok "(x) > 3".
Proof. vm_compute. reflexivity. Qed.

(** C8 as the code has it: in the rendering of a binary comparison or of a
    binary operator, an argument is put in parentheses exactly when it is
    an expression object, i.e. a variable (negation views included) or a
    compound expression; numbers, Booleans and lists are rendered bare. *)
Theorem binary_arguments_parenthesized (U : Upstream) (op bop : string)
    (lhs rhs : expr) (s s1 s2 : solver) (l r : string) :
  op <> "table" -> bop <> "table" -> bop <> "wsum" -> name s <> "-" ->
  _convert_expression lhs s = (Ok l, s1) ->
  _convert_expression rhs s1 = (Ok r, s2) ->
  _convert_expression (Comparison op lhs rhs) s =
    (Ok (parenthesized lhs l +:+ " " +:+ op +:+ " " +:+ parenthesized rhs r),
     s2) /\
  _convert_expression (Operator bop [lhs; rhs]) s =
    (Ok (parenthesized lhs l +:+ " " +:+ printmap bop +:+ " " +:+
         parenthesized rhs r), s2).
Proof.
  intros Hop Hb Hw Hn E1 E2. split.
  - eapply MiniZincProofs.convert_comparison; eauto.
  - eapply MiniZincProofs.convert_binary; eauto.
Qed.

(** The same, on a new solver: [x > 3] and [x + 3]. *)
Lemma binary_arguments_parenthesized_witness :
  let s := __init__ None in
  let s1 := (_convert_expression (U:=canonical 0 1) var_x s).2 in
  _convert_expression (U:=canonical 0 1) (Comparison ">" var_x (Num 3)) s =
    (Ok ("(x) > 3"), s1) /\
  _convert_expression (U:=canonical 0 1) (Operator "sum" [var_x; Num 3]) s =
    (Ok ("(x) + 3"), s1).
Proof.
  refine (binary_arguments_parenthesized (canonical 0 1) ">" "sum" var_x
            (Num 3) (__init__ None) _ _ "x" "3" _ _ _ _ _ _);
    [discriminate | discriminate | discriminate | discriminate
    | vm_compute; reflexivity | vm_compute; reflexivity].
Defined.

(** C10, counterexample: enumerating the one-variable model with a
    runtime that yields a solution and then the end returns 1, and the
    stored model has gained the nogood, a [constraint] item. *)
Lemma solveAll_changes_the_stored_model :
  let r := solveAll (U:=canonical 0 1) (T:=unit) false None None ∅
             (fun _ _ => [x_true; no_more]) minizinc_x in
  r.1 = Ok 1%nat /\
  mzn_model r.2 = mzn_model minizinc_x ++ ["constraint true;" +:+ nl] /\
  mzn_model r.2 <> mzn_model minizinc_x.
Proof. vm_compute. repeat split. discriminate. Qed.

(** The stored model of a reachable session holds no solve item, and the
    solve item kept apart is one. *)
Lemma reachable_separate (U : Upstream) (T : Type) (s : solver) :
  reachable (U:=U) (T:=T) s -> MiniZincProofs.separate_solve s.
Proof.
  induction 1 as [sub|s c _ IH|s e m _ IH|s tl kw run _ IH
                 |s d tl lim kw sols _ IH].
  - split; [|reflexivity]. by repeat constructor.
  - by apply MiniZincProofs.add_separate.
  - by apply MiniZincProofs.objective_separate.
  - revert IH. apply MiniZincProofs.keeps_solve, _.
  - by apply MiniZincProofs.solveAll_separate.
Qed.

(** C10 as the code has it: in every session, [_pre_solve] puts the solve
    item at the end of a copy of the stored model and leaves the solver
    object as it is, so the generated program holds exactly one solve
    item, in last position; [solve] adds to the stored model at most
    declarations of variables. *)
Theorem one_solve_item_in_last_position (U : Upstream) (T : Type)
    (s : solver) (time_limit : option T) (kwargs : gmap string (kwarg T)) :
  reachable (U:=U) (T:=T) s ->
  let program := mzn_model s ++ [mzn_txt_solve s] in
  (exists kwargs',
      _pre_solve time_limit kwargs s =
      (Ok (kwargs', {| inst_solver := mzn_solver s;
                       inst_program := program |}), s)) /\
  length (List.filter is_solve_item program) = 1%nat /\
  is_solve_item <$> last program = Some true /\
  forall mzn_run, only_declares s (solve time_limit kwargs mzn_run s).2.
Proof.
  intros Hr program. apply reachable_separate in Hr as [Hm Hs].
  split; [apply MiniZincProofs.pre_solve_eq|]. split; [|split].
  - unfold program. rewrite List.filter_app. simpl. rewrite Hs.
    replace (List.filter is_solve_item (mzn_model s)) with (@nil string);
      [done|].
    induction Hm as [|f fs Hf _ IH]; [done|]. simpl. by rewrite Hf.
  - unfold program. by rewrite last_snoc, <- Hs.
  - intros run. apply MiniZincProofs.keeps_solve, _.
Qed.

(** The same, for the session of Scenario E. *)
Lemma one_solve_item_in_last_position_witness :
  let program := mzn_model minizinc_E ++ [mzn_txt_solve minizinc_E] in
  (exists kwargs',
      _pre_solve (T:=unit) None ∅ minizinc_E =
      (Ok (kwargs', {| inst_solver := mzn_solver minizinc_E;
                       inst_program := program |}), minizinc_E)) /\
  length (List.filter is_solve_item program) = 1%nat /\
  is_solve_item <$> last program = Some true /\
  forall mzn_run,
    only_declares minizinc_E (solve (T:=unit) None ∅ mzn_run minizinc_E).2.
Proof.
  exact (one_solve_item_in_last_position (canonical 0 10) unit minizinc_E
           None ∅ (reach_objective _ _ _ (reach_init None))).
Defined.

End MiniZincClaims.

(** * Further properties of the API back end *)

Section GlasgowSessionProperties.
Import Glasgow GlasgowProofs GlasgowSessions.

(** X1: in every session of the API back end, the binding cache, which
    finds a variable by its name, holds handles of native variables only,
    all of them created before; two names never share a handle; the handle
    number [i] was created by the [i]-th [create_integer_variable] call of
    the log, under the name of its key; and the cache has exactly one
    entry per native variable created, which is the number of
    [create_integer_variable] calls in the log. *)
Theorem session_cache_invariant (U : Upstream) (T : Type) (s : solver) :
  reachable T s -> cache_ok s.
Proof.
  intros Hr. apply (reachable_related (preserves cache_ok) T s Hr).
  split; simpl; try done.
Qed.

(** The same, for the session of Scenario E. *)
Lemma session_cache_invariant_witness : cache_ok glasgow_E.
Proof.
  exact (session_cache_invariant (canonical 0 10) unit glasgow_E
           (reach_objective unit _ 1 sum_a_b true (reach_init unit))).
Defined.

(** X2: whatever their outcome, [__add__], [objective] and [solve] only
    extend the log of native calls, the binding cache and the set of
    tracked variables: no call is retracted, no bound variable loses or
    changes its handle, no variable stops being tracked. *)
Theorem methods_only_extend (U : Upstream) (T : Type) (s : solver)
    (depth : nat) (e : expr) (minimize : bool) (time_limit : option T)
    (kwargs : list arg) (reply : gcs_reply) :
  grows s (__add__ depth e s).2 /\
  grows s (objective depth e minimize s).2 /\
  grows s (solve time_limit kwargs reply s).2.
Proof.
  split; [|split].
  - apply session_add, _.
  - apply session_objective_call, _.
  - apply session_solve, _.
Qed.

(** X3: the stored status of a session is NOT_RUN, FEASIBLE or
    UNSATISFIABLE, never OPTIMAL, ERROR or UNKNOWN; the objective flag is
    set exactly when an objective handle is stored; and no variable is
    tracked twice, no two tracked variables having the same name. *)
Theorem session_status_and_objective (U : Upstream) (T : Type) (s : solver) :
  reachable T s -> session_ok s.
Proof.
  intros Hr. apply (reachable_related (preserves session_ok) T s Hr).
  split; simpl.
  - by left.
  - split; [done | by intros [? ?]].
  - constructor.
Qed.

(** The same, for the session of Scenario E. *)
Lemma session_status_and_objective_witness : session_ok glasgow_E.
Proof.
  exact (session_status_and_objective (canonical 0 10) unit glasgow_E
           (reach_objective unit _ 1 sum_a_b true (reach_init unit))).
Defined.

(** X4: the contract of [solve] without time limit, in any session.  When
    the native solver reports no solution, [solve] returns [False], the
    status is UNSATISFIABLE, the objective value is reset to [None] and
    nothing else changes but the log: no value slot is written.  When it
    reports a solution, [solve] returns [True], the status is FEASIBLE,
    every tracked variable is bound and its value slot holds what the
    solution gives to its handle, and the objective value is what the
    solution gives to the stored objective handle, [None] without one. *)
Theorem solve_contract (U : Upstream) (T : Type) (s : solver)
    (kwargs : list arg) (reply : gcs_reply) :
  reachable T s ->
  let r := solve (T:=T) None kwargs reply s in
  if (solutions reply =? 0)%Z then
    r = (Ok false,
         set_objective_value None
           (set_status UNSATISFIABLE
              (set_gcs (fun l => l ++ [Call "solve" kwargs]) s)))
  else
    r.1 = Ok true /\ cpm_status r.2 = FEASIBLE /\
    user_vars r.2 = user_vars s /\
    Forall (fun v => exists h,
              handle_of r.2 v = Some h /\
              _value r.2 !! v = Some (solution_value reply (AH (H h))))
           (user_vars s) /\
    objective_value_ r.2 = solution_value reply <$> objective_var s.
Proof.
  intros Hr r. destruct (solutions reply =? 0)%Z eqn:Hn.
  - unfold r, solve. by rewrite Hn.
  - apply Z.eqb_neq in Hn.
    assert (session_ok s) as Hok.
    { apply (reachable_related (preserves session_ok) T s Hr).
      split; simpl; [by left | split; [done | by intros [? ?]] | constructor]. }
    destruct (solve_found reply (T:=T) kwargs s Hn Hok)
      as (s' & E & St & Uv & Hv & Ov).
    unfold r. rewrite E. simpl. repeat split; try done.
    apply Forall_forall. intros v Hin. by apply Hv.
Qed.

(** The same, for Scenario E and a reply in which everything is 0. *)
Lemma solve_contract_witness :
  let r := solve (T:=unit) None [] all_zero glasgow_E in
  r.1 = Ok true /\ cpm_status r.2 = FEASIBLE /\
  user_vars r.2 = user_vars glasgow_E /\
  Forall (fun v => exists h,
            handle_of r.2 v = Some h /\
            _value r.2 !! v = Some (solution_value all_zero (AH (H h))))
         (user_vars glasgow_E) /\
  objective_value_ r.2 = solution_value all_zero <$> objective_var glasgow_E.
Proof.
  exact (solve_contract (canonical 0 10) unit glasgow_E [] all_zero
           (reach_objective unit _ 1 sum_a_b true (reach_init unit))).
Defined.

End GlasgowSessionProperties.

Section GlasgowPostingProperties.
Import Glasgow GlasgowProofs GlasgowSessions.

(** X5: posting a constraint that is a Boolean variable (or a negation
    view) binds the variable, posts the unit clause [post_or(\[h\])] and
    then raises NotImplementedError, because that branch of
    [_post_constraint] does not return; [__add__] stops there, with the
    clause posted and the constraints after it not posted. *)
Theorem boolean_variable_constraint_raises (U : Upstream) (depth : nat)
    (cpm_con : expr) (v : cpm_var) (rest : list expr) (s : solver) :
  is_BoolVarImpl v = true ->
  only_bv_implies
    (only_numexpr_equality (reify_rewrite (flatten_constraint cpm_con)))
    = Var v :: rest ->
  exists h s1,
    solver_var (Var v)
      (set_user_vars (fun u => set_update u (get_variables cpm_con)) s)
      = (Ok h, s1) /\
    __add__ depth cpm_con s =
      (Raise NotImplementedError,
       set_gcs (fun l => l ++ [Call "post_or" [AH (HL [H h])]]) s1).
Proof.
  intros Hv Hp. rewrite add_eq. unfold primitives. rewrite Hp.
  set (s0 := set_user_vars _ s).
  destruct (solver_var_twice v s0) as (h & s1 & E & _).
  exists h, s1. split; [exact E|]. cbn [forM].
  unfold _post_constraint at 1. cbn [is_bv]. rewrite Hv.
  unfold bind at 1. unfold bind at 1. by rewrite E.
Qed.

(** The same, for the constraint [x] on a new solver. *)
Lemma boolean_variable_constraint_raises_witness :
  exists h s1,
    solver_var var_x
      (set_user_vars (fun u => set_update u (vars_of var_x)) __init__)
      = (Ok h, s1) /\
    __add__ (U:=canonical 0 1) 1 var_x __init__ =
      (Raise NotImplementedError,
       set_gcs (fun l => l ++ [Call "post_or" [AH (HL [H h])]]) s1).
Proof.
  exact (boolean_variable_constraint_raises (canonical 0 1) 1 var_x
           (BoolVarImpl "x") [] __init__ eq_refl eq_refl).
Defined.

(** X6: what [_post_constraint] does not support it rejects with
    NotImplementedError before touching the solver object: an operator
    other than [and], [or] and [->] at top level; a comparison other than
    [==] whose left-hand side is not a variable; an equality whose
    left-hand side is an operator of a kind outside [abs], [mul], [div],
    [pow], [mod], [sub], [sum], [wsum]; a [sum] of fewer than two terms. *)
Theorem unsupported_constraints_change_nothing (U : Upstream)
    (self_add : expr -> M solver unit) (name : string) (args : list expr)
    (lhs rhs : expr) (s : solver) :
  (name ∉ ["and"; "or"; "->"] ->
   _post_constraint self_add (Operator name args) s
     = (Raise NotImplementedError, s)) /\
  (is_NumVarImpl lhs = false -> name <> "==" ->
   _post_constraint self_add (Comparison name lhs rhs) s
     = (Raise NotImplementedError, s)) /\
  (name ∉ ["abs"; "mul"; "div"; "pow"; "mod"; "sub"; "sum"; "wsum"] ->
   _post_constraint self_add (Comparison "==" (Operator name args) rhs) s
     = (Raise NotImplementedError, s)) /\
  ((length args < 2)%nat ->
   _post_constraint self_add (Comparison "==" (Operator "sum" args) rhs) s
     = (Raise NotImplementedError, s)).
Proof.
  repeat split.
  - intros Hn. unfold _post_constraint. cbn [is_bv].
    rewrite !not_elem_of_cons in Hn. destruct Hn as (H1 & H2 & H3 & _).
    apply String.eqb_neq in H1, H2, H3. by rewrite H1, H2, H3.
  - intros Hl Hn. unfold _post_constraint, post_comparison. cbn [is_bv].
    apply String.eqb_neq in Hn. by rewrite Hl, Hn.
  - intros Hn. unfold _post_constraint, post_comparison.
    cbn [is_bv is_NumVarImpl attr_name lift_option].
    rewrite !not_elem_of_cons in Hn.
    destruct Hn as (H1 & H2 & H3 & H4 & H5 & H6 & H7 & H8 & _).
    apply String.eqb_neq in H1, H2, H3, H4, H5, H6, H7, H8.
    change ("==" =? "==")%string with true. cbn iota.
    erewrite bind_ok by reflexivity.
    unfold in_list. cbn [existsb]. by rewrite H1, H2, H3, H4, H5, H6, H7, H8.
  - intros Hn. unfold _post_constraint, post_comparison.
    cbn [is_bv is_NumVarImpl attr_name attr_args lift_option].
    change ("==" =? "==")%string with true. cbn iota.
    erewrite bind_ok by reflexivity.
    change ("sum" =? "abs")%string with false.
    change (in_list "sum" ["mul"; "div"; "pow"; "mod"; "abs"]) with false.
    change ("sum" =? "sub")%string with false.
    change ("sum" =? "sum")%string with true. cbn iota.
    erewrite bind_ok by reflexivity.
    destruct args as [|a [|b args]]; [done | done | simpl in Hn; lia].
Qed.

(** The same, for [xor(x, x)], [abs(a) <= b], [min(a, b) == a] and
    [sum(\[a\]) == b] on a new solver. *)
Lemma unsupported_constraints_change_nothing_witness :
  _post_constraint (U:=canonical 0 10) (fun _ => ret tt)
    (Operator "xor" [var_x; var_x]) __init__
    = (Raise NotImplementedError, __init__) /\
  _post_constraint (U:=canonical 0 10) (fun _ => ret tt)
    (Comparison "<=" (Operator "abs" [var_a]) var_b) __init__
    = (Raise NotImplementedError, __init__) /\
  _post_constraint (U:=canonical 0 10) (fun _ => ret tt)
    (Comparison "==" (Operator "min" [var_a; var_b]) var_a) __init__
    = (Raise NotImplementedError, __init__) /\
  _post_constraint (U:=canonical 0 10) (fun _ => ret tt)
    (Comparison "==" (Operator "sum" [var_a]) var_b) __init__
    = (Raise NotImplementedError, __init__).
Proof.
  split; [|split; [|split]].
  - refine (proj1 (unsupported_constraints_change_nothing (canonical 0 10)
                     (fun _ => ret tt) "xor" [var_x; var_x] var_x var_x
                     __init__) _).
    rewrite !not_elem_of_cons. repeat split; [discriminate..|].
    apply not_elem_of_nil.
  - refine (proj1 (proj2 (unsupported_constraints_change_nothing
                     (canonical 0 10) (fun _ => ret tt) "<=" []
                     (Operator "abs" [var_a]) var_b __init__)) _ _);
      [reflexivity | discriminate].
  - refine (proj1 (proj2 (proj2 (unsupported_constraints_change_nothing
                     (canonical 0 10) (fun _ => ret tt) "min" [var_a; var_b]
                     var_a var_a __init__))) _).
    rewrite !not_elem_of_cons. repeat split; [discriminate..|].
    apply not_elem_of_nil.
  - refine (proj2 (proj2 (proj2 (unsupported_constraints_change_nothing
                     (canonical 0 10) (fun _ => ret tt) "sum" [var_a]
                     var_a var_b __init__))) _).
    simpl. lia.
Defined.

(** X7: an equality on a [sum] of more than two terms, and one on a
    weighted sum, are lowered to one [post_linear_equality] call: the
    handles of the terms followed by the negated handle of the result, as
    many coefficients 1 (for [wsum], the given weights followed by 1), and
    the constant 0.  The terms are bound first, then the result. *)
Theorem linear_equality_lowering (U : Upstream)
    (self_add : expr -> M solver unit) (terms weights : list expr)
    (rhs : expr) (s s1 s2 : solver) (hs : list hval) (r : handle) :
  mapM solver_vars terms s = (Ok hs, s1) ->
  solver_var rhs s1 = (Ok r, s2) ->
  ((2 < length terms)%nat ->
   _post_constraint self_add (Comparison "==" (Operator "sum" terms) rhs) s =
     (Ok tt, set_gcs (fun l => l ++ [Call "post_linear_equality"
                [AH (HL (hs ++ [H (HNeg r)]));
                 APy (PyList (replicate (S (length terms)) (Num 1)));
                 APy (Num 0)]]) s2)) /\
  _post_constraint self_add
    (Comparison "==" (Operator "wsum" [PyList weights; PyList terms]) rhs) s =
    (Ok tt, set_gcs (fun l => l ++ [Call "post_linear_equality"
               [AH (HL (hs ++ [H (HNeg r)]));
                APy (PyList (weights ++ [Num 1]));
                APy (Num 0)]]) s2).
Proof.
  intros Em Er. split.
  - intros Hlen. unfold _post_constraint, post_comparison.
    cbn [is_bv is_NumVarImpl attr_name attr_args lift_option].
    change ("==" =? "==")%string with true. cbn iota.
    erewrite bind_ok by reflexivity.
    change ("sum" =? "abs")%string with false.
    change (in_list "sum" ["mul"; "div"; "pow"; "mod"; "abs"]) with false.
    change ("sum" =? "sub")%string with false.
    change ("sum" =? "sum")%string with true. cbn iota.
    erewrite bind_ok by reflexivity.
    assert ((length terms =? 2)%nat = false) as -> by (apply Nat.eqb_neq; lia).
    assert ((2 <? length terms)%nat = true) as -> by (apply Nat.ltb_lt; lia).
    rewrite (bind_ok _ _ _ _ _ Em), (bind_ok _ _ _ _ _ Er).
    rewrite length_app, (mapM_length _ _ _ _ _ Em). simpl.
    by rewrite Nat.add_1_r.
  - unfold _post_constraint, post_comparison.
    cbn [is_bv is_NumVarImpl attr_name attr_args lift_option].
    change ("==" =? "==")%string with true. cbn iota.
    erewrite bind_ok by reflexivity.
    change ("wsum" =? "abs")%string with false.
    change (in_list "wsum" ["mul"; "div"; "pow"; "mod"; "abs"]) with false.
    change ("wsum" =? "sub")%string with false.
    change ("wsum" =? "sum")%string with false.
    change ("wsum" =? "wsum")%string with true. cbn iota.
    erewrite bind_ok by reflexivity.
    erewrite (bind_ok (item _ 1)) by reflexivity.
    assert (solver_vars (PyList terms) s = (Ok (HL hs), s1)) as Es.
    { cbn [solver_vars]. change (mapM solver_vars terms) with
        (mapM solver_vars terms). by rewrite (bind_ok _ _ _ _ _ Em). }
    rewrite (bind_ok _ _ _ _ _ Es), (bind_ok _ _ _ _ _ Er).
    by erewrite (bind_ok (item _ 0)) by reflexivity.
Qed.

(** The same, for [a + b + x == 3] and [2*a + 3*b == 3] on a new solver. *)
Lemma linear_equality_lowering_witness :
  let hs := [H (HVar 0); H (HVar 1)] in
  let s1 := (mapM solver_vars [var_a; var_b] __init__).2 in
  _post_constraint (U:=canonical 0 10) (fun _ => ret tt)
    (Comparison "==" (Operator "wsum" [PyList [Num 2; Num 3];
                                       PyList [var_a; var_b]]) (Num 3))
    __init__ =
    (Ok tt, set_gcs (fun l => l ++ [Call "post_linear_equality"
               [AH (HL (hs ++ [H (HNeg (HConst 3))]));
                APy (PyList ([Num 2; Num 3] ++ [Num 1]));
                APy (Num 0)]]) s1).
Proof.
  refine (proj2 (linear_equality_lowering (canonical 0 10) (fun _ => ret tt)
                   [var_a; var_b] [Num 2; Num 3] (Num 3) __init__ _ _
                   [H (HVar 0); H (HVar 1)] (HConst 3) _ _));
    vm_compute; reflexivity.
Defined.

(** X8: an equality on a difference is lowered to a sum with the second
    operand negated, [post_arithmetic(x, negate(y), r, 'sum')], and one on
    a sum of two terms to [post_arithmetic(x, y, r, 'sum')]; the operands
    are bound in the order x, y, r. *)
Theorem difference_is_a_sum (U : Upstream) (self_add : expr -> M solver unit)
    (x y rhs : expr) (s s1 s2 s3 : solver) (h1 h2 r : handle) :
  solver_var x s = (Ok h1, s1) ->
  solver_var y s1 = (Ok h2, s2) ->
  solver_var rhs s2 = (Ok r, s3) ->
  _post_constraint self_add (Comparison "==" (Operator "sub" [x; y]) rhs) s =
    (Ok tt, set_gcs (fun l => l ++ [Call "post_arithmetic"
               [AH (H h1); AH (H (HNeg h2)); AH (H r); AStr "sum"]]) s3) /\
  _post_constraint self_add (Comparison "==" (Operator "sum" [x; y]) rhs) s =
    (Ok tt, set_gcs (fun l => l ++ [Call "post_arithmetic"
               [AH (H h1); AH (H h2); AH (H r); AStr "sum"]]) s3).
Proof.
  intros E1 E2 E3. split.
  - unfold _post_constraint, post_comparison.
    cbn [is_bv is_NumVarImpl attr_name attr_args lift_option].
    change ("==" =? "==")%string with true. cbn iota.
    erewrite bind_ok by reflexivity.
    change ("sub" =? "abs")%string with false.
    change (in_list "sub" ["mul"; "div"; "pow"; "mod"; "abs"]) with false.
    change ("sub" =? "sub")%string with true. cbn iota.
    erewrite bind_ok by reflexivity.
    erewrite (bind_ok (item _ 0)) by reflexivity.
    rewrite (bind_ok _ _ _ _ _ E1).
    erewrite (bind_ok (item _ 1)) by reflexivity.
    by rewrite (bind_ok _ _ _ _ _ E2), (bind_ok _ _ _ _ _ E3).
  - unfold _post_constraint, post_comparison.
    cbn [is_bv is_NumVarImpl attr_name attr_args lift_option].
    change ("==" =? "==")%string with true. cbn iota.
    erewrite bind_ok by reflexivity.
    change ("sum" =? "abs")%string with false.
    change (in_list "sum" ["mul"; "div"; "pow"; "mod"; "abs"]) with false.
    change ("sum" =? "sub")%string with false.
    change ("sum" =? "sum")%string with true. cbn iota.
    erewrite bind_ok by reflexivity.
    change (length [x; y] =? 2)%nat with true. cbn iota.
    erewrite (bind_ok (item _ 0)) by reflexivity.
    rewrite (bind_ok _ _ _ _ _ E1).
    erewrite (bind_ok (item _ 1)) by reflexivity.
    by rewrite (bind_ok _ _ _ _ _ E2), (bind_ok _ _ _ _ _ E3).
Qed.

(** The same, for [a - b == 3] and [a + b == 3] on a new solver. *)
Lemma difference_is_a_sum_witness :
  let s2 := (mapM solver_vars [var_a; var_b] __init__).2 in
  _post_constraint (U:=canonical 0 10) (fun _ => ret tt)
    (Comparison "==" (Operator "sub" [var_a; var_b]) (Num 3)) __init__ =
    (Ok tt, set_gcs (fun l => l ++ [Call "post_arithmetic"
               [AH (H (HVar 0)); AH (H (HNeg (HVar 1))); AH (H (HConst 3));
                AStr "sum"]]) s2) /\
  _post_constraint (U:=canonical 0 10) (fun _ => ret tt)
    (Comparison "==" (Operator "sum" [var_a; var_b]) (Num 3)) __init__ =
    (Ok tt, set_gcs (fun l => l ++ [Call "post_arithmetic"
               [AH (H (HVar 0)); AH (H (HVar 1)); AH (H (HConst 3));
                AStr "sum"]]) s2).
Proof.
  refine (difference_is_a_sum (canonical 0 10) (fun _ => ret tt)
            var_a var_b (Num 3) __init__ (solver_var var_a __init__).2 _ _
            (HVar 0) (HVar 1) (HConst 3) _ _ _);
    vm_compute; reflexivity.
Defined.

(** X9: [__add__] tracks every variable of the constraint it is given
    before it posts anything, so they are tracked also when posting
    raises: the tracked variables after the call start with the ones
    before it updated with the variables of the constraint, and each
    variable of the constraint is found in the set, where a variable is
    found by its name. *)
Theorem add_tracks_variables (U : Upstream) (depth : nat) (cpm_con : expr)
    (s : solver) :
  set_update (user_vars s) (get_variables cpm_con) `prefix_of`
    user_vars (__add__ depth cpm_con s).2 /\
  Forall (fun v => tracked (user_vars (__add__ depth cpm_con s).2) v = true)
         (get_variables cpm_con).
Proof.
  rewrite add_eq.
  set (s0 := set_user_vars _ s).
  split.
  - exact (session_post_all tracks_on depth (primitives cpm_con) s0).
  - pose proof (session_post_all grows depth (primitives cpm_con) s0)
      as [_ _ Hu _].
    apply Forall_forall. intros v Hv.
    apply (tracked_prefix v (user_vars s0)); [exact Hu|].
    unfold s0. simpl. by apply set_update_tracked.
Qed.

(** X10: when [objective] returns, the objective flag is set, the stored
    objective handle is the argument of the last native call, [minimise]
    or [maximise] according to the flag, and the variables of the
    flattened objective are tracked (found in the set, by name).  The
    handle is the flattened objective itself when that is a number, and
    otherwise the cached handle of the objective variable: the flattened
    objective when it is a variable, the auxiliary variable made for it
    when it is not. *)
Theorem objective_is_stored (U : Upstream) (depth : nat) (e : expr)
    (minimize : bool) (s s' : solver) :
  objective depth e minimize s = (Ok tt, s') ->
  let flat_obj := (flatten_objective e).1 in
  exists o,
    has_objective s' = true /\ objective_var s' = Some o /\
    last (gcs s') =
      Some (Call (if minimize then "minimise" else "maximise") [o]) /\
    Forall (fun v => tracked (user_vars s') v = true)
           (get_variables flat_obj) /\
    match flat_obj with
    | Num _ | PyBool _ => o = APy flat_obj
    | Var v => exists h, handle_of s' v = Some h /\ o = AH (H h)
    | _ => exists h, handle_of s' (get_or_make_var flat_obj).1 = Some h /\
                     o = AH (H h)
    end.
Proof.
  intros E flat_obj. unfold objective in E. subst flat_obj.
  destruct (flatten_objective e) as [flat_obj flat_cons]; simpl in *.
  apply bind_inv in E as ([] & s0 & E0 & E).
  apply bind_inv in E as ([] & s1 & E1 & E). injection E1 as <-.
  apply bind_inv in E as (o & s3 & E2 & E).
  apply bind_inv in E as ([] & s4 & E4 & E). injection E4 as <-.
  assert (s' = set_gcs (fun l => l ++ [Call (if minimize then "minimise"
                                             else "maximise") [o]])
                 (set_objective o s3)) as ->
    by (destruct minimize; by injection E as <-).
  exists o. split; [done|]. split; [done|]. split; [apply last_snoc|].
  split.
  - pose proof (keeps_make_numexpr grows depth flat_obj
                  (set_user_vars (fun u => set_update u
                                    (get_variables flat_obj)) s0))
      as [_ _ Hu _].
    rewrite E2 in Hu. apply Forall_forall. intros v Hv. simpl.
    apply (tracked_prefix v _ _ Hu). simpl. by apply set_update_tracked.
  - unfold _make_numexpr in E2.
    destruct (get_or_make_var flat_obj) as [obj_var obj_cons] eqn:Eg.
    assert (forall v t, (h <~ solver_var (Var v) ;; ret (AH (H h))) t
                          = (Ok o, s3) ->
                        exists h, handle_of s3 v = Some h /\ o = AH (H h))
      as Hvar.
    { intros v t Ev. apply bind_inv in Ev as (h & t' & Ev & [= <- <-]).
      destruct (solver_var_handle_of v t) as (h' & t'' & Ev' & Hh & _).
      rewrite Ev in Ev'. injection Ev' as <- <-. by exists h. }
    destruct flat_obj as [n|b|v|l|op a|op l r|nm a];
      cbn [is_num is_NumVarImpl] in E2.
    + by injection E2 as <- <-.
    + by injection E2 as <- <-.
    + by apply Hvar in E2.
    + apply bind_inv in E2 as ([] & t & _ & E2). by apply Hvar in E2.
    + apply bind_inv in E2 as ([] & t & _ & E2). by apply Hvar in E2.
    + apply bind_inv in E2 as ([] & t & _ & E2). by apply Hvar in E2.
    + apply bind_inv in E2 as ([] & t & _ & E2). by apply Hvar in E2.
Qed.

(** The same, for Scenario E: the objective handle is that of the
    auxiliary variable. *)
Lemma objective_is_stored_witness :
  exists o,
    has_objective glasgow_E = true /\ objective_var glasgow_E = Some o /\
    last (gcs glasgow_E) = Some (Call "minimise" [o]) /\
    Forall (fun v => tracked (user_vars glasgow_E) v = true)
           (vars_of sum_a_b) /\
    exists h, handle_of glasgow_E (aux_var 0 10) = Some h /\ o = AH (H h).
Proof.
  refine (objective_is_stored (canonical 0 10) 1 sum_a_b true __init__
            glasgow_E _).
  vm_compute; reflexivity.
Defined.

(** X11: when [objective] raises, the objective of the session is the one
    it had: flag, handle, status and objective value are unchanged. *)
Theorem failed_objective_keeps_the_previous_one (U : Upstream) (depth : nat)
    (e : expr) (minimize : bool) (s s' : solver) (x : exn) :
  objective depth e minimize s = (Raise x, s') ->
  has_objective s' = has_objective s /\ objective_var s' = objective_var s /\
  cpm_status s' = cpm_status s /\ objective_value_ s' = objective_value_ s.
Proof.
  intros E. unfold objective in E.
  destruct (flatten_objective e) as [flat_obj flat_cons].
  assert (same_objective s s') as (?&?&?&?); [|done].
  unfold bind in E.
  pose proof (keeps_add same_objective depth (PyList flat_cons) s) as H0.
  destruct (__add__ depth (PyList flat_cons) s) as [[[]|x0] s0];
    [|by injection E as <- <-].
  simpl in E, H0.
  pose proof (keeps_make_numexpr same_objective depth flat_obj
                (set_user_vars (fun u => set_update u
                                  (get_variables flat_obj)) s0)) as H1.
  destruct (_make_numexpr depth flat_obj _) as [[o|x1] s1].
  - by destruct minimize.
  - injection E as <- <-. simpl in H1. etrans; [exact H0|]. exact H1.
Qed.

(** The same, for the objective [\[a, b\]] (a list, which has no name) set
    on the session of Scenario E. *)
Lemma failed_objective_keeps_the_previous_one_witness :
  let s' := (objective (U:=canonical 0 10) 1 (PyList [var_a; var_b]) true
               glasgow_E).2 in
  has_objective s' = has_objective glasgow_E /\
  objective_var s' = objective_var glasgow_E /\
  cpm_status s' = cpm_status glasgow_E /\
  objective_value_ s' = objective_value_ glasgow_E.
Proof.
  refine (failed_objective_keeps_the_previous_one (canonical 0 10) 1
            (PyList [var_a; var_b]) true glasgow_E _ AttributeError _).
  vm_compute; reflexivity.
Defined.

End GlasgowPostingProperties.

(** * Further properties of the DSL back end *)

Section MiniZincProperties.
Import MiniZinc MiniZincProofs MiniZincSessions MiniZincRuns MiniZincText.

(** X12: the name [solver_var] declares a variable under holds none of the
    characters [,], [.], space, [\[] and [\]], and cleaning a cleaned name
    changes nothing. *)
Theorem sanitize_cleans (varname : string) :
  Forall (fun c => c ∉ unclean) (list_ascii_of_string (sanitize varname)) /\
  sanitize (sanitize varname) = sanitize varname.
Proof.
  assert (Forall (fun c => c ∉ unclean)
            (list_ascii_of_string (sanitize varname))) as Hc.
  { apply Forall_forall. intros c. apply sanitize_chars. }
  split; [exact Hc | by apply sanitize_clean].
Qed.

(** X13: the constructor normalises the subsolver name.  The solver's name
    is the subsolver's behind [minizinc:]; constructing a solver from the
    name of a solver gives the same solver; no subsolver and the subsolver
    [minizinc] both mean [gecode]. *)
Theorem init_normalises_subsolver (subsolver : option string) :
  name (__init__ subsolver) = "minizinc:" +:+ mzn_solver (__init__ subsolver) /\
  __init__ (Some (name (__init__ subsolver))) = __init__ subsolver /\
  __init__ (Some "minizinc") = __init__ None /\
  mzn_solver (__init__ None) = "gecode".
Proof.
  split; [done|]. split; [|done].
  assert (forall m, __init__ (Some ("minizinc:" +:+ m)) =
                    {| name := "minizinc:" +:+ m; mzn_solver := m;
                       mzn_model := [preamble];
                       mzn_txt_solve := "solve satisfy;";
                       _varmap := ∅; user_vars := [];
                       cpm_status := NOT_RUN; runtime := None;
                       objective_value_ := None; _value := ∅ |}) as Hm.
  { intros m. unfold __init__.
    change ("minizinc:" +:+ m =? "minizinc")%string with false. cbn iota.
    rewrite (prefix_app "minizinc:" m).
    change (substring 9 (String.length ("minizinc:" +:+ m) - 9)
              ("minizinc:" +:+ m))
      with (substring 0 (String.length m - 0) m).
    by rewrite Nat.sub_0_r, substring_all. }
  change (name (__init__ subsolver))
    with ("minizinc:" +:+ mzn_solver (__init__ subsolver)).
  by rewrite Hm.
Qed.

(** X14: [solvernames] returns, for every solver the driver reports, the
    part of its id after the last dot, leaving out [findmus], [gist] and
    [globalizer]: every name returned is free of dots, is none of the
    three, and ends an id of the list.  Splitting an id at the dots and
    joining the parts with dots gives the id back. *)
Theorem solvernames_are_last_segments (out_lst : list string) :
  Forall (fun name =>
            ("."%char ∉ list_ascii_of_string name) /\
            (name ∉ ["findmus"; "gist"; "globalizer"]) /\
            exists id p, id ∈ out_lst /\ id = p +:+ name)
         (solvernames out_lst) /\
  Forall (fun id => join "." (split "." id) = id) out_lst.
Proof.
  split; [|apply Forall_forall; intros id _; apply join_split].
  apply Forall_forall. intros n Hn. unfold solvernames in Hn.
  apply list_elem_of_In, filter_In in Hn as [Hn Hf].
  apply list_elem_of_In, list_elem_of_fmap in Hn as (id & -> & Hid).
  split; [|split].
  - pose proof (split_chars "." id) as Hc.
    rewrite Forall_forall in Hc. apply Hc.
    apply last_elem_of, split_nonempty.
  - unfold in_list in Hf. cbn [existsb] in Hf.
    rewrite !not_elem_of_cons. apply negb_true_iff in Hf.
    rewrite !orb_false_iff in Hf. destruct Hf as (H1 & H2 & H3 & _).
    apply String.eqb_neq in H1, H2, H3.
    repeat split; try done. apply not_elem_of_nil.
  - destruct (split_last_suffix "." id) as [p Hp]. by exists id, p.
Qed.

(** X15: in every session of the DSL back end, the stored program is the
    preamble followed by variable declarations and constraint items; every
    key of the cache, which finds a variable by its name, is the name of a
    variable, cached with its cleaned form, and the declaration of the
    variable that was bound first under that name is in the program;
    there are as many declarations as cache entries, so that a second
    variable of the same name is not declared again; the solver's name is
    the subsolver's behind [minizinc:]; and the solve item kept apart is a
    solve item. *)
Theorem session_program_structure (U : Upstream) (T : Type) (s : solver) :
  reachable (T:=T) s -> model_ok s.
Proof.
  intros Hr.
  destruct (mzn_reachable (preserves model_ok) s Hr) as [sub H].
  apply H, init_model_ok.
Qed.

(** The same, for the session of Scenario E. *)
Lemma session_program_structure_witness : model_ok minizinc_E.
Proof.
  exact (session_program_structure (canonical 0 10) unit minizinc_E
           (reach_objective _ _ _ (reach_init None))).
Defined.

(** X16: whatever their outcome, [__add__], [objective], [solve] and
    [solveAll] only extend the stored program, the cache and the set of
    tracked variables, and leave the solver's name and subsolver as they
    are: no item of the program is ever removed or rewritten. *)
Theorem dsl_methods_only_extend (U : Upstream) (T : Type) (s : solver)
    (e : expr) (minimize display : bool) (time_limit : option T)
    (solution_limit : option nat) (kwargs : gmap string (kwarg T))
    (mzn_run : mzn_instance -> gmap string (kwarg T) -> mzn_result)
    (mzn_solutions : mzn_instance -> gmap string (kwarg T) ->
                     list mzn_result) :
  mzn_grows s (__add__ e s).2 /\
  mzn_grows s (objective e minimize s).2 /\
  mzn_grows s (solve time_limit kwargs mzn_run s).2 /\
  mzn_grows s (solveAll display time_limit solution_limit kwargs
                 mzn_solutions s).2.
Proof.
  split; [|split; [|split]].
  - apply mzn_add, _.
  - apply mzn_objective, _.
  - apply mzn_solve, _.
  - apply mzn_solveAll, _.
Qed.

(** X17: in a session, an operator that is not [table] or [wsum] and does
    not have exactly two arguments is rendered from the renderings of its
    arguments as [forall(\[...\])], [exists(\[...\])] or [sum(\[...\])]
    for [and], [or] and [sum], and as [name(...)] otherwise.  The unary
    minus special case, which tests the solver's name, never applies: the
    name starts with [minizinc:], so [-x] is rendered [-(x)]. *)
Theorem operator_rendering (U : Upstream) (T : Type) (s s1 : solver)
    (op : string) (args : list expr) (args_str : list string) :
  reachable (T:=T) s ->
  op <> "table" -> op <> "wsum" -> length args <> 2%nat ->
  mapM _convert_expression args s = (Ok args_str, s1) ->
  String.prefix "minizinc:" (name s) = true /\
  _convert_expression (Operator op args) s =
    (Ok (match printnary op with
         | Some nary => nary +:+ "([" +:+ join "," args_str +:+ "])"
         | None => printmap op +:+ "(" +:+ join "," args_str +:+ ")"
         end), s1).
Proof.
  intros Hr Ht Hw Hlen Em.
  destruct (mzn_reachable (preserves model_ok) s Hr) as [sub Hok].
  specialize (Hok (init_model_ok sub)). destruct Hok as [_ _ _ Hname _].
  split; [rewrite Hname; apply prefix_app|].
  cbn [_convert_expression]. apply String.eqb_neq in Ht, Hw. rewrite Ht.
  rewrite (bind_ok _ _ _ _ _ Em). erewrite bind_ok by reflexivity.
  assert (name s1 = name s) as ->.
  { assert (keeps same_session (mapM _convert_expression args)) as Hk.
    { refine (keeps_mapM _ _ _ _). apply Forall_forall. intros x _.
      apply keeps_convert, _. }
    specialize (Hk s). rewrite Em in Hk. by destruct Hk as (N & _). }
  assert ((name s =? "-")%string = false) as ->.
  { rewrite Hname. reflexivity. }
  rewrite Hw. unfold render_operator.
  rewrite (mapM_length _ _ _ _ _ Em).
  apply Nat.eqb_neq in Hlen. by rewrite Hlen.
Qed.

(** The same, for [-x] on a new solver. *)
Lemma operator_rendering_witness :
  String.prefix "minizinc:" (name (__init__ None)) = true /\
  _convert_expression (U:=canonical 0 1) (Operator "-" [var_x])
    (__init__ None) =
    (Ok "-(x)", (solver_var var_x (__init__ None)).2).
Proof.
  refine (operator_rendering (canonical 0 1) unit (__init__ None) _ "-"
            [var_x] ["x"] (reach_init None) _ _ _ _);
    [discriminate | discriminate | discriminate | vm_compute; reflexivity].
Defined.

(** X18: the outcome of [solve] by the status of the run, which is
    started on the stored program followed by the solve item, with
    [output-time] set and [timeout] set to the time limit if there is one.
    SATISFIED, ALL_SOLUTIONS and OPTIMAL_SOLUTION return [True] with the
    objective value of the run (and raise IndexError on an empty list of
    solutions); UNSATISFIABLE and UNKNOWN return [False] with objective
    value [None]; ERROR raises after storing ERROR; any other status
    raises NotImplementedError and leaves the status NOT_RUN.  The run
    time stored is that of the run in every case. *)
Theorem solve_outcome (T : Type) (s : solver) (time_limit : option T)
    (kwargs : gmap string (kwarg T))
    (mzn_run : mzn_instance -> gmap string (kwarg T) -> mzn_result) :
  let r := mzn_run (instance_of s) (solve_kwargs time_limit kwargs) in
  let out := solve time_limit kwargs mzn_run s in
  runtime out.2 = statistics_time r /\
  match status r with
  | Status.SATISFIED | Status.ALL_SOLUTIONS | Status.OPTIMAL_SOLUTION =>
      cpm_status out.2 =
        match status r with
        | Status.OPTIMAL_SOLUTION => OPTIMAL
        | _ => FEASIBLE
        end /\
      match chosen r with
      | Some _ =>
          out.1 = Ok true /\ objective_value_ out.2 = result_objective r
      | None => out.1 = Raise IndexError /\ objective_value_ out.2 = None
      end
  | Status.UNSATISFIABLE =>
      out.1 = Ok false /\ cpm_status out.2 = UNSATISFIABLE /\
      objective_value_ out.2 = None
  | Status.UNKNOWN =>
      out.1 = Ok false /\ cpm_status out.2 = ERROR /\
      objective_value_ out.2 = None
  | Status.ERROR =>
      out.1 = Raise (Exception "MiniZinc solver returned with status 'Error'")
      /\ cpm_status out.2 = ERROR /\
      objective_value_ out.2 = objective_value_ s
  | _ =>
      out.1 = Raise NotImplementedError /\ cpm_status out.2 = NOT_RUN /\
      objective_value_ out.2 = objective_value_ s
  end.
Proof.
  intros r out. unfold out.
  assert (forall st,
            _post_solve r s = (Ok st, (set_status st (statistics_time r) s).2)
            -> _solve_return st = true ->
            runtime (solve time_limit kwargs mzn_run s).2 = statistics_time r
            /\ cpm_status (solve time_limit kwargs mzn_run s).2 = st /\
            match chosen r with
            | Some _ =>
                (solve time_limit kwargs mzn_run s).1 = Ok true /\
                objective_value_ (solve time_limit kwargs mzn_run s).2
                  = result_objective r
            | None =>
                (solve time_limit kwargs mzn_run s).1 = Raise IndexError /\
                objective_value_ (solve time_limit kwargs mzn_run s).2 = None
            end) as Hsol.
  { intros st Ep Hst. destruct (chosen r) as [m|] eqn:Hm.
    - destruct (fill_values_status m
                  (set_objective_value None
                     (set_status st (statistics_time r) s).2).2)
        as (s2 & Ef & Hc & Hrt).
      rewrite (solve_with_solution time_limit kwargs mzn_run s st _ m s2
                 Ep Hst Hm Ef).
      simpl in *. by rewrite Hrt, Hc.
    - by rewrite (solve_empty_solutions time_limit kwargs mzn_run s st _
                    Ep Hst Hm). }
  assert (forall st,
            _post_solve r s = (Ok st, (set_status st (statistics_time r) s).2)
            -> _solve_return st = false ->
            solve time_limit kwargs mzn_run s =
              (Ok false, (set_objective_value None
                            (set_status st (statistics_time r) s).2).2))
    as Hno.
  { intros st Ep Hst.
    apply (solve_without_solution time_limit kwargs mzn_run s st _ Ep Hst). }
  assert (forall e s0, _post_solve r s = (Raise e, s0) ->
                       solve time_limit kwargs mzn_run s = (Raise e, s0))
    as Hraise.
  { intros e s0 Ep.
    apply (solve_status_raises time_limit kwargs mzn_run s e s0 Ep). }
  unfold _post_solve in Hsol, Hno, Hraise.
  destruct (status r) eqn:Hst.
  - by rewrite (Hraise _ _ eq_refl).
  - by rewrite (Hno ERROR eq_refl eq_refl).
  - by rewrite (Hraise _ _ eq_refl).
  - by rewrite (Hraise _ _ eq_refl).
  - by rewrite (Hno UNSATISFIABLE eq_refl eq_refl).
  - destruct (Hsol FEASIBLE eq_refl eq_refl) as (? & ? & ?). done.
  - destruct (Hsol FEASIBLE eq_refl eq_refl) as (? & ? & ?). done.
  - destruct (Hsol OPTIMAL eq_refl eq_refl) as (? & ? & ?). done.
Qed.

(** X19: in a session, a [solve] whose run has a solution reads it back
    into the value slots of the tracked variables: each tracked variable
    gets the value the solution has under its cleaned name, and keeps its
    old value when the solution has none; no other slot changes. *)
Theorem solve_reads_solution_back (U : Upstream) (T : Type) (s : solver)
    (time_limit : option T) (kwargs : gmap string (kwarg T))
    (mzn_run : mzn_instance -> gmap string (kwarg T) -> mzn_result)
    (m : gmap string value) :
  reachable (T:=T) s ->
  let r := mzn_run (instance_of s) (solve_kwargs time_limit kwargs) in
  status r ∈ [Status.SATISFIED; Status.ALL_SOLUTIONS;
              Status.OPTIMAL_SOLUTION] ->
  chosen r = Some m ->
  let out := solve time_limit kwargs mzn_run s in
  out.1 = Ok true /\ user_vars out.2 = user_vars s /\
  forall v, _value out.2 !! v =
            if decide (v ∈ user_vars s) then read_back m (_value s) v
            else _value s !! v.
Proof.
  intros Hr r Hst Hm out.
  destruct (mzn_reachable (preserves model_ok) s Hr) as [sub Hok].
  specialize (Hok (init_model_ok sub)).
  assert (exists st,
            _post_solve r s = (Ok st, (set_status st (statistics_time r) s).2)
            /\ _solve_return st = true) as (st & Ep & Hsr).
  { unfold _post_solve.
    repeat (apply elem_of_cons in Hst as [->|Hst]);
      [by exists FEASIBLE | by exists FEASIBLE | by exists OPTIMAL
      | by apply elem_of_nil in Hst]. }
  set (s0 := (set_objective_value None
                (set_status st (statistics_time r) s).2).2).
  assert (model_ok s0) as Hok0.
  { unfold s0.
    apply (mzn_objective_value (R:=preserves model_ok)).
    apply (mzn_status (R:=preserves model_ok)). exact Hok. }
  destruct (fill_values_spec m s0 Hok0) as (s2 & Ef & _ & Ss & Hv).
  unfold out.
  rewrite (solve_with_solution time_limit kwargs mzn_run s st _ m s2
             Ep Hsr Hm Ef).
  destruct Ss as (_&_&_&Hu&_).
  split; [done|]. split; [exact Hu|]. exact Hv.
Qed.

(** The same, for Scenario E and a run that proves the optimum 0. *)
Lemma solve_reads_solution_back_witness :
  let out := solve (T:=unit) None ∅ (fun _ _ => optimum_zero) minizinc_E in
  out.1 = Ok true /\ user_vars out.2 = user_vars minizinc_E /\
  forall v, _value out.2 !! v =
            if decide (v ∈ user_vars minizinc_E)
            then read_back {["a" := VInt 0; "b" := VInt 0]}
                   (_value minizinc_E) v
            else _value minizinc_E !! v.
Proof.
  refine (solve_reads_solution_back (canonical 0 10) unit minizinc_E None ∅
            (fun _ _ => optimum_zero) {["a" := VInt 0; "b" := VInt 0]}
            (reach_objective _ _ _ (reach_init None)) _ _).
  - apply elem_of_cons. right. apply elem_of_cons. right.
    apply list_elem_of_here.
  - reflexivity.
Defined.

(** X20: [solveAll] returns the number of solutions it has seen: the
    results the runtime yields are taken up to the first without a
    solution, and at most up to a solution limit that is positive; a limit
    of 0 limits nothing.  When the runtime yields nothing at all the call
    raises UnboundLocalError, since no result is left to take the status
    from. *)
Theorem solveAll_counts_solutions (U : Upstream) (T : Type) (s : solver)
    (display : bool) (time_limit : option T) (solution_limit : option nat)
    (kwargs : gmap string (kwarg T))
    (mzn_solutions : mzn_instance -> gmap string (kwarg T) ->
                     list mzn_result) :
  let rs := mzn_solutions (instance_of s)
              (<["all_solutions" := KwPy (PyBool true)]>
                 (solve_kwargs time_limit kwargs)) in
  Forall (fun r => status r ∉ [Status.ERROR; Status.UNBOUNDED;
                               Status.UNSAT_OR_UNBOUNDED]) rs ->
  (solveAll display time_limit solution_limit kwargs mzn_solutions s).1 =
    match rs with
    | [] => Raise UnboundLocalError
    | _ :: _ =>
        Ok (match solution_limit with
            | Some (S k) => Nat.min (S k) (found rs)
            | _ => found rs
            end)
    end.
Proof.
  intros rs Hrs. unfold solveAll, _solveAll.
  rewrite (bind_ok _ _ _ _ _ (pre_solve_run time_limit kwargs s)).
  cbn [fst snd]. fold rs.
  destruct (enumerate_count display solution_limit rs 0 None s)
    as (last' & s' & E & Hl).
  rewrite (bind_ok _ _ _ _ _ E). cbn [fst snd].
  destruct last' as [r|].
  - destruct Hl as [[=]|Hin].
    erewrite (bind_ok (lift_option _ _)) by reflexivity.
    assert (exists st s'', _post_solve r s' = (Ok st, s'')) as (st & s'' & Ep).
    { rewrite Forall_forall in Hrs. specialize (Hrs r Hin).
      rewrite !not_elem_of_cons in Hrs. destruct Hrs as (H1 & H2 & H3 & _).
      unfold _post_solve. destruct (status r); try done; by eexists _, _. }
    rewrite (bind_ok _ _ _ _ _ Ep). cbn [ret fst].
    destruct rs as [|r0 rs0]; [by apply elem_of_nil in Hin|].
    f_equal. unfold stops_at. destruct solution_limit as [[|k]|]; try done.
    change (0 <? S k)%nat with true.
    change (0 + found (r0 :: rs0))%nat with (found (r0 :: rs0)).
    cbn [andb].
    destruct (Nat.leb_spec (S k) (found (r0 :: rs0))); lia.
  - destruct Hl as [-> _]. reflexivity.
Qed.

(** The same, for the one-variable model and a runtime that yields a
    solution and then the end, with and without a limit of one. *)
Lemma solveAll_counts_solutions_witness :
  (solveAll (U:=canonical 0 1) (T:=unit) false None None ∅
     (fun _ _ => [x_true; no_more]) minizinc_x).1 = Ok 1%nat.
Proof.
  refine (solveAll_counts_solutions (canonical 0 1) unit minizinc_x false
            None None ∅ (fun _ _ => [x_true; no_more]) _).
  repeat constructor; rewrite !not_elem_of_cons; repeat split;
    try discriminate; apply not_elem_of_nil.
Defined.

Lemma post_all_items (U : Upstream) (l : list expr) (s s' : solver) :
  forM _post_constraint l s = (Ok tt, s') ->
  length (List.filter is_constraint (mzn_model s')) =
  (length (List.filter is_constraint (mzn_model s)) + length l)%nat.
Proof.
  revert s. induction l as [|c l IH]; intros s E; cbn [forM] in E.
  - injection E as <-. simpl. lia.
  - apply bind_inv in E as ([] & s1 & E1 & E). rewrite (IH _ E).
    unfold _post_constraint in E1.
    apply bind_inv in E1 as (txt & s2 & Ec & [= <-]).
    pose proof (keeps_convert only_declares c s) as (decls & Em & Hd).
    rewrite Ec in Em. simpl in Em. simpl. rewrite Em.
    rewrite !List.filter_app, !length_app.
    assert (List.filter is_constraint decls = []) as ->.
    { clear -Hd. induction Hd as [|d ds Hd _ IH]; [done|]. simpl.
      by rewrite (declaration_not_constraint _ Hd). }
    simpl. rewrite constraint_is_constraint. simpl. lia.
Qed.

(** X21: when [__add__] returns, the program has gained exactly one
    constraint item for each constraint of the argument, a list being
    unpacked through all its levels; posting the empty list adds none. *)
Theorem add_posts_every_constraint (U : Upstream) (cpm_con : expr)
    (s s' : solver) :
  __add__ cpm_con s = (Ok tt, s') ->
  length (List.filter is_constraint (mzn_model s')) =
  (length (List.filter is_constraint (mzn_model s)) +
   length (match is_any_list cpm_con with
           | Some l => flatlist l
           | None => [cpm_con]
           end))%nat.
Proof.
  unfold __add__. intros E. apply bind_inv in E as ([] & s0 & E0 & E).
  injection E0 as <-. by rewrite (post_all_items _ _ _ _ E).
Qed.

(** The same, for the constraint [x] posted on a new solver. *)
Lemma add_posts_every_constraint_witness :
  length (List.filter is_constraint (mzn_model minizinc_x)) =
  (length (List.filter is_constraint (mzn_model (__init__ None))) + 1)%nat.
Proof.
  refine (add_posts_every_constraint (canonical 0 1) var_x (__init__ None)
            minizinc_x _).
  vm_compute; reflexivity.
Defined.

End MiniZincProperties.

Section GlasgowImplicationProperties.
Import Glasgow GlasgowProofs GlasgowSessions.

(** X22: an implication whose consequent is [and], [or], [->] or [xor] is
    lowered to the native call [post_and_if], [post_or_if],
    [post_implies_if] or [post_xor_if] on the handles of the consequent's
    arguments and the handle of the antecedent, which is bound first.  An
    implication without arguments raises IndexError and one whose
    antecedent is not a Boolean variable raises AssertionError, both
    before the solver object is touched; a consequent that is an operator
    of another kind raises NotImplementedError after the antecedent has
    been bound. *)
Theorem implication_lowering (U : Upstream)
    (self_add : expr -> M solver unit) (bv : cpm_var) (name : string)
    (args rest : list expr) (e : expr) (s : solver) :
  is_BoolVarImpl bv = true ->
  _post_constraint self_add (Operator "->" []) s = (Raise IndexError, s) /\
  (is_bv e = false ->
   _post_constraint self_add (Operator "->" (e :: rest)) s
     = (Raise AssertionError, s)) /\
  (name ∉ ["and"; "or"; "->"; "xor"] ->
   _post_constraint self_add (Operator "->" [Var bv; Operator name args]) s
     = (Raise NotImplementedError, (solver_var (Var bv) s).2)) /\
  (forall hb s0 hs s1,
     name ∈ ["and"; "or"; "->"; "xor"] ->
     solver_var (Var bv) s = (Ok hb, s0) ->
     solver_vars (PyList args) s0 = (Ok hs, s1) ->
     _post_constraint self_add (Operator "->" [Var bv; Operator name args]) s
       = (Ok tt,
          set_gcs (fun l => l ++
            [Call (if (name =? "and")%string then "post_and_if"
                   else if (name =? "or")%string then "post_or_if"
                   else if (name =? "->")%string then "post_implies_if"
                   else "post_xor_if")
               [AH hs; AH (H hb)]]) s1)).
Proof.
  intros Hbv. split; [reflexivity|]. split; [|split].
  - intros He. unfold _post_constraint, post_reified.
    cbn [is_bv String.eqb Ascii.eqb Bool.eqb item lookup list_lookup
         lift_option].
    unfold bind at 1. cbn [ret]. unfold assert. by rewrite He.
  - intros Hn. rewrite !not_elem_of_cons in Hn.
    destruct Hn as (H1 & H2 & H3 & H4 & _).
    apply String.eqb_neq in H1, H2, H3, H4.
    destruct (solver_var_twice bv s) as (hb & s0 & E & _). rewrite E.
    unfold _post_constraint, post_reified.
    cbn [is_bv String.eqb Ascii.eqb Bool.eqb item lookup list_lookup
         lift_option].
    unfold bind at 1. cbn [ret]. unfold assert. cbn [is_bv]. rewrite Hbv.
    unfold bind at 1. cbn [ret].
    unfold bind at 1. rewrite E.
    unfold bind at 1. cbn [ret].
    by rewrite H1, H2, H3, H4.
  - intros hb s0 hs s1 Hn E Es.
    unfold _post_constraint, post_reified.
    cbn [is_bv String.eqb Ascii.eqb Bool.eqb item lookup list_lookup
         lift_option].
    unfold bind at 1. cbn [ret]. unfold assert. cbn [is_bv]. rewrite Hbv.
    unfold bind at 1. cbn [ret].
    unfold bind at 1. rewrite E.
    unfold bind at 1. cbn [ret].
    cbn [is_bv].
    repeat (apply elem_of_cons in Hn as [->|Hn]);
      [..|by apply elem_of_nil in Hn];
      cbn [String.eqb Ascii.eqb Bool.eqb]; cbn iota;
      by rewrite (bind_ok _ _ _ _ _ Es).
Qed.

(** The same, for [x -> or(\[x, x\])] on a new solver. *)
Lemma implication_lowering_witness :
  _post_constraint (U:=canonical 0 1) (fun _ => ret tt)
    (Operator "->" [var_x; Operator "or" [var_x; var_x]]) __init__
    = (Ok tt,
       set_gcs (fun l => l ++
         [Call "post_or_if"
            [AH (HL [H (HVar 0); H (HVar 0)]); AH (H (HVar 0))]])
         (solver_var var_x __init__).2).
Proof.
  refine (proj2 (proj2 (proj2 (implication_lowering (canonical 0 1)
            (fun _ => ret tt) (BoolVarImpl "x") "or" [var_x; var_x] []
            var_x __init__ eq_refl))) (HVar 0) _ _ _ _ _ _).
  - apply elem_of_cons. right. apply list_elem_of_here.
  - vm_compute; reflexivity.
  - vm_compute; reflexivity.
Defined.

End GlasgowImplicationProperties.
